(** * The World coordinator of the Blockheads MessageBot

    A shallow embedding of [src/src/world.ts]: the player registry, the
    command table, the three memoised remote resources (overview, lists,
    logs) and the promise plumbing that connects them.

    JavaScript objects that can be reached through more than one reference
    (arrays, the objects handed out by the remote API, the copies handed to
    callers) live in an explicit heap; promises live in a promise table with
    a microtask queue.  Both tables are lists indexed by allocation order, so
    a freshly allocated reference is the length of the table. *)

From Stdlib Require Import Ascii String ZArith Lia.
From stdpp Require Import base option list gmap strings.

Open Scope string_scope.
Open Scope list_scope.

(** ** Strings *)

(** A name is a string of 8-bit characters.  On the characters of ASCII
    (codes below 128) the host's [String.prototype.toLocaleUpperCase] maps
    the letters a-z to A-Z and leaves the others alone, in every locale but
    Turkish and Azeri (where i goes to a dotted capital I outside ASCII);
    that is what [toLocaleUpperCase] computes.  Beyond ASCII the host follows
    Unicode and its locale (accented letters, sharp s to SS, ...), which
    [toLocaleUpperCase] does not: it is the host's function on ASCII names
    only, and what is stated about letter case is stated for those
    ([ascii_only]). *)

Definition is_lower (c : ascii) : bool :=
  (("a" <=? c) && (c <=? "z"))%char.

Definition upper_char (c : ascii) : ascii :=
  if is_lower c then ascii_of_nat (nat_of_ascii c - 32) else c.

Fixpoint toLocaleUpperCase (s : string) : string :=
  match s with
  | EmptyString => EmptyString
  | String c s' => String (upper_char c) (toLocaleUpperCase s')
  end.



(** Two characters are the same letter when they are equal or when one is a
    lower-case letter and the other the upper-case letter 32 code points
    below it.  Two names are equal up to letter case when they have the same
    length and agree position by position in that sense. *)

Definition same_letter (c d : ascii) : Prop :=
  c = d
  ∨ (is_lower c = true ∧ nat_of_ascii d + 32 = nat_of_ascii c)
  ∨ (is_lower d = true ∧ nat_of_ascii c + 32 = nat_of_ascii d).

Inductive eq_nocase : string → string → Prop :=
| eq_nocase_nil : eq_nocase EmptyString EmptyString
| eq_nocase_cons c d s t :
    same_letter c d → eq_nocase s t → eq_nocase (String c s) (String d t).

(** *** The two regular expressions of the message handler *)

(** The test of line 48 on the message: at the start, a slash followed by one
    character that is not a space. *)
Definition test_command (message : string) : bool :=
  match message with
  | String "/" (String c _) => negb (c =? " ")%char
  | _ => false
  end.

(** The longest prefix without a space, and what follows it. *)
Fixpoint span_non_space (s : string) : string * string :=
  match s with
  | EmptyString => (EmptyString, EmptyString)
  | String c s' =>
      if (c =? " ")%char then (EmptyString, s)
      else let (tok, rest) := span_non_space s' in (String c tok, rest)
  end.

(** The characters that a dot refuses (line feed and carriage return are the
    ones an 8-bit string can hold). *)
Definition is_line_terminator (c : ascii) : bool :=
  ((c =? "010") || (c =? "013"))%char.

Fixpoint has_line_terminator (s : string) : bool :=
  match s with
  | EmptyString => false
  | String c s' => is_line_terminator c || has_line_terminator s'
  end.

(** The match of line 49 on the message, as the pair of its two groups: a
    slash, one or more characters that are not a space (first group), an
    optional space, any characters a dot accepts (second group), the end of
    the input.  [None] is JavaScript's [null].  The first group is greedy and takes every
    character up to the first space; the optional space is consumed when
    there is one; the second group has to reach the end of the input, which
    it cannot do across a line terminator, and no shorter first group helps
    (the character after it would not be a space and the same terminator
    would still be in the way). *)
Definition match_command (message : string) : option (string * string) :=
  match message with
  | String "/" rest =>
      let (command, tail) := span_non_space rest in
      let args := match tail with String _ a => a | EmptyString => EmptyString end in
      match command with
      | EmptyString => None
      | _ => if has_line_terminator args then None else Some (command, args)
      end
  | _ => None
  end.

(** ** The heap *)

(** A reference is the index of a cell in the heap. *)
Abbreviation loc := nat (only parsing).

(** One constructor per shape of object the World handles.  Of a
    [WorldOverview] only the two fields the World reads are kept; a
    [LogEntry] is the list of its own properties. *)
Inductive Obj :=
| OArray (items : list string)
| OOverview (owner : string) (online : loc)
| OLists (adminlist modlist whitelist blacklist : loc)
| OLogEntry (props : list (string * string))
| OLogs (entries : list loc).

Definition read_array (h : list Obj) (l : loc) : list string :=
  match h !! l with
  | Some (OArray items) => items
  | _ => []
  end.

(** ** Promises *)

(** A promise is known by its index in the promise table. *)
Abbreviation pid := nat (only parsing).
Abbreviation Err := string (only parsing).

Inductive Value :=
| VUndefined
| VRef (l : loc).

Inductive Outcome :=
| Fulfilled (v : Value)
| Rejected (e : Err).

(** The argument of [setLists]: a [Partial<WorldLists>], each list either
    absent or a reference to the caller's array. *)
Record PartialLists := mkPartial {
  p_adminlist : option loc;
  p_modlist : option loc;
  p_whitelist : option loc;
  p_blacklist : option loc
}.

(** The callbacks World passes to [.then], by the line that creates them. *)
Inductive Callback :=
| CbOverviewLoaded   (* world.ts 108-113 *)
| CbOverviewCopy     (* world.ts 116 *)
| CbListsLoaded      (* world.ts 124 *)
| CbListsCopy        (* world.ts 128-133 *)
| CbLogsCopy.        (* world.ts 156 *)

(** What waits on a promise: a [.then] callback with the promise derived
    from it, or one of the three resumption points of the async function
    [setLists], each carrying the promise [setLists] returned. *)
Inductive Cont :=
| KThen (f : Callback) (derived : pid)
| KSetLists1 (lists : PartialLists) (result : pid)   (* after line 143 *)
| KSetLists2 (result : pid)                          (* after line 144 *)
| KSetLists3 (result : pid).                         (* after line 145 *)

Inductive Cell :=
| Pending (reactions : list Cont)
| Settled (o : Outcome).

(** ** The collaborators, as seen from World *)

(** Every call World makes on the remote API, with the promise it got back. *)
Inductive ApiCall :=
| ApiGetOverview (p : pid)
| ApiGetLists (p : pid)
| ApiGetLogs (p : pid)
| ApiSetLists (lists : loc) (p : pid)
| ApiSend (message : string) (p : pid)
| ApiStart (p : pid)
| ApiStop (p : pid)
| ApiRestart (p : pid).

(** A [PlayerInfo] as world.ts builds and updates it.  [joins] is a
    JavaScript number that only ever counts up by one; it is an integer
    here.  [owner] is absent until it is set. *)
Record PlayerInfo := mkInfo {
  ip : string;
  ips : list string;
  joins : Z;
  owner : option bool
}.

(** The integers a JavaScript number counts exactly: from a count in this
    range [joins++] is the count plus one, as in [Z].  From 2^53 on the sum
    is rounded to a double ([2^53 + 1] is [2^53] again) and [Z] no longer
    follows the code; a stored count is taken to be in the range wherever
    its exact value after a join is stated. *)
Definition max_safe_integer : Z := 2 ^ 53 - 1.

Definition safe_count (n : Z) : Prop :=
  (- max_safe_integer ≤ n ≤ max_safe_integer)%Z.

(** [new Player(name, info, lists)]: the three constructor arguments. *)
Record Player := mkPlayer {
  player_name : string;
  player_info : PlayerInfo;
  player_lists : loc
}.

(** Modelled from the spec: the [Player] class of [./player] is not part of
    the sources at hand; its [isOwner] is the owner flag of the record the
    view was built from. *)
Definition isOwner (p : Player) : bool :=
  match owner (player_info p) with
  | Some b => b
  | None => false
  end.

(** What World publishes on its three dispatchers. *)
Inductive Event :=
| EvJoin (player : Player)
| EvLeave (player : Player)
| EvMessage (player : Player) (message : string).

(** A command listener is a closure; it is known by its identity, and a call
    of it is recorded with its two arguments. *)
Abbreviation Handler := nat (only parsing).

Record Invocation := mkInvocation {
  inv_handler : Handler;
  inv_player : Player;
  inv_args : string
}.

(** ** The state *)

Record World := mkWorld {
  heap : list Obj;
  promises : list Cell;
  microtasks : list (Cont * Outcome);
  api_log : list ApiCall;
  published : list Event;
  invoked : list Invocation;
  _cache_logs : option pid;
  _cache_overview : option pid;
  _cache_lists : option pid;
  _online : loc;
  _lists : loc;
  _players : gmap string PlayerInfo;
  _commands : gmap string Handler
}.

Definition set_heap (x : list Obj) (w : World) : World :=
  mkWorld x (promises w) (microtasks w) (api_log w) (published w) (invoked w)
    (_cache_logs w) (_cache_overview w) (_cache_lists w)
    (_online w) (_lists w) (_players w) (_commands w).

Definition set_promises (x : list Cell) (w : World) : World :=
  mkWorld (heap w) x (microtasks w) (api_log w) (published w) (invoked w)
    (_cache_logs w) (_cache_overview w) (_cache_lists w)
    (_online w) (_lists w) (_players w) (_commands w).

Definition set_microtasks (x : list (Cont * Outcome)) (w : World) : World :=
  mkWorld (heap w) (promises w) x (api_log w) (published w) (invoked w)
    (_cache_logs w) (_cache_overview w) (_cache_lists w)
    (_online w) (_lists w) (_players w) (_commands w).

Definition set_api_log (x : list ApiCall) (w : World) : World :=
  mkWorld (heap w) (promises w) (microtasks w) x (published w) (invoked w)
    (_cache_logs w) (_cache_overview w) (_cache_lists w)
    (_online w) (_lists w) (_players w) (_commands w).

Definition set_published (x : list Event) (w : World) : World :=
  mkWorld (heap w) (promises w) (microtasks w) (api_log w) x (invoked w)
    (_cache_logs w) (_cache_overview w) (_cache_lists w)
    (_online w) (_lists w) (_players w) (_commands w).

Definition set_invoked (x : list Invocation) (w : World) : World :=
  mkWorld (heap w) (promises w) (microtasks w) (api_log w) (published w) x
    (_cache_logs w) (_cache_overview w) (_cache_lists w)
    (_online w) (_lists w) (_players w) (_commands w).

Definition set_cache_logs (x : option pid) (w : World) : World :=
  mkWorld (heap w) (promises w) (microtasks w) (api_log w) (published w) (invoked w)
    x (_cache_overview w) (_cache_lists w)
    (_online w) (_lists w) (_players w) (_commands w).

Definition set_cache_overview (x : option pid) (w : World) : World :=
  mkWorld (heap w) (promises w) (microtasks w) (api_log w) (published w) (invoked w)
    (_cache_logs w) x (_cache_lists w)
    (_online w) (_lists w) (_players w) (_commands w).

Definition set_cache_lists (x : option pid) (w : World) : World :=
  mkWorld (heap w) (promises w) (microtasks w) (api_log w) (published w) (invoked w)
    (_cache_logs w) (_cache_overview w) x
    (_online w) (_lists w) (_players w) (_commands w).

Definition set_lists (x : loc) (w : World) : World :=
  mkWorld (heap w) (promises w) (microtasks w) (api_log w) (published w) (invoked w)
    (_cache_logs w) (_cache_overview w) (_cache_lists w)
    (_online w) x (_players w) (_commands w).

Definition set_players (x : gmap string PlayerInfo) (w : World) : World :=
  mkWorld (heap w) (promises w) (microtasks w) (api_log w) (published w) (invoked w)
    (_cache_logs w) (_cache_overview w) (_cache_lists w)
    (_online w) (_lists w) x (_commands w).

Definition set_commands (x : gmap string Handler) (w : World) : World :=
  mkWorld (heap w) (promises w) (microtasks w) (api_log w) (published w) (invoked w)
    (_cache_logs w) (_cache_overview w) (_cache_lists w)
    (_online w) (_lists w) (_players w) x.

(** A call either returns or throws; the state is the one at that moment. *)
Inductive Completion :=
| Normal (w : World)
| Throw (e : Err) (w : World).

(** ** The runtime: allocation, promises, microtasks *)

Definition alloc (o : Obj) (w : World) : loc * World :=
  (length (heap w), set_heap (heap w ++ [o]) w).

(** In-place update of an array (push, splice, assignment to an index):
    the cell keeps its address and gets new items. *)
Definition write_array (l : loc) (items : list string) (h : list Obj) : list Obj :=
  match h !! l with
  | Some (OArray _) => <[l := OArray items]> h
  | _ => h
  end.

Definition new_promise (w : World) : pid * World :=
  (length (promises w), set_promises (promises w ++ [Pending []]) w).

(** Register a reaction on a promise: it is queued behind the earlier ones
    while the promise is pending and becomes a microtask at once when the
    promise is already settled. *)
Definition subscribe (p : pid) (k : Cont) (w : World) : World :=
  match promises w !! p with
  | Some (Pending ks) => set_promises (<[p := Pending (ks ++ [k])]> (promises w)) w
  | Some (Settled o) => set_microtasks (microtasks w ++ [(k, o)]) w
  | None => w
  end.

(** [p.then(f)]: the derived promise, with [f] registered on [p]. *)
Definition then_ (p : pid) (f : Callback) (w : World) : pid * World :=
  let (q, w1) := new_promise w in
  (q, subscribe p (KThen f q) w1).

(** Settling a pending promise turns its reactions into microtasks, in
    registration order; a settled promise stays as it is. *)
Definition settle (p : pid) (o : Outcome) (w : World) : World :=
  match promises w !! p with
  | Some (Pending ks) =>
      set_microtasks (microtasks w ++ map (λ k, (k, o)) ks)
        (set_promises (<[p := Settled o]> (promises w)) w)
  | _ => w
  end.

(** A call on the remote API returns a new pending promise. *)
Definition api_call (c : pid → ApiCall) (w : World) : pid * World :=
  let (p, w1) := new_promise w in
  (p, set_api_log (api_log w1 ++ [c p]) w1).

(** ** The callbacks *)

(** [this._online.includes(name) || this._online.push(name)] *)
Definition push_absent (acc : list string) (name : string) : list string :=
  if bool_decide (name ∈ acc) then acc else acc ++ [name].

(** [{ ip: '', ips: [], joins: 0 }] *)
Definition blank_info : PlayerInfo := mkInfo "" [] 0 None.

(** [info.owner = true] *)
Definition mark_owner (i : PlayerInfo) : PlayerInfo :=
  mkInfo (ip i) (ips i) (joins i) (Some true).

(** The registry is a plain object, so a name is looked up along the
    prototype chain.  The property names of [Object.prototype] are found
    there and not in the registry: for them [this._players[name]] is a
    method or the prototype itself, not a record.  The registry is a finite
    map here, which is the plain object for every other name.  No canonical
    name is among them (each has a lower-case letter), so the join handler
    and [getPlayer] never meet one; the owner's name of line 110, taken as
    the remote gives it, can be one. *)
Definition Object_prototype_keys : list string :=
  ["constructor"; "__defineGetter__"; "__defineSetter__"; "hasOwnProperty";
   "__lookupGetter__"; "__lookupSetter__"; "isPrototypeOf";
   "propertyIsEnumerable"; "toString"; "valueOf"; "__proto__";
   "toLocaleString"].

Definition prototype_key (name : string) : bool :=
  existsb (String.eqb name) Object_prototype_keys.

(** Lines 109-111: merge the overview's online names into [_online], then
    flag the record stored under the overview's owner name, as given (a
    name that is not a [prototype_key]). *)
Definition overview_loaded (overview : loc) (w : World) : World :=
  match heap w !! overview with
  | Some (OOverview own onl) =>
      let names := read_array (heap w) onl in
      let merged := foldl push_absent (read_array (heap w) (_online w)) names in
      let w1 := set_heap (write_array (_online w) merged (heap w)) w in
      let info := default blank_info (_players w1 !! own) in
      set_players (<[own := mark_owner info]> (_players w1)) w1
  | _ => w
  end.

(** Lines 128-133: four new arrays and a new object holding them. *)
Definition copy_lists (lists : loc) (w : World) : Value * World :=
  match heap w !! lists with
  | Some (OLists a m wl b) =>
      let (a', w1) := alloc (OArray (read_array (heap w) a)) w in
      let (m', w2) := alloc (OArray (read_array (heap w1) m)) w1 in
      let (wl', w3) := alloc (OArray (read_array (heap w2) wl)) w2 in
      let (b', w4) := alloc (OArray (read_array (heap w3) b)) w3 in
      let (l', w5) := alloc (OLists a' m' wl' b') w4 in
      (VRef l', w5)
  | _ => (VUndefined, w)
  end.

(** [line => ({...line})] over the entries, left to right. *)
Fixpoint copy_entries (entries : list loc) (w : World) : list loc * World :=
  match entries with
  | [] => ([], w)
  | e :: rest =>
      let (e', w1) :=
        match heap w !! e with
        | Some (OLogEntry props) => alloc (OLogEntry props) w
        | _ => (e, w)
        end in
      let (rest', w2) := copy_entries rest w1 in
      (e' :: rest', w2)
  end.

(** Line 156: [lines.slice().map(line => ({...line}))]. *)
Definition copy_logs (lines : loc) (w : World) : Value * World :=
  match heap w !! lines with
  | Some (OLogs entries) =>
      let (_, w1) := alloc (OLogs entries) w in
      let (copies, w2) := copy_entries entries w1 in
      let (l', w3) := alloc (OLogs copies) w2 in
      (VRef l', w3)
  | _ => (VUndefined, w)
  end.

(** Line 116: [{ ...overview }], a new object with the same field values;
    the [online] field is a reference and is copied as a reference. *)
Definition copy_overview (overview : loc) (w : World) : Value * World :=
  match heap w !! overview with
  | Some (OOverview own onl) =>
      let (l', w1) := alloc (OOverview own onl) w in (VRef l', w1)
  | _ => (VUndefined, w)
  end.

Definition apply_callback (f : Callback) (v : Value) (w : World) : Value * World :=
  match v with
  | VRef l =>
      match f with
      | CbOverviewLoaded => (v, overview_loaded l w)
      | CbOverviewCopy => copy_overview l w
      | CbListsLoaded => (v, set_lists l w)
      | CbListsCopy => copy_lists l w
      | CbLogsCopy => copy_logs l w
      end
  | VUndefined => (VUndefined, w)
  end.

(** ** The methods of World *)

(** Lines 108-113: the remote call, the callback chained on it, and the
    chained promise stored in the cache slot. *)
Definition fetch_overview (w : World) : pid * World :=
  let (p, w1) := api_call ApiGetOverview w in
  let (c, w2) := then_ p CbOverviewLoaded w1 in
  (c, set_cache_overview (Some c) w2).

Definition getOverview (refresh : bool) (w : World) : pid * World :=
  let (c, w1) :=
    match _cache_overview w with
    | Some c => if refresh then fetch_overview w else (c, w)
    | None => fetch_overview w
    end in
  then_ c CbOverviewCopy w1.

Definition fetch_lists (w : World) : pid * World :=
  let (p, w1) := api_call ApiGetLists w in
  let (c, w2) := then_ p CbListsLoaded w1 in
  (c, set_cache_lists (Some c) w2).

Definition getLists (refresh : bool) (w : World) : pid * World :=
  let (c, w1) :=
    match _cache_lists w with
    | Some c => if refresh then fetch_lists w else (c, w)
    | None => fetch_lists w
    end in
  then_ c CbListsCopy w1.

Definition fetch_logs (w : World) : pid * World :=
  let (p, w1) := api_call ApiGetLogs w in
  (p, set_cache_logs (Some p) w1).

Definition getLogs (refresh : bool) (w : World) : pid * World :=
  let (c, w1) :=
    match _cache_logs w with
    | Some c => if refresh then fetch_logs w else (c, w)
    | None => fetch_logs w
    end in
  then_ c CbLogsCopy w1.

(** [setLists] up to its first [await]: the promise of the async function,
    the call of [getLists()], and the suspension on its result. *)
Definition setLists (lists : PartialLists) (w : World) : pid * World :=
  let (r, w1) := new_promise w in
  let (q, w2) := getLists false w1 in
  (r, subscribe q (KSetLists1 lists r) w2).

(** [{...currentLists, ...lists}]: a list given in the update wins. *)
Definition merge_lists (current : Obj) (lists : PartialLists) : Obj :=
  match current with
  | OLists a m wl b =>
      OLists (default a (p_adminlist lists)) (default m (p_modlist lists))
             (default wl (p_whitelist lists)) (default b (p_blacklist lists))
  | o => o
  end.

Definition send (message : string) (w : World) : pid * World :=
  api_call (ApiSend message) w.

Definition start (w : World) : pid * World := api_call ApiStart w.
Definition stop (w : World) : pid * World := api_call ApiStop w.
Definition restart (w : World) : pid * World := api_call ApiRestart w.

Definition getPlayer (name : string) (w : World) : Player :=
  let name := toLocaleUpperCase name in
  mkPlayer name (default blank_info (_players w !! name)) (_lists w).

Definition dquote : string := String "034" EmptyString.

Definition addCommand (command : string) (listener : Handler) (w : World) : Completion :=
  let command := toLocaleUpperCase command in
  match _commands w !! command with
  | Some _ =>
      Throw ("The command " +:+ dquote +:+ command +:+ dquote +:+ " has already been added.") w
  | None => Normal (set_commands (<[command := listener]> (_commands w)) w)
  end.

Definition removeCommand (command : string) (w : World) : World :=
  set_commands (delete (toLocaleUpperCase command) (_commands w)) w.

(** The [online] getter: [[...this._online]]. *)
Definition online (w : World) : loc * World :=
  alloc (OArray (read_array (heap w) (_online w))) w.

(** ** The three subscriptions on the chat watcher (lines 37-53) *)

Definition publish (e : Event) (w : World) : World :=
  set_published (published w ++ [e]) w.

Definition invoke (h : Handler) (player : Player) (args : string) (w : World) : World :=
  set_invoked (invoked w ++ [mkInvocation h player args]) w.

(** Lines 40-42: [joins++], [ip = ip], and the address pushed when the
    history does not include it.  The count is exact from a [safe_count]. *)
Definition record_join (address : string) (player : PlayerInfo) : PlayerInfo :=
  mkInfo address (push_absent (ips player) address) (joins player + 1) (owner player).

Definition onJoin_handler (name address : string) (w : World) : World :=
  let name := toLocaleUpperCase name in
  let player := default (mkInfo address [address] 0 None) (_players w !! name) in
  let w1 := set_players (<[name := record_join address player]> (_players w)) w in
  publish (EvJoin (getPlayer name w1)) w1.

Definition onLeave_handler (name : string) (w : World) : World :=
  publish (EvLeave (getPlayer name w)) w.

(** Destructuring a failed match throws a [TypeError]. *)
Definition onMessage_handler (name message : string) (w : World) : Completion :=
  let w1 := publish (EvMessage (getPlayer name w) message) w in
  if test_command message then
    match match_command message with
    | Some (command, args) =>
        match _commands w1 !! toLocaleUpperCase command with
        | Some handler => Normal (invoke handler (getPlayer name w1) args w1)
        | None => Normal w1
        end
    | None => Throw "TypeError" w1
    end
  else Normal w1.

(** ** Running microtasks *)

Definition run_task (t : Cont * Outcome) (w : World) : World :=
  match t with
  | (KThen f q, Fulfilled v) =>
      let (v', w1) := apply_callback f v w in settle q (Fulfilled v') w1
  | (KThen _ q, Rejected e) => settle q (Rejected e) w
  | (KSetLists1 lists r, Fulfilled (VRef current)) =>
      match heap w !! current with
      | Some o =>
          let (merged, w1) := alloc (merge_lists o lists) w in
          let (p, w2) := api_call (ApiSetLists merged) w1 in
          subscribe p (KSetLists2 r) w2
      | None => w
      end
  | (KSetLists1 _ _, Fulfilled VUndefined) => w
  | (KSetLists2 r, Fulfilled _) =>
      let (q, w1) := getLists true w in
      subscribe q (KSetLists3 r) w1
  | (KSetLists3 r, Fulfilled _) => settle r (Fulfilled VUndefined) w
  | (KSetLists1 _ r, Rejected e)
  | (KSetLists2 r, Rejected e)
  | (KSetLists3 r, Rejected e) => settle r (Rejected e) w
  end.

(** The microtask queue is run first in, first out; [fuel] bounds the number
    of tasks run. *)
Fixpoint drain (fuel : nat) (w : World) : World :=
  match fuel with
  | 0 => w
  | S fuel' =>
      match microtasks w with
      | [] => w
      | t :: rest => drain fuel' (run_task t (set_microtasks rest w))
      end
  end.

(** ** The environment *)

(** The remote API settles one of its promises.  A successful answer is a
    new object in the heap. *)
Definition resolve_overview (p : pid) (own : string) (names : list string)
    (w : World) : World :=
  let (onl, w1) := alloc (OArray names) w in
  let (l, w2) := alloc (OOverview own onl) w1 in
  settle p (Fulfilled (VRef l)) w2.

Definition resolve_lists (p : pid) (a m wl b : list string) (w : World) : World :=
  let (a', w1) := alloc (OArray a) w in
  let (m', w2) := alloc (OArray m) w1 in
  let (wl', w3) := alloc (OArray wl) w2 in
  let (b', w4) := alloc (OArray b) w3 in
  let (l, w5) := alloc (OLists a' m' wl' b') w4 in
  settle p (Fulfilled (VRef l)) w5.

Definition resolve_void (p : pid) (w : World) : World :=
  settle p (Fulfilled VUndefined) w.

Definition reject (p : pid) (e : Err) (w : World) : World :=
  settle p (Rejected e) w.

(** ** Construction (lines 27-57) *)

(** The field initialisers allocate the [_online] array and the initial
    [_lists] object with its four empty arrays; the constructor body starts
    the two background loads. *)
Definition initial (stored : gmap string PlayerInfo) : World :=
  mkWorld [OArray []; OArray []; OArray []; OArray []; OArray []; OLists 1 2 3 4]
          [] [] [] [] [] None None None 0 5 stored ∅.

Definition construct (stored : gmap string PlayerInfo) : World :=
  let (_, w1) := getOverview false (initial stored) in
  let (_, w2) := getLists false w1 in
  w2.

(** ** Reading results *)

(** The settled state of a promise, if any. *)
Definition outcome_of (p : pid) (w : World) : option Outcome :=
  match promises w !! p with
  | Some (Settled o) => Some o
  | _ => None
  end.

(** The overview behind a reference, read through to its online names. *)
Definition read_overview (h : list Obj) (l : loc) : option (string * list string) :=
  match h !! l with
  | Some (OOverview own onl) => Some (own, read_array h onl)
  | _ => None
  end.

(** The lists behind a reference, read through to the names. *)
Definition read_lists (h : list Obj) (l : loc)
  : option (list string * list string * list string * list string) :=
  match h !! l with
  | Some (OLists a m wl b) =>
      Some (read_array h a, read_array h m, read_array h wl, read_array h b)
  | _ => None
  end.

(** The number of overview fetches sent to the remote API. *)
Definition is_overview_fetch (c : ApiCall) : bool :=
  match c with ApiGetOverview _ => true | _ => false end.

Definition overview_fetches (w : World) : nat :=
  length (filter (λ c, is_overview_fetch c = true) (api_log w)).

(** ** Runs of events and calls *)

(** Join events handled one after the other, in arrival order. *)
Definition joins_of (js : list (string * string)) (w : World) : World :=
  foldl (λ w' j, onJoin_handler j.1 j.2 w') w js.

(** The record of a player after further joins, once it exists. *)
Definition rejoin (r : PlayerInfo) (addresses : list string) : PlayerInfo :=
  foldl (λ r' a, record_join a r') r addresses.

(** [n] plain reads [getOverview()] one after the other, with the promises
    they return. *)
Fixpoint getOverview_times (n : nat) (w : World) : list pid * World :=
  match n with
  | 0 => ([], w)
  | S n' =>
      let (q, w1) := getOverview false w in
      let (qs, w2) := getOverview_times n' w1 in
      (q :: qs, w2)
  end.

(** The state a call leaves behind, whether it returned or threw. *)
Definition state_of (c : Completion) : World :=
  match c with Normal w => w | Throw _ w => w end.

(** A token is written without a space. *)
Fixpoint has_space (s : string) : bool :=
  match s with
  | EmptyString => false
  | String c s' => (c =? " ")%char || has_space s'
  end.

(** The chat line that calls a command: slash, token, one space, arguments. *)
Definition command_line (token args : string) : string :=
  "/" +:+ token +:+ " " +:+ args.

(** ** What a caller can do with a result *)

(** A caller changes an array it holds a reference to. *)
Definition caller_writes (l : loc) (items : list string) (w : World) : World :=
  set_heap (write_array l items (heap w)) w.

(** [result.online.push(name)] on an overview a caller was given. *)
Definition caller_pushes_online (result : loc) (name : string) (w : World) : World :=
  match heap w !! result with
  | Some (OOverview _ onl) => caller_writes onl (read_array (heap w) onl ++ [name]) w
  | _ => w
  end.

(** The reference a fulfilled promise carries. *)
Definition result_of (p : pid) (w : World) : option loc :=
  match outcome_of p w with
  | Some (Fulfilled (VRef l)) => Some l
  | _ => None
  end.

(** ** Scenarios *)

(** A World whose first overview fetch (promise 0, started by the
    constructor) has succeeded and whose reactions have run. *)
Definition after_overview (own : string) (names : list string) : World :=
  drain 2 (resolve_overview 0 own names (construct ∅)).

(** The overview a settled read hands to its caller, read through. *)
Definition overview_read (p : pid) (w : World) : option (string * list string) :=
  result_of p w ≫= read_overview (heap w).

(** Two reads of a loaded overview; between them the first caller pushes a
    name onto the [online] array of what it was given. *)
Module SharedOnline.
Definition read1 : pid * World := getOverview false (after_overview "OWNER" ["ALICE"]).
Definition seen1 : World := drain 1 read1.2.
Definition tampered : World :=
  match result_of read1.1 seen1 with
  | Some r => caller_pushes_online r "MALLORY" seen1
  | None => seen1
  end.
Definition read2 : pid * World := getOverview false tampered.
Definition seen2 : World := drain 1 read2.2.
End SharedOnline.

(** A read with [refresh = true] while the constructor's fetch is pending. *)
Module RefreshWhilePending.
Definition first : pid * World := getOverview false (construct ∅).
Definition second : pid * World := getOverview true first.2.
End RefreshWhilePending.

(** A refresh that fails after an earlier fetch succeeded, then a plain
    read. *)
Module FailedRefresh.
Definition loaded : World := after_overview "OWNER" ["ALICE"].
Definition before : pid * World := getOverview false loaded.
Definition refreshing : pid * World := getOverview true (drain 1 before.2).
End FailedRefresh.

(** ** The states of the overview slot *)

(** The state [k] reads after a fetch was started from [w] and before the
    remote answers: one more call in the log, the fetch promise with the
    loading callback waiting on it, the slot's promise with the [k] copying
    callbacks waiting on it, and the [k] promises handed to the callers. *)
Definition pending_overview (w : World) (k : nat) : World :=
  let np := length (promises w) in
  set_cache_overview (Some (np + 1))
    (set_api_log (api_log w ++ [ApiGetOverview np])
       (set_promises
          (promises w
           ++ [Pending [KThen CbOverviewLoaded (np + 1)];
               Pending (map (KThen CbOverviewCopy) (seq (np + 2) k))]
           ++ replicate k (Pending [])) w)).

(** The same state after the remote rejected the fetch and the microtasks
    have run: every promise of the chain is rejected. *)
Definition failed_overview (w : World) (k : nat) (e : string) : World :=
  set_microtasks []
    (set_promises (promises w ++ replicate (k + 2) (Settled (Rejected e)))
       (pending_overview w k)).

(** The same state after the remote answered with an overview and the
    microtasks have run: the overview object and its online array are in the
    heap, followed by one copy per caller; the online names are merged and
    the owner's record is flagged. *)
Definition loaded_overview (w : World) (k : nat) (own : string)
    (names : list string) : World :=
  let np := length (promises w) in
  let nh := length (heap w) in
  let merged := foldl push_absent (read_array (heap w) (_online w)) names in
  set_microtasks []
    (set_players
       (<[own := mark_owner (default blank_info (_players w !! own))]> (_players w))
       (set_heap
          (write_array (_online w) merged (heap w)
           ++ [OArray names; OOverview own nh] ++ replicate k (OOverview own nh))
          (set_promises
             (promises w
              ++ [Settled (Fulfilled (VRef (nh + 1))); Settled (Fulfilled (VRef (nh + 1)))]
              ++ map (λ t, Settled (Fulfilled (VRef (nh + 2 + t)))) (seq 0 k))
             (pending_overview w k)))).

(** ** The states of a [setLists] call *)

(** The lists a settled read hands to its caller, read through. *)
Definition lists_read (p : pid) (w : World)
  : option (list string * list string * list string * list string) :=
  result_of p w ≫= read_lists (heap w).

(** What [getLists] allocates for a caller: four arrays and the object that
    holds them, at consecutive addresses from [nh]. *)
Definition copied_lists (nh : nat) (A M WL B : list string) : list Obj :=
  [OArray A; OArray M; OArray WL; OArray B; OLists nh (nh + 1) (nh + 2) (nh + 3)].

(** The arrays a caller passes in exist before the call. *)
Definition partial_allocated (lists : PartialLists) (h : list Obj) : Prop :=
  ∀ l, Some l ∈ [p_adminlist lists; p_modlist lists; p_whitelist lists; p_blacklist lists] →
       l < length h.

(** A list of the merged object, by content: the caller's when given, the
    cached one otherwise. *)
Definition pick (h : list Obj) (given : option nat) (cached : list string) : list string :=
  match given with
  | Some l => read_array h l
  | None => cached
  end.

(** [setLists lists] was called in [w], whose lists slot holds [A], [M],
    [WL], [B], and has run up to its second [await]: the copy of the current
    lists and the merged object are in the heap, the merged object has been
    sent, and the call waits for the remote's answer. *)
Definition submitted (w : World) (lists : PartialLists) (A M WL B : list string) : World :=
  let np := length (promises w) in
  let nh := length (heap w) in
  set_api_log (api_log w ++ [ApiSetLists (nh + 5) (np + 2)])
    (set_heap
       (heap w ++ copied_lists nh A M WL B
        ++ [OLists (default nh (p_adminlist lists)) (default (nh + 1) (p_modlist lists))
                   (default (nh + 2) (p_whitelist lists))
                   (default (nh + 3) (p_blacklist lists))])
       (set_promises
          (promises w ++ [Pending []; Settled (Fulfilled (VRef (nh + 4)));
                          Pending [KSetLists2 np]]) w)).

(** The remote rejected the submission: the promise of [setLists] is
    rejected; nothing else moved. *)
Definition submit_failed (w : World) (lists : PartialLists) (A M WL B : list string)
    (e : string) : World :=
  set_promises
    (promises w ++ [Settled (Rejected e);
                    Settled (Fulfilled (VRef (length (heap w) + 4)));
                    Settled (Rejected e)])
    (submitted w lists A M WL B).

(** The remote accepted the submission: [getLists(true)] has sent a fetch
    and replaced the slot, and the call waits for the copy. *)
Definition refreshing (w : World) (lists : PartialLists) (A M WL B : list string)
  : World :=
  let np := length (promises w) in
  let nh := length (heap w) in
  set_cache_lists (Some (np + 4))
    (set_api_log (api_log w ++ [ApiSetLists (nh + 5) (np + 2); ApiGetLists (np + 3)])
       (set_promises
          (promises w ++ [Pending []; Settled (Fulfilled (VRef (nh + 4)));
                          Settled (Fulfilled VUndefined);
                          Pending [KThen CbListsLoaded (np + 4)];
                          Pending [KThen CbListsCopy (np + 5)];
                          Pending [KSetLists3 np]])
          (submitted w lists A M WL B))).

(** The remote answered the forced fetch with [A'], [M'], [WL'], [B']:
    the answer and its copy are in the heap, [_lists] is the answer, and the
    promise of [setLists] is fulfilled. *)
Definition refreshed (w : World) (lists : PartialLists) (A M WL B : list string)
    (A' M' WL' B' : list string) : World :=
  let nh := length (heap w) in
  set_lists (nh + 10)
    (set_heap
       (heap (submitted w lists A M WL B)
        ++ copied_lists (nh + 6) A' M' WL' B' ++ copied_lists (nh + 11) A' M' WL' B')
       (set_promises
          (promises w ++ [Settled (Fulfilled VUndefined);
                          Settled (Fulfilled (VRef (nh + 4)));
                          Settled (Fulfilled VUndefined);
                          Settled (Fulfilled (VRef (nh + 10)));
                          Settled (Fulfilled (VRef (nh + 10)));
                          Settled (Fulfilled (VRef (nh + 15)))])
          (refreshing w lists A M WL B))).

(** A World with loaded lists, and a caller's array holding a new admin
    list. *)
Module NewAdmins.
Definition loaded : World :=
  drain 2 (resolve_lists 3 ["ADMIN"] ["MOD"] ["WHITE"] ["BLACK"] (construct ∅)).
Definition world : World := (alloc (OArray ["ALICE"; "BOB"]) loaded).2.
Definition update : PartialLists := mkPartial (Some 16) None None None.
End NewAdmins.

(** ** Everything that can happen to a World *)

(** The remote answers a logs fetch: one new object per entry, then the
    array that holds them. *)
Fixpoint alloc_entries (entries : list (list (string * string))) (w : World)
  : list loc * World :=
  match entries with
  | [] => ([], w)
  | props :: rest =>
      let (e, w1) := alloc (OLogEntry props) w in
      let (es, w2) := alloc_entries rest w1 in
      (e :: es, w2)
  end.

Definition resolve_logs (p : pid) (entries : list (list (string * string)))
    (w : World) : World :=
  let (es, w1) := alloc_entries entries w in
  let (l, w2) := alloc (OLogs es) w1 in
  settle p (Fulfilled (VRef l)) w2.

(** The log entries behind a reference, read through to their properties. *)
Definition read_entry (h : list Obj) (l : loc) : option (list (string * string)) :=
  match h !! l with
  | Some (OLogEntry props) => Some props
  | _ => None
  end.

Definition read_logs (h : list Obj) (l : loc) : option (list (option (list (string * string)))) :=
  match h !! l with
  | Some (OLogs entries) => Some (map (read_entry h) entries)
  | _ => None
  end.

(** A call made on World by the chat watcher or by a client; what it returns
    is dropped, the state it leaves is kept. *)
Inductive Call :=
| CJoin (name address : string)
| CLeave (name : string)
| CMessage (name message : string)
| CGetOverview (refresh : bool)
| CGetLists (refresh : bool)
| CGetLogs (refresh : bool)
| CSetLists (lists : PartialLists)
| CSend (message : string)
| CStart
| CStop
| CRestart
| CAddCommand (command : string) (listener : Handler)
| CRemoveCommand (command : string)
| COnline.

Definition call (c : Call) (w : World) : World :=
  match c with
  | CJoin name address => onJoin_handler name address w
  | CLeave name => onLeave_handler name w
  | CMessage name message => state_of (onMessage_handler name message w)
  | CGetOverview refresh => (getOverview refresh w).2
  | CGetLists refresh => (getLists refresh w).2
  | CGetLogs refresh => (getLogs refresh w).2
  | CSetLists lists => (setLists lists w).2
  | CSend message => (send message w).2
  | CStart => (start w).2
  | CStop => (stop w).2
  | CRestart => (restart w).2
  | CAddCommand command listener => state_of (addCommand command listener w)
  | CRemoveCommand command => removeCommand command w
  | COnline => (online w).2
  end.

(** The remote settles a promise. *)
Inductive Remote :=
| ROverview (p : pid) (own : string) (names : list string)
| RLists (p : pid) (a m wl b : list string)
| RLogs (p : pid) (entries : list (list (string * string)))
| RVoid (p : pid)
| RReject (p : pid) (e : Err).

Definition remote (r : Remote) (w : World) : World :=
  match r with
  | ROverview p own names => resolve_overview p own names w
  | RLists p a m wl b => resolve_lists p a m wl b w
  | RLogs p entries => resolve_logs p entries w
  | RVoid p => resolve_void p w
  | RReject p e => reject p e w
  end.

(** One thing happens: a call, an answer of the remote, or the next
    microtask. *)
Inductive Step :=
| SCall (c : Call)
| SRemote (r : Remote)
| STick.

Definition step (s : Step) (w : World) : World :=
  match s with
  | SCall c => call c w
  | SRemote r => remote r w
  | STick => drain 1 w
  end.

Definition run (steps : list Step) (w : World) : World :=
  foldl (λ w' s, step s w') w steps.

(** *** Orders the steps respect *)

(** A record only gains: the join count does not go down, the addresses seen
    stay at the front of the history, the owner flag stays once set. *)
Definition info_le (r r' : PlayerInfo) : Prop :=
  (joins r ≤ joins r')%Z
  ∧ ips r `prefix_of` ips r'
  ∧ (owner r = Some true → owner r' = Some true).

Definition registry_le (m m' : gmap string PlayerInfo) : Prop :=
  ∀ k r, m !! k = Some r → ∃ r', m' !! k = Some r' ∧ info_le r r'.

(** A cell either stays as it is or, when it is an array, keeps its items
    at the front. *)
Definition cell_le (o o' : Obj) : Prop :=
  match o, o' with
  | OArray items, OArray items' => items `prefix_of` items'
  | _, _ => o = o'
  end.

(** Every cell of [h] is still there in [h'], unchanged; the cell at [on] may
    have grown. *)
Definition heap_le (on : loc) (h h' : list Obj) : Prop :=
  ∀ l o, h !! l = Some o →
    ∃ o', h' !! l = Some o' ∧ (if decide (l = on) then cell_le o o' else o' = o).

(** *** Kinds of steps *)

(** The calls that touch neither the overview slot nor the command table. *)
Definition plain_call (c : Call) : bool :=
  match c with
  | CGetOverview _ | CAddCommand _ _ | CRemoveCommand _ => false
  | _ => true
  end.

(** [removeCommand] called on a spelling of the token [k]. *)
Definition removes (k : string) (s : Step) : bool :=
  match s with
  | SCall (CRemoveCommand command) => bool_decide (toLocaleUpperCase command = k)
  | _ => false
  end.

(** A call of [addCommand] or [removeCommand]. *)
Definition edits_commands (s : Step) : bool :=
  match s with
  | SCall (CAddCommand _ _) | SCall (CRemoveCommand _) => true
  | _ => false
  end.

(** A read of the overview that asks for a refresh. *)
Definition refreshes_overview (s : Step) : bool :=
  match s with
  | SCall (CGetOverview true) => true
  | _ => false
  end.

(** A read of the logs that asks for a refresh. *)
Definition refreshes_logs (s : Step) : bool :=
  match s with
  | SCall (CGetLogs true) => true
  | _ => false
  end.

(** A call made by the chat watcher. *)
Definition is_event (c : Call) : bool :=
  match c with
  | CJoin _ _ | CLeave _ | CMessage _ _ => true
  | _ => false
  end.

(** The four methods that hand a request to the remote API, with the call
    each one makes. *)
Definition forwarded (c : Call) : option (pid → ApiCall) :=
  match c with
  | CSend message => Some (ApiSend message)
  | CStart => Some ApiStart
  | CStop => Some ApiStop
  | CRestart => Some ApiRestart
  | _ => None
  end.

(** *** Relations between the state before and the state after *)

(** Promise ids stay valid and a settled promise keeps its outcome. *)
Definition settled_le (ps ps' : list Cell) : Prop :=
  (length ps ≤ length ps')%nat
  ∧ ∀ p o, ps !! p = Some (Settled o) → ps' !! p = Some (Settled o).

(** What every step of World respects, from the state before to the state
    after. *)
Record evolves (w w' : World) : Prop := mkEvolves {
  ev_online : _online w' = _online w;
  ev_heap : heap_le (_online w) (heap w) (heap w');
  ev_players : registry_le (_players w) (_players w');
  ev_promises : settled_le (promises w) (promises w')
}.

(** [_online] refers to an array without duplicates. *)
Definition online_distinct (w : World) : Prop :=
  ∃ items, heap w !! _online w = Some (OArray items) ∧ NoDup items.

(** The listener under [k] is still [h]. *)
Definition command_kept (k : string) (h : Handler) (w w' : World) : Prop :=
  _commands w !! k = Some h → _commands w' !! k = Some h.

(** The command table is the same. *)
Definition commands_same (w w' : World) : Prop := _commands w' = _commands w.

(** A filled slot holds the same promise. *)
Definition overview_slot_kept (w w' : World) : Prop :=
  ∀ c, _cache_overview w = Some c → _cache_overview w' = Some c.

(** The same for the logs slot. *)
Definition logs_slot_kept (w w' : World) : Prop :=
  ∀ c, _cache_logs w = Some c → _cache_logs w' = Some c.

(** *** Joins and logs *)

(** What a list of joins does to the record under [k], as a function of the
    record alone: the joins under other names are skipped. *)
Definition join_record (k : string) (o : option PlayerInfo) (j : string * string)
  : option PlayerInfo :=
  if decide (toLocaleUpperCase j.1 = k)
  then Some (record_join j.2 (default (mkInfo j.2 [j.2] 0 None) o))
  else o.

(** The log entries a settled read hands to its caller, read through. *)
Definition logs_read (p : pid) (w : World)
  : option (list (option (list (string * string)))) :=
  result_of p w ≫= read_logs (heap w).

(** The cells at [es] are log entries with the properties [entries]. *)
Definition entries_at (h : list Obj) (es : list loc)
    (entries : list (list (string * string))) : Prop :=
  Forall2 (λ e props, h !! e = Some (OLogEntry props)) es entries.

(** What [getLogs] allocates for a caller: the array [slice] returns, one
    new object per entry, and the array [map] returns. *)
Definition copied_logs (nh : nat) (es : list loc)
    (entries : list (list (string * string))) : list Obj :=
  [OLogs es] ++ map OLogEntry entries ++ [OLogs (seq (nh + 1) (length entries))].

(** *** The states of the lists slot *)

(** [n] plain reads [getLists()] one after the other, with the promises
    they return. *)
Fixpoint getLists_times (n : nat) (w : World) : list pid * World :=
  match n with
  | 0 => ([], w)
  | S n' =>
      let (q, w1) := getLists false w in
      let (qs, w2) := getLists_times n' w1 in
      (q :: qs, w2)
  end.

(** The state [k] reads after a fetch of the lists was started from [w] and
    before the remote answers. *)
Definition pending_lists (w : World) (k : nat) : World :=
  let np := length (promises w) in
  set_cache_lists (Some (np + 1))
    (set_api_log (api_log w ++ [ApiGetLists np])
       (set_promises
          (promises w
           ++ [Pending [KThen CbListsLoaded (np + 1)];
               Pending (map (KThen CbListsCopy) (seq (np + 2) k))]
           ++ replicate k (Pending [])) w)).

(** [k] copies of the lists, one after the other from address [nh]. *)
Fixpoint copies_of_lists (nh k : nat) (A M WL B : list string) : list Obj :=
  match k with
  | 0 => []
  | S k' => copied_lists nh A M WL B ++ copies_of_lists (nh + 5) k' A M WL B
  end.

(** The same state after the remote answered with the lists and the
    microtasks have run: the answer is in the heap, followed by one copy per
    caller, and [_lists] is the answer. *)
Definition loaded_lists (w : World) (k : nat) (A M WL B : list string) : World :=
  let nh := length (heap w) in
  set_microtasks []
    (set_lists (nh + 4)
       (set_heap
          (heap w ++ copied_lists nh A M WL B ++ copies_of_lists (nh + 5) k A M WL B)
          (set_promises
             (promises w
              ++ [Settled (Fulfilled (VRef (nh + 4))); Settled (Fulfilled (VRef (nh + 4)))]
              ++ map (λ t, Settled (Fulfilled (VRef (nh + 5 + 5 * t + 4)))) (seq 0 k))
             (pending_lists w k)))).

(** *** A fetch under way *)

(** A fetch is under way: the promise [p] of the remote API is pending with
    the loading callback waiting on it; the promise [c] chained on it is
    pending with the copying callbacks of the reads made so far waiting on
    it; the promises [qs] those reads returned are pending, nothing waiting
    on them. *)
Definition fetch_outstanding (loaded copy : Callback) (p c : pid) (qs : list pid)
    (w : World) : Prop :=
  promises w !! p = Some (Pending [KThen loaded c])
  ∧ promises w !! c = Some (Pending (map (KThen copy) qs))
  ∧ Forall (λ q, promises w !! q = Some (Pending [])) qs
  ∧ NoDup qs.

(** The promise table after the promises [qs] were rejected with [e]. *)
Definition reject_each (e : Err) (qs : list pid) (ps : list Cell) : list Cell :=
  foldl (λ ps' q, <[q := Settled (Rejected e)]> ps') ps qs.

(** The promise table after the promises [qs] were fulfilled one after the
    other, the first with the cell [l], the next with the cell [d] further
    on, and so on. *)
Fixpoint fulfil_each (l d : nat) (qs : list pid) (ps : list Cell) : list Cell :=
  match qs with
  | [] => ps
  | q :: qs' => fulfil_each (l + d) d qs' (<[q := Settled (Fulfilled (VRef l))]> ps)
  end.

(** *** What reaches into the chain of a fetch *)

(** The promise a reaction settles once it has run. *)
Definition cont_target (k : Cont) : pid :=
  match k with
  | KThen _ q => q
  | KSetLists1 _ r | KSetLists2 r | KSetLists3 r => r
  end.

(** The promise a call on the remote API returned. *)
Definition api_promise (c : ApiCall) : pid :=
  match c with
  | ApiGetOverview p | ApiGetLists p | ApiGetLogs p | ApiSetLists _ p
  | ApiSend _ p | ApiStart p | ApiStop p | ApiRestart p => p
  end.

(** The promise an answer of the remote settles. *)
Definition remote_target (r : Remote) : pid :=
  match r with
  | ROverview p _ _ | RLists p _ _ _ _ | RLogs p _ | RVoid p | RReject p _ => p
  end.

(** The promises [chain] are reached from nowhere else: no reaction
    registered on another promise and no queued microtask settles one of
    them, the lists slot and the logs slot hold none of them, and the only
    one of them the remote API was given is [p].  Promise ids in use are
    allocated. *)
Record guarded (chain : list pid) (p : pid) (w : World) : Prop := mkGuarded {
  g_reactions : ∀ x ks k, x ∉ chain → promises w !! x = Some (Pending ks) → k ∈ ks →
                  cont_target k ∉ chain;
  g_allocated : ∀ x ks k, promises w !! x = Some (Pending ks) → k ∈ ks →
                  cont_target k < length (promises w);
  g_tasks : ∀ t, t ∈ microtasks w →
              (cont_target t.1 ∉ chain) ∧ cont_target t.1 < length (promises w);
  g_lists : ∀ s, _cache_lists w = Some s → (s ∉ chain) ∧ s < length (promises w);
  g_logs : ∀ s, _cache_logs w = Some s → (s ∉ chain) ∧ s < length (promises w);
  g_chain : ∀ x, x ∈ chain → x < length (promises w);
  g_api : ∀ call, call ∈ api_log w → api_promise call ∈ chain → api_promise call = p;
  g_api_allocated : ∀ call, call ∈ api_log w → api_promise call < length (promises w)
}.

(** From [w] to [w'] the chain is left alone: its cells are the same, the
    overview slot is the same, no overview fetch was sent, and the chain is
    still guarded. *)
Definition undisturbed (chain : list pid) (p : pid) (w w' : World) : Prop :=
  guarded chain p w'
  ∧ (∀ x, x ∈ chain → promises w' !! x = promises w !! x)
  ∧ _cache_overview w' = _cache_overview w
  ∧ overview_fetches w' = overview_fetches w
  ∧ (length (promises w) ≤ length (promises w'))%nat.

(** A computation that returns a promise: the chain is left alone and the
    promise returned is not of the chain. *)
Definition und_fresh (chain : list pid) (p : pid) (w : World) (r : pid * World) : Prop :=
  undisturbed chain p w r.2 ∧ (r.1 ∉ chain) ∧ r.1 < length (promises r.2).

(** The remote answers a promise it has handed out, other than the fetch
    [p]; a caller makes any call but a read of the overview. *)
Definition beside_fetch (p : pid) (w : World) (s : Step) : Prop :=
  match s with
  | SCall (CGetOverview _) => False
  | SCall _ => True
  | SRemote r =>
      remote_target r ≠ p ∧ ∃ call, call ∈ api_log w ∧ api_promise call = remote_target r
  | STick => True
  end.

(** The overview slot holds the promise [c] chained on the fetch [p], the
    reads [qs] wait on it, and nothing else reaches into this chain. *)
Definition fetch_guarded (p c : pid) (qs : list pid) (w : World) : Prop :=
  _cache_overview w = Some c
  ∧ fetch_outstanding CbOverviewLoaded CbOverviewCopy p c qs w
  ∧ guarded (p :: c :: qs) p w.

(** What can happen while the fetch [p] waits for its answer: everything but
    that answer and a read of the overview that asks for a refresh. *)
Definition while_pending (p : pid) (w : World) (s : Step) : Prop :=
  match s with
  | SCall (CGetOverview refresh) => refresh = false
  | _ => beside_fetch p w s
  end.

Fixpoint runs_while_pending (p : pid) (steps : list Step) (w : World) : Prop :=
  match steps with
  | [] => True
  | s :: rest => while_pending p w s ∧ runs_while_pending p rest (step s w)
  end.

(** The promises the plain reads of the overview return in a run. *)
Fixpoint overview_readers (steps : list Step) (w : World) : list pid :=
  match steps with
  | [] => []
  | s :: rest =>
      match s with
      | SCall (CGetOverview false) => length (promises w) :: overview_readers rest (step s w)
      | _ => overview_readers rest (step s w)
      end
  end.

(** Promise ids in use are allocated: the guard of an empty chain. *)
Definition allocated (w : World) : Prop := guarded [] 0 w.

(** What goes on while the constructor's overview fetch waits for its
    answer: a join, plain reads of the overview, the lists answered and
    served, a call of [setLists] up to its submission, a chat line. *)
Module Meanwhile.
Definition steps : list Step :=
  [SCall (CJoin "alice" "1.1.1.1"); SCall (CGetOverview false);
   SRemote (RLists 3 ["ADMIN"] [] [] []); STick; STick;
   SCall (CSetLists (mkPartial None None None None)); STick; STick;
   SCall (CGetOverview false); SCall (CMessage "alice" "/help")].
End Meanwhile.

(** *** More scenarios *)

(** A busy session: joins, a leave, reads, the overview answered, ticks. *)
Module Session.
Definition start : World := onJoin_handler "alice" "1.1.1.1" (construct ∅).
Definition steps : list Step :=
  [SCall (CJoin "ALICE" "2.2.2.2"); SCall (CLeave "alice");
   SCall (CGetOverview false); SRemote (ROverview 0 "ALICE" ["ALICE"; "BOB"]);
   STick; STick; STick; SCall COnline;
   SCall (CSetLists (mkPartial None None None None));
   SRemote (RLists 3 ["ALICE"] [] [] []); STick; STick; STick;
   SCall (CMessage "alice" "/help me")].
End Session.

(** A World with a listener for KICK, and what happens next: other commands
    come and go, a second registration of the token is refused. *)
Module Kick.
Definition start : World := state_of (addCommand "kick" 7 (construct ∅)).
Definition steps : list Step :=
  [SCall (CAddCommand "ban" 8); SCall (CAddCommand "KICK" 9);
   SCall (CRemoveCommand "Ban"); SCall (CJoin "alice" "1.1.1.1");
   SRemote (RReject 0 "offline"); STick; STick; SCall (CGetLists true)].
End Kick.

(** A World whose overview is loaded, and a session without a refresh. *)
Module Loaded.
Definition start : World := after_overview "OWNER" ["ALICE"].
Definition steps : list Step :=
  [SCall (CJoin "bob" "3.3.3.3"); SCall (CGetOverview false); STick;
   SCall (CGetLists true); SRemote (RReject 6 "offline"); STick; STick;
   SCall (CSend "hello"); SCall (CAddCommand "help" 1)].
End Loaded.

(** A World whose online list holds ALICE, and an overview of the remote,
    not loaded yet, that names BOB twice and ALICE once. *)
Module Merge.
Definition world : World :=
  resolve_overview 0 "OWNER" ["BOB"; "ALICE"; "BOB"] (online Loaded.start).2.
End Merge.

(** A World still waiting for its first overview and its lists: since the
    construction a player has joined, and callers have read the overview
    twice and the lists once. *)
Module Waiting.
Definition world : World :=
  run [SCall (CJoin "alice" "1.1.1.1"); SCall (CGetOverview false);
       SCall (CGetLists false); SCall (CGetOverview false)] (construct ∅).
End Waiting.

(** A World that is still loading its lists, and a caller's array holding a
    new admin list. *)
Module Loading.
Definition world : World := (alloc (OArray ["ALICE"]) (construct ∅)).2.
Definition update : PartialLists := mkPartial (Some 6) None None None.
End Loading.

(** A World that has loaded two log entries and served them once. *)
Module Logged.
Definition entries : list (list (string * string)) :=
  [[("message", "hi")]; [("message", "bye"); ("raw", "x")]].
Definition world : World :=
  drain 1 (resolve_logs 6 entries (getLogs false (construct ∅)).2).
End Logged.

(** * Canonicalisation *)

Lemma upper_char_idem (c : ascii) : upper_char (upper_char c) = upper_char c.
Proof. destruct c as [[] [] [] [] [] [] [] []]; reflexivity. Qed.

Lemma toLocaleUpperCase_idem (s : string) :
  toLocaleUpperCase (toLocaleUpperCase s) = toLocaleUpperCase s.
Proof.
  induction s as [|c s IH]; simpl; [reflexivity|].
  rewrite upper_char_idem, IH. reflexivity.
Qed.

Example toLocaleUpperCase_samples :
  toLocaleUpperCase "Steve" = "STEVE"
  ∧ toLocaleUpperCase "l33t_Player" = "L33T_PLAYER"
  ∧ toLocaleUpperCase "__proto__" = "__PROTO__".
Proof. repeat split. Qed.

(** A canonical name is never a property name of [Object.prototype]: the
    registry keys written by the join handler and read by [getPlayer] are
    own properties of the registry. *)
Lemma canonical_not_prototype_key (name : string) :
  prototype_key (toLocaleUpperCase name) = false.
Proof.
  destruct (prototype_key (toLocaleUpperCase name)) eqn:E; [|reflexivity].
  unfold prototype_key in E. apply existsb_exists in E as (k & Hk & Heq).
  apply String.eqb_eq in Heq. pose proof (toLocaleUpperCase_idem name) as Hi.
  rewrite Heq in Hi. cbn [Object_prototype_keys In] in Hk.
  repeat (destruct Hk as [<- | Hk]; [vm_compute in Hi; discriminate|]).
  contradiction.
Qed.

Lemma lower_variant_upper (c d : ascii) :
  is_lower c = true → nat_of_ascii d + 32 = nat_of_ascii c → upper_char c = d.
Proof.
  intros Hl Hn. unfold upper_char. rewrite Hl.
  replace (nat_of_ascii c - 32) with (nat_of_ascii d) by lia.
  apply ascii_nat_embedding.
Qed.

Lemma same_letter_upper (c d : ascii) :
  same_letter c d → upper_char c = upper_char d.
Proof.
  intros [-> | [[Hl Hn] | [Hl Hn]]]; [reflexivity | |].
  - rewrite <- (lower_variant_upper c d Hl Hn). symmetry. apply upper_char_idem.
  - rewrite <- (lower_variant_upper d c Hl Hn). apply upper_char_idem.
Qed.

Lemma eq_nocase_upper (a b : string) :
  eq_nocase a b → toLocaleUpperCase a = toLocaleUpperCase b.
Proof.
  induction 1 as [|c d s t Hcd _ IH]; simpl; [reflexivity|].
  rewrite (same_letter_upper c d Hcd), IH. reflexivity.
Qed.

Lemma eq_nocase_refl (a : string) : eq_nocase a a.
Proof. induction a; constructor; [left; reflexivity | assumption]. Qed.

Lemma same_letter_sym (c d : ascii) : same_letter c d → same_letter d c.
Proof. unfold same_letter. intros [-> | [H | H]]; auto. Qed.

Lemma eq_nocase_sym (a b : string) : eq_nocase a b → eq_nocase b a.
Proof. induction 1; constructor; auto using same_letter_sym. Qed.

Lemma same_letter_upper_char (c : ascii) : same_letter c (upper_char c).
Proof.
  unfold same_letter, upper_char. destruct (is_lower c) eqn:Hl; [|left; reflexivity].
  right; left. split; [reflexivity|].
  revert Hl. destruct c as [[] [] [] [] [] [] [] []]; vm_compute; congruence.
Qed.

Lemma eq_nocase_toLocaleUpperCase (a : string) : eq_nocase a (toLocaleUpperCase a).
Proof. induction a; simpl; constructor; auto using same_letter_upper_char. Qed.







(** * The player registry *)

Lemma elem_of_push_absent (acc : list string) (x y : string) :
  y ∈ push_absent acc x ↔ y ∈ acc ∨ y = x.
Proof.
  unfold push_absent. case_bool_decide as Hx.
  - split; [auto|]. intros [H | ->]; assumption.
  - rewrite elem_of_app, list_elem_of_singleton. reflexivity.
Qed.

Lemma NoDup_push_absent (acc : list string) (x : string) :
  NoDup acc → NoDup (push_absent acc x).
Proof.
  intros Hnd. unfold push_absent. case_bool_decide as Hx; [assumption|].
  apply NoDup_app. split; [assumption|]. split.
  - intros y Hy Hy'. apply list_elem_of_singleton in Hy'. subst. contradiction.
  - apply NoDup_singleton.
Qed.

Lemma elem_of_foldl_push_absent (xs acc : list string) (y : string) :
  y ∈ foldl push_absent acc xs ↔ y ∈ acc ∨ y ∈ xs.
Proof.
  revert acc. induction xs as [|x xs IH]; intros acc; simpl.
  - rewrite elem_of_nil. tauto.
  - rewrite IH, elem_of_push_absent, elem_of_cons. tauto.
Qed.

Lemma NoDup_foldl_push_absent (xs acc : list string) :
  NoDup acc → NoDup (foldl push_absent acc xs).
Proof.
  revert acc. induction xs as [|x xs IH]; intros acc Hnd; simpl; [assumption|].
  apply IH, NoDup_push_absent, Hnd.
Qed.

(** An overview that names nobody new leaves the online list as it is. *)
Lemma foldl_push_absent_id (xs acc : list string) :
  (∀ x, x ∈ xs → x ∈ acc) → foldl push_absent acc xs = acc.
Proof.
  revert acc. induction xs as [|x xs IH]; intros acc Hsub; simpl; [reflexivity|].
  assert (push_absent acc x = acc) as ->.
  { unfold push_absent. rewrite bool_decide_eq_true_2; [reflexivity|].
    apply Hsub. left. }
  apply IH. intros y Hy. apply Hsub. right. assumption.
Qed.

Lemma rejoin_joins (addresses : list string) (r : PlayerInfo) :
  joins (rejoin r addresses) = (joins r + Z.of_nat (length addresses))%Z.
Proof.
  revert r. induction addresses as [|a l IH]; intros r.
  - simpl. lia.
  - unfold rejoin in *. simpl foldl. rewrite IH. simpl. lia.
Qed.

Lemma rejoin_ips (addresses : list string) (r : PlayerInfo) :
  ips (rejoin r addresses) = foldl push_absent (ips r) addresses.
Proof.
  revert r. induction addresses as [|a l IH]; intros r; [reflexivity|].
  unfold rejoin in *. simpl foldl. rewrite IH. reflexivity.
Qed.

Lemma rejoin_ip (addresses : list string) (r : PlayerInfo) :
  ip (rejoin r addresses) = default (ip r) (last addresses).
Proof.
  revert r. induction addresses as [|a l IH]; intros r; [reflexivity|].
  unfold rejoin in *. simpl foldl. rewrite IH. simpl ip.
  destruct l as [|b l]; [reflexivity|].
  change (last (a :: b :: l)) with (last (b :: l)).
  destruct (last (b :: l)) eqn:E; [reflexivity|].
  apply last_None in E. discriminate.
Qed.

Lemma rejoin_owner (addresses : list string) (r : PlayerInfo) :
  owner (rejoin r addresses) = owner r.
Proof.
  revert r. induction addresses as [|a l IH]; intros r; [reflexivity|].
  unfold rejoin in *. simpl foldl. rewrite IH. reflexivity.
Qed.

Lemma onJoin_players (name address : string) (w : World) :
  _players (onJoin_handler name address w)
  = <[toLocaleUpperCase name :=
        record_join address
          (default (mkInfo address [address] 0 None)
                   (_players w !! toLocaleUpperCase name))]> (_players w).
Proof. reflexivity. Qed.

Lemma joins_of_existing (js : list (string * string)) (w : World) (id : string)
    (r : PlayerInfo) :
  Forall (λ j, toLocaleUpperCase j.1 = id) js →
  _players w !! id = Some r →
  _players (joins_of js w) !! id = Some (rejoin r js.*2).
Proof.
  revert w r. induction js as [|[n a] js IH]; intros w r Hall Hr; [exact Hr|].
  apply Forall_cons in Hall as [Hn Hall']. simpl in Hn.
  unfold joins_of. simpl foldl.
  apply (IH (onJoin_handler n a w) (record_join a r) Hall').
  rewrite onJoin_players, Hn, Hr. apply lookup_insert_eq.
Qed.

Lemma joins_of_fresh (js : list (string * string)) (w : World) (id : string)
    (n a : string) :
  Forall (λ j, toLocaleUpperCase j.1 = id) ((n, a) :: js) →
  _players w !! id = None →
  _players (joins_of ((n, a) :: js) w) !! id
  = Some (rejoin (mkInfo a [a] 1 None) js.*2).
Proof.
  intros Hall Hnone. apply Forall_cons in Hall as [Hn Hall']. simpl in Hn.
  unfold joins_of. simpl foldl.
  apply (joins_of_existing js (onJoin_handler n a w) _ _ Hall').
  rewrite onJoin_players, Hn, Hnone. rewrite lookup_insert_eq.
  unfold record_join, push_absent. simpl.
  rewrite bool_decide_eq_true_2 by left. reflexivity.
Qed.

(** C4.  Starting from a registry without a record for an identity, after
    [N] joins under names with that canonical form the record (as stored,
    and as [getPlayer] shows it) has [joins = N], an address history without
    duplicates holding exactly the addresses passed, and the last address
    passed as [ip]. *)
Theorem join_accounting (w : World) (id : string) (js : list (string * string)) :
  toLocaleUpperCase id = id →
  Forall (λ j, toLocaleUpperCase j.1 = id) js →
  _players w !! id = None →
  let r := player_info (getPlayer id (joins_of js w)) in
  (js ≠ [] → _players (joins_of js w) !! id = Some r)
  ∧ joins r = Z.of_nat (length js)
  ∧ NoDup (ips r)
  ∧ (∀ a, a ∈ ips r ↔ a ∈ js.*2)
  ∧ ip r = default "" (last js.*2).
Proof.
  intros Hid Hall Hnone. cbv zeta. unfold getPlayer. cbn [player_info].
  rewrite Hid. destruct js as [|[n a] js].
  - simpl. unfold joins_of. simpl. rewrite Hnone. simpl.
    split; [congruence|]. split; [reflexivity|]. split; [apply NoDup_nil_2|].
    split; [|reflexivity]. intros a. rewrite elem_of_nil. tauto.
  - rewrite (joins_of_fresh js w id n a Hall Hnone).
    change (default blank_info (Some ?x)) with x.
    split; [reflexivity|].
    rewrite rejoin_joins, rejoin_ips, rejoin_ip, length_fmap.
    change (((n, a) :: js).*2) with (a :: js.*2).
    generalize (js.*2). intros addresses.
    split; [simpl joins; simpl length; lia|].
    split; [apply NoDup_foldl_push_absent, NoDup_singleton|].
    split.
    { intros x. simpl ips.
      rewrite elem_of_foldl_push_absent, list_elem_of_singleton, elem_of_cons.
      tauto. }
    simpl ip. destruct addresses as [|b l]; [reflexivity|].
    change (last (a :: b :: l)) with (last (b :: l)).
    destruct (last (b :: l)) eqn:E; [reflexivity|].
    apply last_None in E. discriminate.
Qed.

Lemma join_accounting_witness :
  let js := [("Alice", "1.1.1.1"); ("ALICE", "2.2.2.2"); ("alice", "1.1.1.1")] in
  let r := player_info (getPlayer "ALICE" (joins_of js (construct ∅))) in
  toLocaleUpperCase "ALICE" = "ALICE"
  ∧ _players (construct ∅) !! "ALICE" = None
  ∧ joins r = 3%Z ∧ ips r = ["1.1.1.1"; "2.2.2.2"] ∧ ip r = "1.1.1.1".
Proof.
  pose proof (join_accounting (construct ∅) "ALICE"
    [("Alice", "1.1.1.1"); ("ALICE", "2.2.2.2"); ("alice", "1.1.1.1")]) as H.
  cbv zeta in H.
  assert (toLocaleUpperCase "ALICE" = "ALICE") as H1 by reflexivity.
  assert (Forall (λ j : string * string, toLocaleUpperCase j.1 = "ALICE")
    [("Alice", "1.1.1.1"); ("ALICE", "2.2.2.2"); ("alice", "1.1.1.1")]) as H2
    by (repeat constructor).
  assert (_players (construct ∅) !! "ALICE" = None) as H3 by reflexivity.
  destruct (H H1 H2 H3) as (_ & Hj & _ & _ & Hip).
  repeat split; try reflexivity; assumption.
Defined.

(** * The command table *)

Example match_command_samples :
  match_command "/kick griefer" = Some ("kick", "griefer")
  ∧ match_command "/kick" = Some ("kick", EmptyString)
  ∧ match_command "/kick  a b" = Some ("kick", " a b")
  ∧ match_command "/ kick" = None
  ∧ test_command "/ kick" = false
  ∧ test_command "/kick" = true
  ∧ test_command "kick" = false.
Proof. repeat split. Qed.

Lemma span_non_space_token (tok args : string) :
  has_space tok = false →
  span_non_space (tok +:+ String " " args) = (tok, String " " args).
Proof.
  induction tok as [|c tok IH]; intros Hns; [reflexivity|].
  simpl in Hns. apply orb_false_iff in Hns as [Hc Htok].
  simpl. rewrite Hc, (IH Htok). reflexivity.
Qed.

Lemma command_line_cons (tok args : string) :
  command_line tok args = String "/" (tok +:+ String " " args).
Proof. reflexivity. Qed.

Lemma test_command_line (tok args : string) :
  tok ≠ EmptyString → has_space tok = false →
  test_command (command_line tok args) = true.
Proof.
  intros Hne Hns. destruct tok as [|c tok]; [contradiction|].
  simpl in Hns. apply orb_false_iff in Hns as [Hc _].
  unfold command_line. simpl. rewrite Hc. reflexivity.
Qed.

Lemma match_command_line (tok args : string) :
  tok ≠ EmptyString → has_space tok = false → has_line_terminator args = false →
  match_command (command_line tok args) = Some (tok, args).
Proof.
  intros Hne Hns Hlt. rewrite command_line_cons. unfold match_command.
  rewrite (span_non_space_token tok args Hns), Hlt.
  destruct tok; [contradiction | reflexivity].
Qed.

Lemma onMessage_publishes (name message : string) (w : World) :
  published (state_of (onMessage_handler name message w))
  = published w ++ [EvMessage (getPlayer name w) message].
Proof.
  unfold onMessage_handler.
  destruct (test_command message); [|reflexivity].
  destruct (match_command message) as [[command args]|]; [|reflexivity].
  simpl. destruct (_commands w !! toLocaleUpperCase command); reflexivity.
Qed.

Lemma onMessage_registered (name tok args : string) (h : Handler) (w : World) :
  tok ≠ EmptyString → has_space tok = false → has_line_terminator args = false →
  _commands w !! toLocaleUpperCase tok = Some h →
  onMessage_handler name (command_line tok args) w
  = Normal (invoke h (getPlayer name w) args
              (publish (EvMessage (getPlayer name w) (command_line tok args)) w)).
Proof.
  intros Hne Hns Hlt Hh. unfold onMessage_handler.
  rewrite (test_command_line tok args Hne Hns),
          (match_command_line tok args Hne Hns Hlt).
  simpl. rewrite Hh. reflexivity.
Qed.

Lemma addCommand_registers (command : string) (h : Handler) (w w' : World) :
  addCommand command h w = Normal w' →
  _commands w' !! toLocaleUpperCase command = Some h.
Proof.
  unfold addCommand.
  destruct (_commands w !! toLocaleUpperCase command); [discriminate|].
  intros [= <-]. simpl. apply lookup_insert_eq.
Qed.

(** The lines the pattern of line 49 matches.  A chat line made of a slash,
    a token without spaces, a space and arguments without a line terminator
    calls the handler registered under the token's canonical form (the token
    may differ in letter case from the one registered), once, with the
    arguments.  When the token extracted from a line has no handler, or when
    the line does not start with a slash and a non-space character, nothing
    is called and nothing is thrown.  In every case the message event is
    published. *)
Theorem command_dispatch (w : World) (name : string) :
  (∀ tok registered args h,
      tok ≠ EmptyString → has_space tok = false →
      has_line_terminator args = false →
      eq_nocase tok registered →
      _commands w !! toLocaleUpperCase registered = Some h →
      onMessage_handler name (command_line tok args) w
      = Normal (invoke h (getPlayer name w) args
                  (publish (EvMessage (getPlayer name w) (command_line tok args)) w)))
  ∧ (∀ message command args,
      test_command message = true →
      match_command message = Some (command, args) →
      _commands w !! toLocaleUpperCase command = None →
      onMessage_handler name message w
      = Normal (publish (EvMessage (getPlayer name w) message) w))
  ∧ (∀ message,
      test_command message = false →
      onMessage_handler name message w
      = Normal (publish (EvMessage (getPlayer name w) message) w))
  ∧ (∀ message,
      published (state_of (onMessage_handler name message w))
      = published w ++ [EvMessage (getPlayer name w) message]).
Proof.
  split; [|split; [|split]].
  - intros tok registered args h Hne Hns Hlt Hcase Hh.
    apply onMessage_registered; try assumption.
    rewrite (eq_nocase_upper tok registered Hcase). exact Hh.
  - intros message command args Ht Hm Hnone. unfold onMessage_handler.
    rewrite Ht, Hm. simpl. rewrite Hnone. reflexivity.
  - intros message Ht. unfold onMessage_handler. rewrite Ht. reflexivity.
  - intros message. apply onMessage_publishes.
Qed.

Lemma kick_KICK : eq_nocase "kick" "KICK".
Proof. repeat constructor; right; left; split; reflexivity. Defined.

Lemma command_dispatch_witness :
  let w := state_of (addCommand "KICK" 7 (construct ∅)) in
  let player := getPlayer "ALICE" w in
  _commands w !! toLocaleUpperCase "KICK" = Some 7
  ∧ invoked (state_of (onMessage_handler "ALICE" "/kick griefer" w))
    = [mkInvocation 7 player "griefer"]
  ∧ onMessage_handler "ALICE" "/unknown x" w
    = Normal (publish (EvMessage player "/unknown x") w)
  ∧ onMessage_handler "ALICE" "hello" w
    = Normal (publish (EvMessage player "hello") w).
Proof.
  intros w player.
  assert (_commands w !! toLocaleUpperCase "KICK" = Some 7) as Hreg by reflexivity.
  destruct (command_dispatch w "ALICE") as (Hrun & Hunknown & Hplain & _).
  split; [exact Hreg|]. split; [|split].
  - change "/kick griefer" with (command_line "kick" "griefer").
    rewrite (Hrun "kick" "KICK" "griefer" 7); try reflexivity.
    + discriminate.
    + exact kick_KICK.
  - apply (Hunknown "/unknown x" "unknown" "x"); reflexivity.
  - apply Hplain. reflexivity.
Defined.

(** A line that passes the test of line 48 but whose arguments hold a line
    feed is not matched by the pattern of line 49; the destructuring throws
    after the message event has been published. *)
Example onMessage_line_feed :
  onMessage_handler "ALICE" (command_line "kick" (String "010" "now")) (initial ∅)
  = Throw "TypeError"
      (publish (EvMessage (getPlayer "ALICE" (initial ∅))
                          (command_line "kick" (String "010" "now")))
               (initial ∅)).
Proof. reflexivity. Qed.

Lemma span_non_space_bare (tok : string) :
  has_space tok = false → span_non_space tok = (tok, EmptyString).
Proof.
  induction tok as [|c tok IH]; intros Hns; [reflexivity|].
  simpl in Hns. apply orb_false_iff in Hns as [Hc Htok].
  simpl. rewrite Hc, (IH Htok). reflexivity.
Qed.

(** A line that is a slash and a token, with nothing after it: the listener
    under the token is called with empty arguments. *)
Lemma onMessage_bare_command (name tok : string) (h : Handler) (w : World) :
  tok ≠ EmptyString → has_space tok = false →
  _commands w !! toLocaleUpperCase tok = Some h →
  match_command (String "/" tok) = Some (tok, EmptyString)
  ∧ onMessage_handler name (String "/" tok) w
    = Normal (invoke h (getPlayer name w) EmptyString
                (publish (EvMessage (getPlayer name w) (String "/" tok)) w)).
Proof.
  intros Hne Hns Hh.
  assert (match_command (String "/" tok) = Some (tok, EmptyString)) as Hm.
  { unfold match_command. rewrite (span_non_space_bare tok Hns).
    destruct tok; [contradiction | reflexivity]. }
  assert (test_command (String "/" tok) = true) as Ht.
  { destruct tok as [|c tok]; [contradiction|].
    simpl in Hns. apply orb_false_iff in Hns as [Hc _].
    cbn [test_command]. rewrite Hc. reflexivity. }
  split; [exact Hm|]. unfold onMessage_handler. rewrite Ht, Hm.
  change (_commands (publish ?e w)) with (_commands w). rewrite Hh. reflexivity.
Qed.

Lemma match_command_line_break (tok args : string) :
  tok ≠ EmptyString → has_space tok = false → has_line_terminator args = true →
  match_command (command_line tok args) = None.
Proof.
  intros Hne Hns Hlt. rewrite command_line_cons. unfold match_command.
  rewrite (span_non_space_token tok args Hns), Hlt.
  destruct tok; [contradiction | reflexivity].
Qed.

(** C6.  Where the code departs from the claim: a chat line made of a slash,
    a token, a space and arguments that hold a line feed or a carriage
    return passes the test of line 48 and is not matched by the pattern of
    line 49, whose dot stops at a line terminator.  The event handler
    publishes the message event and then throws a [TypeError] from the
    destructuring; no listener is called, also when one is registered under
    the token. *)
Theorem command_line_break_throws (w : World) (name tok args : string) :
  tok ≠ EmptyString → has_space tok = false →
  has_line_terminator args = true →
  let message := command_line tok args in
  test_command message = true
  ∧ match_command message = None
  ∧ onMessage_handler name message w
    = Throw "TypeError" (publish (EvMessage (getPlayer name w) message) w)
  ∧ invoked (state_of (onMessage_handler name message w)) = invoked w
  ∧ published (state_of (onMessage_handler name message w))
    = published w ++ [EvMessage (getPlayer name w) message].
Proof.
  intros Hne Hns Hlt. cbv zeta.
  pose proof (test_command_line tok args Hne Hns) as Ht.
  pose proof (match_command_line_break tok args Hne Hns Hlt) as Hm.
  assert (onMessage_handler name (command_line tok args) w
          = Throw "TypeError"
              (publish (EvMessage (getPlayer name w) (command_line tok args)) w)) as Hthrow
    by (unfold onMessage_handler; rewrite Ht, Hm; reflexivity).
  split; [exact Ht|]. split; [exact Hm|]. split; [exact Hthrow|].
  rewrite Hthrow. split; reflexivity.
Qed.

Lemma command_line_break_throws_witness :
  "kick" ≠ EmptyString
  ∧ has_space "kick" = false
  ∧ has_line_terminator ("griefer" +:+ String "013" EmptyString) = true
  ∧ _commands Kick.start !! toLocaleUpperCase "kick" = Some 7
  ∧ onMessage_handler "ALICE"
      (command_line "kick" ("griefer" +:+ String "013" EmptyString)) Kick.start
    = Throw "TypeError"
        (publish (EvMessage (getPlayer "ALICE" Kick.start)
                    (command_line "kick" ("griefer" +:+ String "013" EmptyString)))
           Kick.start)
  ∧ invoked (state_of (onMessage_handler "ALICE"
               (command_line "kick" ("griefer" +:+ String "013" EmptyString)) Kick.start))
    = invoked Kick.start.
Proof.
  assert ("kick" ≠ EmptyString) as Hne by discriminate.
  assert (has_space "kick" = false) as Hns by reflexivity.
  assert (has_line_terminator ("griefer" +:+ String "013" EmptyString) = true) as Hlt
    by reflexivity.
  pose proof (command_line_break_throws Kick.start "ALICE" "kick"
                ("griefer" +:+ String "013" EmptyString) Hne Hns Hlt) as H.
  cbv zeta in H. destruct H as (_ & _ & Hthrow & Hinv & _).
  split; [exact Hne|]. split; [exact Hns|]. split; [exact Hlt|].
  split; [reflexivity|]. split; [exact Hthrow | exact Hinv].
Defined.

(** C7.  When a token equal up to letter case is already registered,
    [addCommand] throws, the state it leaves is the state it found, and a
    chat line with the token still calls the handler registered first. *)
Theorem addCommand_duplicate (w : World) (t1 t2 : string) (h1 h2 : Handler) :
  eq_nocase t1 t2 →
  _commands w !! toLocaleUpperCase t1 = Some h1 →
  (∃ e, addCommand t2 h2 w = Throw e w)
  ∧ _commands (state_of (addCommand t2 h2 w)) = _commands w
  ∧ ∀ name tok args,
      tok ≠ EmptyString → has_space tok = false →
      has_line_terminator args = false → eq_nocase tok t2 →
      invoked (state_of (onMessage_handler name (command_line tok args)
                           (state_of (addCommand t2 h2 w))))
      = invoked w ++ [mkInvocation h1 (getPlayer name w) args].
Proof.
  intros Hcase Hreg. rewrite (eq_nocase_upper t1 t2 Hcase) in Hreg.
  assert (addCommand t2 h2 w
          = Throw ("The command " +:+ dquote +:+ toLocaleUpperCase t2 +:+ dquote
                   +:+ " has already been added.") w) as Hthrow.
  { unfold addCommand. rewrite Hreg. reflexivity. }
  rewrite Hthrow. simpl state_of.
  split; [eexists; reflexivity|]. split; [reflexivity|].
  intros name tok args Hne Hns Hlt Htok.
  rewrite (onMessage_registered name tok args h1 w Hne Hns Hlt).
  - reflexivity.
  - rewrite (eq_nocase_upper tok t2 Htok). exact Hreg.
Qed.

Lemma addCommand_duplicate_witness :
  let w := state_of (addCommand "kick" 7 (construct ∅)) in
  eq_nocase "kick" "KICK"
  ∧ _commands w !! toLocaleUpperCase "kick" = Some 7
  ∧ (∃ e, addCommand "KICK" 8 w = Throw e w)
  ∧ invoked (state_of (onMessage_handler "BOB" (command_line "Kick" "griefer")
                         (state_of (addCommand "KICK" 8 w))))
    = [mkInvocation 7 (getPlayer "BOB" w) "griefer"].
Proof.
  intros w.
  assert (_commands w !! toLocaleUpperCase "kick" = Some 7) as Hreg by reflexivity.
  destruct (addCommand_duplicate w "kick" "KICK" 7 8 kick_KICK Hreg)
    as (Hthrow & _ & Hstill).
  split; [exact kick_KICK|]. split; [exact Hreg|]. split; [exact Hthrow|].
  apply (Hstill "BOB" "Kick" "griefer"); try reflexivity.
  - discriminate.
  - repeat constructor; (left; reflexivity) || (right; right; split; reflexivity).
Defined.

(** * The heap *)

Lemma write_array_lookup_ne (h : list Obj) (l l' : loc) (items : list string) :
  l ≠ l' → write_array l items h !! l' = h !! l'.
Proof.
  intros Hne. unfold write_array.
  destruct (h !! l) as [[]|]; try reflexivity.
  apply list_lookup_insert_ne, Hne.
Qed.

Lemma write_array_lookup_eq (h : list Obj) (l : loc) (old items : list string) :
  h !! l = Some (OArray old) → write_array l items h !! l = Some (OArray items).
Proof.
  intros Hl. unfold write_array. rewrite Hl.
  apply list_lookup_insert_eq. eapply lookup_lt_Some, Hl.
Qed.

Lemma read_array_write_ne (h : list Obj) (l l' : loc) (items : list string) :
  l ≠ l' → read_array (write_array l items h) l' = read_array h l'.
Proof. intros Hne. unfold read_array. rewrite write_array_lookup_ne; auto. Qed.

Lemma read_array_write_eq (h : list Obj) (l : loc) (old items : list string) :
  h !! l = Some (OArray old) → read_array (write_array l items h) l = items.
Proof.
  intros Hl. unfold read_array. rewrite (write_array_lookup_eq h l old items Hl).
  reflexivity.
Qed.

Lemma lookup_alloc_old (h : list Obj) (o x : Obj) (l : loc) :
  h !! l = Some x → (h ++ [o]) !! l = Some x.
Proof. intros Hl. rewrite lookup_app_l; [exact Hl | eapply lookup_lt_Some, Hl]. Qed.

Lemma lookup_alloc_new (h : list Obj) (o : Obj) : (h ++ [o]) !! length h = Some o.
Proof. apply list_lookup_middle. reflexivity. Qed.

Lemma overview_loaded_online (ov : loc) (w : World) (own : string) (onl : loc)
    (cur : list string) :
  heap w !! ov = Some (OOverview own onl) →
  heap w !! _online w = Some (OArray cur) →
  read_array (heap (overview_loaded ov w)) (_online w)
  = foldl push_absent cur (read_array (heap w) onl).
Proof.
  intros Hov Hcur. unfold overview_loaded. rewrite Hov. simpl.
  rewrite (read_array_write_eq _ _ cur _ Hcur).
  unfold read_array at 1. rewrite Hcur. reflexivity.
Qed.

(** C10.  The [online] getter returns a new array holding the names of
    [_online].  Whatever the caller then writes into that array, [_online]
    keeps its names, the next [online] read returns them again, and merging
    an overview (one whose own online array is not the caller's copy) gives
    the same online list as it would have without the write. *)
Theorem online_fresh_copy (w : World) (names : list string) :
  heap w !! _online w = Some (OArray names) →
  let l := (online w).1 in
  let w' := (online w).2 in
  l ≠ _online w
  ∧ heap w !! l = None
  ∧ read_array (heap w') l = names
  ∧ ∀ items,
      let w'' := caller_writes l items w' in
      _online w'' = _online w
      ∧ heap w'' !! _online w'' = Some (OArray names)
      ∧ read_array (heap (online w'').2) (online w'').1 = names
      ∧ ∀ ov own onl,
          heap w'' !! ov = Some (OOverview own onl) → onl ≠ l →
          read_array (heap (overview_loaded ov w'')) (_online w)
          = read_array (heap (overview_loaded ov w')) (_online w).
Proof.
  intros Hon. cbv zeta.
  assert (_online w < length (heap w)) as Hlt by (eapply lookup_lt_Some, Hon).
  assert (heap (online w).2 = heap w ++ [OArray names]) as Hh'.
  { simpl. unfold read_array. rewrite Hon. reflexivity. }
  change ((online w).1) with (length (heap w)).
  change (_online (online w).2) with (_online w).
  set (w' := (online w).2) in *.
  assert (heap w' !! _online w = Some (OArray names)) as Hon'.
  { rewrite Hh'. apply lookup_alloc_old, Hon. }
  assert (heap w' !! length (heap w) = Some (OArray names)) as Hnew.
  { rewrite Hh'. apply lookup_alloc_new. }
  split; [lia|]. split; [apply lookup_ge_None; lia|]. split.
  { unfold read_array. rewrite Hnew. reflexivity. }
  intros items.
  change (_online (caller_writes (length (heap w)) items w')) with (_online w).
  set (w'' := caller_writes (length (heap w)) items w').
  assert (heap w'' = write_array (length (heap w)) items (heap w')) as Hh''
    by reflexivity.
  assert (heap w'' !! _online w = Some (OArray names)) as Hkept.
  { rewrite Hh'', write_array_lookup_ne by lia. exact Hon'. }
  split; [reflexivity|]. split; [exact Hkept|]. split.
  { change (heap (online w'').2)
      with (heap w'' ++ [OArray (read_array (heap w'') (_online w))]).
    change ((online w'').1) with (length (heap w'')).
    unfold read_array at 1. rewrite lookup_alloc_new.
    unfold read_array. rewrite Hkept. reflexivity. }
  intros ov own onl Hov Honl.
  assert (ov ≠ length (heap w)) as Hovl.
  { intros ->. revert Hov.
    rewrite Hh'', (write_array_lookup_eq _ _ names items Hnew). discriminate. }
  assert (heap w' !! ov = Some (OOverview own onl)) as Hov'.
  { rewrite Hh'', write_array_lookup_ne in Hov by auto. exact Hov. }
  change (_online w) with (_online w'') at 1.
  change (_online w) with (_online w') at 1.
  rewrite (overview_loaded_online ov w'' own onl names Hov Hkept).
  rewrite (overview_loaded_online ov w' own onl names Hov' Hon').
  rewrite Hh'', read_array_write_ne by auto. reflexivity.
Qed.

Lemma online_fresh_copy_witness :
  let w := drain 2 (resolve_overview 0 "OWNER" ["ALICE"; "BOB"] (construct ∅)) in
  let l := (online w).1 in
  let w'' := caller_writes l ["MALLORY"] (online w).2 in
  heap w !! _online w = Some (OArray ["ALICE"; "BOB"])
  ∧ read_array (heap w'') l = ["MALLORY"]
  ∧ read_array (heap (online w'').2) (online w'').1 = ["ALICE"; "BOB"].
Proof.
  intros w l w''.
  assert (heap w !! _online w = Some (OArray ["ALICE"; "BOB"])) as Hon by reflexivity.
  destruct (online_fresh_copy w ["ALICE"; "BOB"] Hon) as (_ & _ & _ & Hafter).
  destruct (Hafter ["MALLORY"]) as (_ & _ & Hread & _).
  split; [exact Hon|]. split; [reflexivity|]. exact Hread.
Defined.

(** * Owner marking *)

Lemma overview_loaded_marks (ov : loc) (w : World) (own : string) (onl : loc) :
  heap w !! ov = Some (OOverview own onl) →
  owner <$> (_players (overview_loaded ov w) !! own) = Some (Some true).
Proof.
  intros Hov. unfold overview_loaded. rewrite Hov. simpl.
  rewrite lookup_insert_eq. reflexivity.
Qed.

(** When the overview gives the owner's name in canonical form, every
    spelling of it resolves to a view with the owner flag. *)
Lemma owner_marked_when_canonical (ov : loc) (w : World) (own name : string)
    (onl : loc) :
  heap w !! ov = Some (OOverview own onl) →
  toLocaleUpperCase own = own →
  eq_nocase name own →
  isOwner (getPlayer name (overview_loaded ov w)) = true.
Proof.
  intros Hov Hcanon Hcase. unfold isOwner, getPlayer. cbn [player_info].
  rewrite (eq_nocase_upper name own Hcase), Hcanon.
  pose proof (overview_loaded_marks ov w own onl Hov) as Hmark.
  destruct (_players (overview_loaded ov w) !! own) as [r|]; [|discriminate].
  simpl in *. injection Hmark as ->. reflexivity.
Qed.

(** C3.  The overview fetch started by the constructor succeeds and reports
    the owner "Steve".  The flag is set on a record stored under "Steve";
    [getPlayer] looks under "STEVE", finds no record, and returns a view that
    is not the owner's. *)
Theorem owner_Steve_not_marked :
  overview_fetches (construct ∅) = 1
  ∧ outcome_of 0 (drain 2 (resolve_overview 0 "Steve" [] (construct ∅)))
    = Some (Fulfilled (VRef 7))
  ∧ owner <$> (_players (drain 2 (resolve_overview 0 "Steve" [] (construct ∅))) !! "Steve")
    = Some (Some true)
  ∧ _players (drain 2 (resolve_overview 0 "Steve" [] (construct ∅))) !! "STEVE" = None
  ∧ player_info (getPlayer "steve" (drain 2 (resolve_overview 0 "Steve" [] (construct ∅))))
    = blank_info
  ∧ isOwner (getPlayer "steve" (drain 2 (resolve_overview 0 "Steve" [] (construct ∅))))
    = false
  ∧ isOwner (getPlayer "Steve" (drain 2 (resolve_overview 0 "Steve" [] (construct ∅))))
    = false.
Proof. vm_compute. repeat split. Qed.

(** * Promises and the overview slot *)

Lemma lookup_app_plus {A} (l1 l2 : list A) (p k : nat) :
  p = length l1 + k → (l1 ++ l2) !! p = l2 !! k.
Proof. intros ->. rewrite lookup_app_r by lia. f_equal. lia. Qed.

Lemma insert_app_plus {A} (l1 l2 : list A) (p k : nat) (x : A) :
  p = length l1 + k → <[p := x]> (l1 ++ l2) = l1 ++ <[k := x]> l2.
Proof. intros ->. rewrite insert_app_r_alt by lia. do 2 f_equal. lia. Qed.

Lemma replicate_snoc {A} (n : nat) (x : A) : replicate n x ++ [x] = replicate (S n) x.
Proof. symmetry. apply replicate_cons_app. Qed.

Lemma then_at (w : World) (ps ext : list Cell) (p k : nat) (ks : list Cont)
    (f : Callback) :
  promises w = ps ++ ext → p = length ps + k → ext !! k = Some (Pending ks) →
  then_ p f w
  = (length ps + length ext,
     set_promises
       (ps ++ <[k := Pending (ks ++ [KThen f (length ps + length ext)])]> ext
           ++ [Pending []]) w).
Proof.
  intros Hps Hp Hk. unfold then_, new_promise, subscribe.
  cbn [promises set_promises]. rewrite Hps, length_app, <- app_assoc.
  rewrite (lookup_app_plus _ _ p k Hp), (lookup_app_l_Some _ _ _ _ Hk).
  rewrite (insert_app_plus _ _ p k _ Hp).
  rewrite insert_app_l by (eapply lookup_lt_Some, Hk).
  destruct w; reflexivity.
Qed.

Lemma then_settled (w : World) (p : nat) (o : Outcome) (f : Callback) :
  promises w !! p = Some (Settled o) →
  then_ p f w
  = (length (promises w),
     set_microtasks (microtasks w ++ [(KThen f (length (promises w)), o)])
       (set_promises (promises w ++ [Pending []]) w)).
Proof.
  intros Hp. unfold then_, new_promise, subscribe.
  cbn [promises set_promises]. rewrite (lookup_app_l_Some _ _ _ _ Hp).
  destruct w; reflexivity.
Qed.

Lemma settle_at (w : World) (ps ext : list Cell) (p k : nat) (ks : list Cont)
    (o : Outcome) :
  promises w = ps ++ ext → p = length ps + k → ext !! k = Some (Pending ks) →
  settle p o w
  = set_microtasks (microtasks w ++ map (λ r, (r, o)) ks)
      (set_promises (ps ++ <[k := Settled o]> ext) w).
Proof.
  intros Hps Hp Hk. unfold settle. rewrite Hps.
  rewrite (lookup_app_plus _ _ p k Hp), Hk, (insert_app_plus _ _ p k _ Hp).
  reflexivity.
Qed.

Lemma getOverview_fetches (refresh : bool) (w : World) :
  refresh = true ∨ _cache_overview w = None →
  getOverview refresh w = (length (promises w) + 2, pending_overview w 1).
Proof.
  intros Hwhy.
  assert (getOverview refresh w
          = then_ (fetch_overview w).1 CbOverviewCopy (fetch_overview w).2) as ->.
  { unfold getOverview. destruct Hwhy as [-> | ->]; [destruct (_cache_overview w)|];
      destruct (fetch_overview w); reflexivity. }
  unfold fetch_overview, api_call, new_promise.
  erewrite (then_at _ (promises w) [Pending []] (length (promises w)) 0);
    [|reflexivity|lia|reflexivity].
  cbn [fst snd].
  erewrite (then_at _ (promises w) _ (length (promises w) + 1) 1);
    [|reflexivity|lia|reflexivity].
  destruct w; reflexivity.
Qed.

Lemma getOverview_pending (w : World) (k : nat) :
  getOverview false (pending_overview w k)
  = (length (promises w) + 2 + k, pending_overview w (S k)).
Proof.
  unfold getOverview. cbn [pending_overview _cache_overview set_cache_overview].
  erewrite (then_at _ (promises w) _ (length (promises w) + 1) 1);
    [|reflexivity|lia|reflexivity].
  cbn [app length insert list_insert]. rewrite length_replicate.
  replace (length (promises w) + S (S k)) with (length (promises w) + 2 + k) by lia.
  f_equal. unfold pending_overview.
  rewrite <- (replicate_snoc k), seq_S, map_app. cbn [map app].
  destruct w; reflexivity.
Qed.

Lemma getOverview_times_pending (n : nat) (w : World) (k : nat) :
  getOverview_times n (pending_overview w k)
  = (seq (length (promises w) + 2 + k) n, pending_overview w (k + n)).
Proof.
  revert k. induction n as [|n IH]; intros k.
  - simpl. rewrite Nat.add_0_r. reflexivity.
  - cbn [getOverview_times]. rewrite getOverview_pending, IH. cbn [seq].
    replace (length (promises w) + 2 + S k) with (S (length (promises w) + 2 + k)) by lia.
    replace (S k + n) with (k + S n) by lia. reflexivity.
Qed.

Lemma drain_rejections (j : nat) :
  ∀ (i : nat) (ps0 : list Cell) (w : World) (f : Callback) (e : string),
    promises w = ps0 ++ replicate i (Settled (Rejected e)) ++ replicate j (Pending []) →
    microtasks w = map (λ q, (KThen f q, Rejected e)) (seq (length ps0 + i) j) →
    drain j w
    = set_microtasks []
        (set_promises (ps0 ++ replicate (i + j) (Settled (Rejected e))) w).
Proof.
  induction j as [|j IH]; intros i ps0 w f e Hps Hmt.
  - destruct w; simpl in *; subst. rewrite app_nil_r, Nat.add_0_r. reflexivity.
  - cbn [drain]. rewrite Hmt. cbn [seq map run_task].
    rewrite (settle_at _ (ps0 ++ replicate i (Settled (Rejected e)))
               (replicate (S j) (Pending [])) _ 0 []).
    + rewrite (IH (S i) ps0 _ f e).
      * replace (S i + j) with (i + S j) by lia. destruct w; reflexivity.
      * change (replicate (S j) (Pending [])) with (Pending [] :: replicate j (Pending [])).
        cbn [promises set_promises set_microtasks insert list_insert].
        rewrite <- (replicate_snoc i), <- !app_assoc. reflexivity.
      * cbn [microtasks set_promises set_microtasks map]. rewrite app_nil_r.
        replace (length ps0 + S i) with (S (length ps0 + i)) by lia. reflexivity.
    + cbn [promises set_microtasks]. rewrite Hps, app_assoc. reflexivity.
    + rewrite length_app, length_replicate. lia.
    + reflexivity.
Qed.

Lemma drain_failed_overview (w : World) (k : nat) (e : string) :
  microtasks w = [] →
  drain (S k) (reject (length (promises w)) e (pending_overview w k))
  = failed_overview w k e.
Proof.
  intros Hmt. unfold reject.
  erewrite (settle_at _ (promises w) _ _ 0); [|reflexivity|lia|reflexivity].
  cbn [drain microtasks set_microtasks set_promises pending_overview set_cache_overview
       set_api_log map].
  rewrite Hmt. cbn [app run_task].
  erewrite (settle_at _ (promises w) _ _ 1); [|reflexivity|lia|reflexivity].
  cbn [insert list_insert app microtasks set_microtasks].
  rewrite (drain_rejections k 2 (promises w) _ CbOverviewCopy e).
  - unfold failed_overview. replace (2 + k) with (k + 2) by lia.
    destruct w; reflexivity.
  - reflexivity.
  - cbn [microtasks set_microtasks set_promises]. rewrite map_map. reflexivity.
Qed.

Lemma getOverview_times_settled (n : nat) :
  ∀ (w : World) (c : nat) (o : Outcome),
    _cache_overview w = Some c →
    promises w !! c = Some (Settled o) →
    getOverview_times n w
    = (seq (length (promises w)) n,
       set_microtasks
         (microtasks w
          ++ map (λ q, (KThen CbOverviewCopy q, o)) (seq (length (promises w)) n))
         (set_promises (promises w ++ replicate n (Pending [])) w)).
Proof.
  induction n as [|n IH]; intros w c o Hc Hp.
  - destruct w; simpl. rewrite !app_nil_r. reflexivity.
  - cbn [getOverview_times]. unfold getOverview. rewrite Hc.
    rewrite (then_settled w c o _ Hp).
    erewrite (IH _ c o); [| exact Hc | ].
    + cbn [promises microtasks set_promises set_microtasks seq map].
      rewrite length_app. cbn [length].
      replace (length (promises w) + 1) with (S (length (promises w))) by lia.
      rewrite <- !app_assoc. destruct w; reflexivity.
    + cbn [promises set_promises set_microtasks].
      apply lookup_app_l_Some, Hp.
Qed.

Lemma drain_overview_copies (j : nat) :
  ∀ (i : nat) (ps0 : list Cell) (hp : list Obj) (w : World) (ov : nat)
    (own : string) (onl : nat),
    promises w
    = ps0 ++ map (λ t, Settled (Fulfilled (VRef (length hp + t)))) (seq 0 i)
          ++ replicate j (Pending []) →
    heap w = hp ++ replicate i (OOverview own onl) →
    hp !! ov = Some (OOverview own onl) →
    microtasks w
    = map (λ q, (KThen CbOverviewCopy q, Fulfilled (VRef ov))) (seq (length ps0 + i) j) →
    drain j w
    = set_microtasks []
        (set_heap (hp ++ replicate (i + j) (OOverview own onl))
           (set_promises
              (ps0 ++ map (λ t, Settled (Fulfilled (VRef (length hp + t))))
                          (seq 0 (i + j))) w)).
Proof.
  induction j as [|j IH]; intros i ps0 hp w ov own onl Hps Hh Hov Hmt.
  - destruct w; simpl in *; subst. rewrite app_nil_r, Nat.add_0_r. reflexivity.
  - cbn [drain]. rewrite Hmt. cbn [seq map run_task apply_callback].
    unfold copy_overview, alloc. cbn [heap set_microtasks].
    rewrite Hh, (lookup_app_l_Some _ _ _ _ Hov).
    rewrite length_app, length_replicate.
    rewrite (settle_at _ (ps0 ++ map (λ t, Settled (Fulfilled (VRef (length hp + t)))) (seq 0 i))
               (replicate (S j) (Pending [])) _ 0 []).
    + rewrite (IH (S i) ps0 hp _ ov own onl).
      * replace (S i + j) with (i + S j) by lia. destruct w; reflexivity.
      * change (replicate (S j) (Pending [])) with (Pending [] :: replicate j (Pending [])).
        cbn [promises set_promises set_microtasks set_heap insert list_insert].
        rewrite seq_S, map_app. cbn [map]. rewrite <- !app_assoc. reflexivity.
      * cbn [heap set_promises set_microtasks set_heap].
        rewrite <- (replicate_snoc i), <- !app_assoc. reflexivity.
      * exact Hov.
      * cbn [microtasks set_promises set_microtasks set_heap map]. rewrite app_nil_r.
        replace (length ps0 + S i) with (S (length ps0 + i)) by lia. reflexivity.
    + cbn [promises set_microtasks set_heap]. rewrite Hps, app_assoc. reflexivity.
    + rewrite length_app, length_map, length_seq. lia.
    + reflexivity.
Qed.

Lemma length_write_array (l : nat) (items : list string) (h : list Obj) :
  length (write_array l items h) = length h.
Proof.
  unfold write_array. destruct (h !! l) as [[]|]; try reflexivity.
  apply length_insert.
Qed.

Lemma write_array_app_l (l : nat) (items : list string) (h ext : list Obj) :
  l < length h → write_array l items (h ++ ext) = write_array l items h ++ ext.
Proof.
  intros Hl. unfold write_array. rewrite lookup_app_l by exact Hl.
  destruct (h !! l) as [[]|]; try reflexivity.
  apply insert_app_l, Hl.
Qed.

Lemma read_array_app_l (l : nat) (h ext : list Obj) :
  l < length h → read_array (h ++ ext) l = read_array h l.
Proof. intros Hl. unfold read_array. rewrite lookup_app_l by exact Hl. reflexivity. Qed.

Lemma read_array_app_new (h ext : list Obj) (items : list string) :
  read_array (h ++ OArray items :: ext) (length h) = items.
Proof.
  unfold read_array. rewrite (list_lookup_middle h ext _ (length h) eq_refl).
  reflexivity.
Qed.

Lemma drain_loaded_overview (w : World) (k : nat) (own : string) (names : list string) :
  microtasks w = [] →
  _online w < length (heap w) →
  drain (S k) (resolve_overview (length (promises w)) own names (pending_overview w k))
  = loaded_overview w k own names.
Proof.
  intros Hmt Hon. unfold resolve_overview, alloc.
  erewrite (settle_at _ (promises w) _ _ 0); [|reflexivity|lia|reflexivity].
  cbn [drain microtasks set_microtasks set_promises set_heap pending_overview
       set_cache_overview set_api_log map heap].
  rewrite Hmt. cbn [app run_task apply_callback].
  unfold overview_loaded.
  cbn [heap set_heap set_microtasks set_promises set_cache_overview set_api_log
       _online _players].
  rewrite length_app. cbn [length]. rewrite <- app_assoc. cbn [app].
  rewrite (lookup_app_plus (heap w) _ (length (heap w) + 1) 1 eq_refl).
  cbn [lookup list_lookup].
  change (_online (pending_overview w k)) with (_online w).
  change (_players (pending_overview w k)) with (_players w).
  rewrite (read_array_app_l _ _ _ Hon), read_array_app_new, (write_array_app_l _ _ _ _ Hon).
  erewrite (settle_at _ (promises w) _ _ 1); [|reflexivity|lia|reflexivity].
  cbn [insert list_insert app microtasks set_microtasks set_players set_heap].
  erewrite (drain_overview_copies k 0
              (promises w ++ [Settled (Fulfilled (VRef (length (heap w) + 1)));
                              Settled (Fulfilled (VRef (length (heap w) + 1)))])
              (write_array (_online w)
                 (foldl push_absent (read_array (heap w) (_online w)) names) (heap w)
               ++ [OArray names; OOverview own (length (heap w))])
              _ (length (heap w) + 1) own (length (heap w))).
  - unfold loaded_overview. cbn [Nat.add].
    rewrite length_app, length_write_array. cbn [length].
    rewrite <- !app_assoc. cbn [app].
    destruct w; reflexivity.
  - cbn [promises set_microtasks set_players set_heap set_promises seq map app].
    rewrite <- app_assoc. reflexivity.
  - cbn [heap set_microtasks set_players set_heap set_promises replicate].
    rewrite app_nil_r. reflexivity.
  - rewrite (lookup_app_plus _ _ (length (heap w) + 1) 1); [reflexivity|].
    rewrite length_write_array. reflexivity.
  - cbn [microtasks set_microtasks set_players set_heap set_promises app].
    rewrite map_map, length_app. cbn [length].
    replace (length (promises w) + 2 + 0) with (length (promises w) + 2) by lia.
    reflexivity.
Qed.

Lemma lookup_map_seq {A} (f : nat → A) (n : nat) :
  ∀ s i, i < n → map f (seq s n) !! i = Some (f (s + i)).
Proof.
  induction n as [|n IH]; intros s i Hi; [lia|].
  destruct i as [|i]; cbn [seq map].
  - rewrite Nat.add_0_r. reflexivity.
  - cbn [lookup list_lookup]. change (map f (seq (S s) n) !! i = Some (f (s + S i))).
    rewrite (IH (S s) i) by lia. f_equal. f_equal. lia.
Qed.

Lemma outcome_of_rejected_block (ps : list Cell) (k q : nat) (e : string)
    (w : World) :
  promises w = ps ++ replicate k (Settled (Rejected e)) →
  length ps ≤ q < length ps + k →
  outcome_of q w = Some (Rejected e).
Proof.
  intros Hps Hq. unfold outcome_of. rewrite Hps.
  rewrite lookup_app_r by lia. rewrite lookup_replicate_2 by lia. reflexivity.
Qed.

Lemma overview_fetches_snoc (w w' : World) (p : nat) :
  api_log w' = api_log w ++ [ApiGetOverview p] →
  overview_fetches w' = overview_fetches w + 1.
Proof.
  intros Hlog. unfold overview_fetches. rewrite Hlog, filter_app, length_app.
  reflexivity.
Qed.

Lemma getOverview_cached (w : World) (c : nat) :
  _cache_overview w = Some c →
  api_log (getOverview false w).2 = api_log w
  ∧ _cache_overview (getOverview false w).2 = Some c.
Proof.
  intros Hc. unfold getOverview, then_, new_promise, subscribe. rewrite Hc.
  cbn [fst snd promises set_promises].
  destruct ((promises w ++ [Pending []]) !! c) as [[ks|o]|];
    split; solve [reflexivity | exact Hc].
Qed.

Lemma getOverview_times_fetches (n : nat) (w : World) :
  _cache_overview w = None →
  getOverview_times (S n) w
  = (seq (length (promises w) + 2) (S n), pending_overview w (S n)).
Proof.
  intros Hc. cbn [getOverview_times].
  rewrite (getOverview_fetches false w (or_intror Hc)).
  rewrite (getOverview_times_pending n w 1).
  replace (length (promises w) + 2 + 1) with (S (length (promises w) + 2)) by lia.
  reflexivity.
Qed.

(** ** A fetch under way *)

Lemma settle_pending (p : nat) (ks : list Cont) (o : Outcome) (w : World) :
  promises w !! p = Some (Pending ks) →
  settle p o w
  = set_microtasks (microtasks w ++ map (λ k, (k, o)) ks)
      (set_promises (<[p := Settled o]> (promises w)) w).
Proof. intros H. unfold settle. rewrite H. reflexivity. Qed.

Lemma then_pending (p : nat) (ks : list Cont) (f : Callback) (w : World) :
  promises w !! p = Some (Pending ks) →
  then_ p f w
  = (length (promises w),
     set_promises
       (<[p := Pending (ks ++ [KThen f (length (promises w))])]>
          (promises w ++ [Pending []])) w).
Proof.
  intros H. unfold then_, new_promise, subscribe. cbn [promises set_promises].
  rewrite (lookup_app_l_Some _ _ _ _ H). destruct w; reflexivity.
Qed.

Lemma reject_each_length (e : string) (qs : list nat) :
  ∀ ps, length (reject_each e qs ps) = length ps.
Proof.
  induction qs as [|q qs IH]; intros ps; [reflexivity|].
  unfold reject_each in *. cbn [foldl]. rewrite IH. apply length_insert.
Qed.

Lemma reject_each_notin (e : string) (qs : list nat) :
  ∀ ps q, q ∉ qs → reject_each e qs ps !! q = ps !! q.
Proof.
  induction qs as [|a qs IH]; intros ps q Hq; [reflexivity|].
  apply not_elem_of_cons in Hq as [Hne Hq].
  unfold reject_each in *. cbn [foldl]. rewrite (IH _ q Hq).
  apply list_lookup_insert_ne. auto.
Qed.

Lemma reject_each_in (e : string) (qs : list nat) :
  ∀ ps q, q ∈ qs → q < length ps →
    reject_each e qs ps !! q = Some (Settled (Rejected e)).
Proof.
  induction qs as [|a qs IH]; intros ps q Hq Hlt; [inversion Hq|].
  change (reject_each e (a :: qs) ps)
    with (reject_each e qs (<[a := Settled (Rejected e)]> ps)).
  destruct (decide (q ∈ qs)) as [Hin | Hout].
  - apply IH; [exact Hin | rewrite length_insert; exact Hlt].
  - apply elem_of_cons in Hq as [-> | Hq]; [|contradiction].
    rewrite (reject_each_notin e qs _ a Hout).
    apply list_lookup_insert_eq. exact Hlt.
Qed.

Lemma fulfil_each_length (d : nat) (qs : list nat) :
  ∀ l ps, length (fulfil_each l d qs ps) = length ps.
Proof.
  induction qs as [|q qs IH]; intros l ps; [reflexivity|].
  cbn [fulfil_each]. rewrite IH. apply length_insert.
Qed.

Lemma fulfil_each_notin (d : nat) (qs : list nat) :
  ∀ l ps q, q ∉ qs → fulfil_each l d qs ps !! q = ps !! q.
Proof.
  induction qs as [|a qs IH]; intros l ps q Hq; [reflexivity|].
  apply not_elem_of_cons in Hq as [Hne Hq].
  cbn [fulfil_each]. rewrite (IH _ _ q Hq).
  apply list_lookup_insert_ne. auto.
Qed.

Lemma fulfil_each_lookup (d : nat) (qs : list nat) :
  ∀ l ps i q, NoDup qs → qs !! i = Some q → q < length ps →
    fulfil_each l d qs ps !! q = Some (Settled (Fulfilled (VRef (l + i * d)))).
Proof.
  induction qs as [|a qs IH]; intros l ps i q Hnd Hi Hlt; [inversion Hi|].
  apply NoDup_cons in Hnd as [Ha Hnd]. cbn [fulfil_each].
  destruct i as [|i].
  - injection Hi as ->. rewrite (fulfil_each_notin d qs _ _ q Ha).
    rewrite list_lookup_insert_eq by exact Hlt.
    do 4 f_equal. lia.
  - cbn [lookup list_lookup] in Hi.
    rewrite (IH (l + d) _ i q Hnd Hi) by (rewrite length_insert; exact Hlt).
    do 4 f_equal. lia.
Qed.

Lemma world_same (w : World) :
  set_microtasks (microtasks w) (set_promises (promises w) w) = w.
Proof. destruct w; reflexivity. Qed.

Lemma drain_rejections_at (f : Callback) (e : string) (qs : list nat) :
  ∀ (w : World) (rest : list (Cont * Outcome)),
    microtasks w = map (λ q, (KThen f q, Rejected e)) qs ++ rest →
    Forall (λ q, promises w !! q = Some (Pending [])) qs →
    NoDup qs →
    drain (length qs) w
    = set_microtasks rest (set_promises (reject_each e qs (promises w)) w).
Proof.
  induction qs as [|q qs IH]; intros w rest Hmt Hall Hnd.
  - cbn [length drain reject_each foldl]. cbn [map app] in Hmt. rewrite <- Hmt.
    symmetry. apply world_same.
  - apply Forall_cons in Hall as [Hq Hall]. apply NoDup_cons in Hnd as [Hnq Hnd].
    cbn [length drain]. rewrite Hmt. cbn [map app run_task].
    rewrite (settle_pending q [] (Rejected e)) by exact Hq.
    cbn [map]. rewrite app_nil_r.
    rewrite (IH _ rest); [destruct w; reflexivity|reflexivity| |exact Hnd].
    cbn [promises set_microtasks set_promises].
    apply Forall_forall. intros x Hx.
    rewrite list_lookup_insert_ne by (intros ->; contradiction).
    exact (proj1 (Forall_forall _ _) Hall x Hx).
Qed.

Lemma drain_overview_copies_at (ov : nat) (own : string) (onl : nat) (qs : list nat) :
  ∀ (w : World) (rest : list (Cont * Outcome)),
    microtasks w
    = map (λ q, (KThen CbOverviewCopy q, Fulfilled (VRef ov))) qs ++ rest →
    heap w !! ov = Some (OOverview own onl) →
    Forall (λ q, promises w !! q = Some (Pending [])) qs →
    NoDup qs →
    drain (length qs) w
    = set_microtasks rest
        (set_heap (heap w ++ replicate (length qs) (OOverview own onl))
           (set_promises (fulfil_each (length (heap w)) 1 qs (promises w)) w)).
Proof.
  induction qs as [|q qs IH]; intros w rest Hmt Hov Hall Hnd.
  - cbn [length drain fulfil_each replicate]. cbn [map app] in Hmt.
    rewrite app_nil_r, <- Hmt. destruct w; reflexivity.
  - apply Forall_cons in Hall as [Hq Hall]. apply NoDup_cons in Hnd as [Hnq Hnd].
    cbn [length drain]. rewrite Hmt. cbn [map app run_task apply_callback].
    unfold copy_overview, alloc. cbn [heap set_microtasks]. rewrite Hov.
    rewrite (settle_pending q [] _) by exact Hq.
    cbn [map]. rewrite app_nil_r.
    rewrite (IH _ rest); [|reflexivity| | |exact Hnd].
    + cbn [heap promises set_microtasks set_promises set_heap fulfil_each replicate].
      rewrite length_app, <- app_assoc. cbn [length app].
      destruct w; reflexivity.
    + cbn [heap set_microtasks set_promises set_heap].
      apply lookup_app_l_Some, Hov.
    + cbn [promises set_microtasks set_promises set_heap].
      apply Forall_forall. intros x Hx.
      rewrite list_lookup_insert_ne by (intros ->; contradiction).
      exact (proj1 (Forall_forall _ _) Hall x Hx).
Qed.

Lemma fetch_outstanding_distinct (loaded copy : Callback) (p c : nat) (qs : list nat)
    (w : World) :
  fetch_outstanding loaded copy p c qs w →
  p ≠ c ∧ (p ∉ qs) ∧ (c ∉ qs)
  ∧ p < length (promises w) ∧ c < length (promises w)
  ∧ ∀ q, q ∈ qs → q < length (promises w).
Proof.
  intros (Hp & Hc & Hall & Hnd).
  assert (∀ q, q ∈ qs → promises w !! q = Some (Pending [])) as Hqs
    by (apply Forall_forall, Hall).
  assert (p ∉ qs) as Hpq by (intros Hin; specialize (Hqs p Hin); congruence).
  assert (c ∉ qs) as Hcq.
  { intros Hin. pose proof (Hqs c Hin) as Hc'. rewrite Hc in Hc'.
    injection Hc' as Hm. destruct qs; [inversion Hin | discriminate]. }
  split.
  { intros ->. rewrite Hp in Hc. injection Hc as Hm.
    destruct qs as [|q [|? ?]]; try discriminate.
    injection Hm as _ ->. apply Hcq. left. }
  split; [exact Hpq|]. split; [exact Hcq|].
  split; [eapply lookup_lt_Some, Hp|]. split; [eapply lookup_lt_Some, Hc|].
  intros q Hq. eapply lookup_lt_Some, (Hqs q Hq).
Qed.

Lemma drain_fetch_rejected (loaded copy : Callback) (p c : nat) (qs : list nat)
    (e : string) (w : World) :
  microtasks w = [] →
  fetch_outstanding loaded copy p c qs w →
  drain (S (length qs)) (reject p e w)
  = set_microtasks [] (set_promises (reject_each e (p :: c :: qs) (promises w)) w).
Proof.
  intros Hmt Hout.
  destruct (fetch_outstanding_distinct _ _ _ _ _ _ Hout) as (Hpc & Hpq & Hcq & _).
  destruct Hout as (Hp & Hc & Hall & Hnd).
  unfold reject. rewrite (settle_pending p _ _ w Hp), Hmt.
  cbn [drain microtasks set_microtasks map app run_task].
  rewrite (settle_pending c (map (KThen copy) qs));
    [|cbn [promises set_microtasks set_promises];
      rewrite list_lookup_insert_ne by exact Hpc; exact Hc].
  cbn [microtasks set_microtasks set_promises app]. rewrite map_map.
  rewrite (drain_rejections_at copy e qs _ []);
    [destruct w; reflexivity | cbn [microtasks set_microtasks]; rewrite app_nil_r; reflexivity
    | | exact Hnd].
  cbn [promises set_microtasks set_promises].
  apply Forall_forall. intros x Hx.
  rewrite !list_lookup_insert_ne by (intros ->; contradiction).
  exact (proj1 (Forall_forall _ _) Hall x Hx).
Qed.

Lemma drain_overview_fetched (p c : nat) (qs : list nat) (own : string)
    (names : list string) (w : World) :
  microtasks w = [] →
  _online w < length (heap w) →
  fetch_outstanding CbOverviewLoaded CbOverviewCopy p c qs w →
  drain (S (length qs)) (resolve_overview p own names w)
  = set_microtasks []
      (set_players
         (<[own := mark_owner (default blank_info (_players w !! own))]> (_players w))
         (set_heap
            (write_array (_online w)
               (foldl push_absent (read_array (heap w) (_online w)) names) (heap w)
             ++ [OArray names; OOverview own (length (heap w))]
             ++ replicate (length qs) (OOverview own (length (heap w))))
            (set_promises
               (fulfil_each (length (heap w) + 2) 1 qs
                  (<[c := Settled (Fulfilled (VRef (length (heap w) + 1)))]>
                     (<[p := Settled (Fulfilled (VRef (length (heap w) + 1)))]>
                        (promises w)))) w))).
Proof.
  intros Hmt Hon Hout.
  destruct (fetch_outstanding_distinct _ _ _ _ _ _ Hout) as (Hpc & Hpq & Hcq & _).
  destruct Hout as (Hp & Hc & Hall & Hnd).
  unfold resolve_overview, alloc. cbn [heap set_heap fst snd].
  rewrite (settle_pending p [KThen CbOverviewLoaded c]) by exact Hp.
  cbn [microtasks set_microtasks set_heap set_promises promises]. rewrite Hmt.
  cbn [drain microtasks set_microtasks map app run_task apply_callback].
  unfold overview_loaded.
  cbn [heap set_heap set_microtasks set_promises _online _players].
  rewrite length_app. cbn [length]. rewrite <- app_assoc. cbn [app].
  rewrite (lookup_app_plus (heap w) _ (length (heap w) + 1) 1 eq_refl).
  cbn [lookup list_lookup].
  rewrite (read_array_app_l _ _ _ Hon), read_array_app_new, (write_array_app_l _ _ _ _ Hon).
  rewrite (settle_pending c (map (KThen CbOverviewCopy) qs));
    [|cbn [promises set_microtasks set_promises set_players set_heap];
      rewrite list_lookup_insert_ne by exact Hpc; exact Hc].
  cbn [microtasks set_microtasks set_promises set_players set_heap app]. rewrite map_map.
  rewrite (drain_overview_copies_at (length (heap w) + 1) own (length (heap w)) qs _ []).
  - cbn [heap promises set_microtasks set_promises set_players set_heap].
    rewrite length_app, length_write_array. cbn [length].
    rewrite <- !app_assoc. cbn [app].
    destruct w; reflexivity.
  - cbn [microtasks set_microtasks]. rewrite app_nil_r. reflexivity.
  - cbn [heap set_microtasks set_promises set_players set_heap].
    rewrite (lookup_app_plus _ _ (length (heap w) + 1) 1); [reflexivity|].
    rewrite length_write_array. reflexivity.
  - cbn [promises set_microtasks set_promises set_players set_heap].
    apply Forall_forall. intros x Hx.
    rewrite !list_lookup_insert_ne by (intros ->; contradiction).
    exact (proj1 (Forall_forall _ _) Hall x Hx).
  - exact Hnd.
Qed.

Lemma getOverview_waits (c : nat) (qs : list nat) (w : World) :
  _cache_overview w = Some c →
  promises w !! c = Some (Pending (map (KThen CbOverviewCopy) qs)) →
  getOverview false w
  = (length (promises w),
     set_promises
       (<[c := Pending (map (KThen CbOverviewCopy) (qs ++ [length (promises w)]))]>
          (promises w ++ [Pending []])) w).
Proof.
  intros Hc Hp. unfold getOverview. rewrite Hc.
  rewrite (then_pending c _ _ w Hp), map_app. reflexivity.
Qed.

Lemma getOverview_times_waits (c : nat) (n : nat) :
  ∀ (qs : list nat) (w : World),
    _cache_overview w = Some c →
    promises w !! c = Some (Pending (map (KThen CbOverviewCopy) qs)) →
    getOverview_times n w
    = (seq (length (promises w)) n,
       set_promises
         (<[c := Pending (map (KThen CbOverviewCopy) (qs ++ seq (length (promises w)) n))]>
            (promises w ++ replicate n (Pending []))) w).
Proof.
  induction n as [|n IH]; intros qs w Hc Hp.
  - cbn [getOverview_times seq replicate]. rewrite !app_nil_r.
    rewrite (list_insert_id _ _ _ Hp). destruct w; reflexivity.
  - pose proof (lookup_lt_Some _ _ _ Hp) as Hlt.
    cbn [getOverview_times]. rewrite (getOverview_waits c qs w Hc Hp).
    rewrite (IH (qs ++ [length (promises w)])); [|exact Hc|].
    + cbn [promises set_promises]. rewrite length_insert, length_app. cbn [length seq].
      replace (length (promises w) + 1) with (S (length (promises w))) by lia.
      rewrite <- !app_assoc. cbn [app replicate].
      rewrite insert_app_l by (rewrite length_insert, length_app; cbn [length]; lia).
      rewrite list_insert_insert_eq.
      rewrite <- insert_app_l by (rewrite length_app; cbn [length]; lia).
      rewrite <- app_assoc. cbn [app].
      destruct w; reflexivity.
    + cbn [promises set_promises].
      apply list_lookup_insert_eq. rewrite length_app. lia.
Qed.

Lemma fetch_outstanding_reads (loaded copy : Callback) (p c : nat) (qs : list nat)
    (n : nat) (w w' : World) :
  fetch_outstanding loaded copy p c qs w →
  promises w'
  = <[c := Pending (map (KThen copy) (qs ++ seq (length (promises w)) n))]>
      (promises w ++ replicate n (Pending [])) →
  fetch_outstanding loaded copy p c (qs ++ seq (length (promises w)) n) w'.
Proof.
  intros Hout Hps.
  destruct (fetch_outstanding_distinct _ _ _ _ _ _ Hout)
    as (Hpc & Hpq & Hcq & Hpl & Hcl & Hql).
  destruct Hout as (Hp & Hc & Hall & Hnd).
  unfold fetch_outstanding. rewrite Hps.
  split; [rewrite list_lookup_insert_ne by auto; apply lookup_app_l_Some, Hp|].
  split; [apply list_lookup_insert_eq; rewrite length_app; lia|].
  split.
  - apply Forall_app. split; apply Forall_forall; intros x Hx.
    + rewrite list_lookup_insert_ne by (intros ->; contradiction).
      apply lookup_app_l_Some. exact (proj1 (Forall_forall _ _) Hall x Hx).
    + apply elem_of_seq in Hx.
      rewrite list_lookup_insert_ne by lia.
      rewrite lookup_app_r by lia. apply lookup_replicate_2. lia.
  - apply NoDup_app. split; [exact Hnd|]. split; [|apply NoDup_seq].
    intros x Hx Hx'. apply elem_of_seq in Hx'. specialize (Hql x Hx). lia.
Qed.

Lemma pending_overview_outstanding (w : World) :
  fetch_outstanding CbOverviewLoaded CbOverviewCopy (length (promises w))
    (length (promises w) + 1) [length (promises w) + 2] (pending_overview w 1).
Proof.
  unfold fetch_outstanding.
  cbn [pending_overview promises set_cache_overview set_api_log set_promises
       seq map replicate app].
  split; [rewrite (lookup_app_plus _ _ _ 0) by lia; reflexivity|].
  split; [rewrite (lookup_app_plus _ _ _ 1) by lia; reflexivity|].
  split; [|apply NoDup_singleton].
  apply Forall_singleton. rewrite (lookup_app_plus _ _ _ 2) by lia. reflexivity.
Qed.

(** A read that starts a fetch: the first one, and every one that asks for a
    refresh. *)
Lemma getOverview_starts_fetch (refresh : bool) (w : World) :
  refresh = true ∨ _cache_overview w = None →
  let np := length (promises w) in
  let w1 := (getOverview refresh w).2 in
  (getOverview refresh w).1 = np + 2
  ∧ api_log w1 = api_log w ++ [ApiGetOverview np]
  ∧ overview_fetches w1 = overview_fetches w + 1
  ∧ _cache_overview w1 = Some (np + 1)
  ∧ promises w !! (np + 1) = None
  ∧ fetch_outstanding CbOverviewLoaded CbOverviewCopy np (np + 1) [np + 2] w1
  ∧ microtasks w1 = microtasks w ∧ heap w1 = heap w ∧ _online w1 = _online w.
Proof.
  intros Hwhy. cbv zeta. rewrite (getOverview_fetches refresh w Hwhy). cbn [fst snd].
  split; [reflexivity|]. split; [reflexivity|].
  split; [apply (overview_fetches_snoc w _ (length (promises w))); reflexivity|].
  split; [reflexivity|]. split; [apply lookup_ge_None_2; lia|].
  split; [apply pending_overview_outstanding|]. repeat split.
Qed.

Lemma overview_read_fetched (p c : nat) (qs : list nat) (own : string)
    (names : list string) (w : World) (q : nat) :
  microtasks w = [] →
  _online w < length (heap w) →
  fetch_outstanding CbOverviewLoaded CbOverviewCopy p c qs w →
  q ∈ qs →
  overview_read q (drain (S (length qs)) (resolve_overview p own names w))
  = Some (own, names).
Proof.
  intros Hmt Hon Hout Hq.
  rewrite (drain_overview_fetched p c qs own names w Hmt Hon Hout).
  destruct (fetch_outstanding_distinct _ _ _ _ _ _ Hout) as (_ & _ & _ & _ & _ & Hql).
  destruct Hout as (_ & _ & _ & Hnd).
  apply list_elem_of_lookup in Hq as [i Hi].
  pose proof (lookup_lt_Some _ _ _ Hi) as Hlt.
  unfold overview_read, result_of, outcome_of.
  cbn [promises heap set_microtasks set_players set_heap set_promises].
  rewrite (fulfil_each_lookup 1 qs _ _ i q Hnd Hi)
    by (rewrite !length_insert; apply Hql, list_elem_of_lookup; eauto).
  cbn [mbind option_bind]. unfold read_overview.
  rewrite (lookup_app_plus _ _ (length (heap w) + 2 + i * 1) (2 + i))
    by (rewrite length_write_array; lia).
  cbn [app]. rewrite !lookup_cons_ne_0 by lia. cbn [Nat.add Nat.pred].
  rewrite lookup_replicate_2 by lia.
  rewrite <- (length_write_array (_online w)
                (foldl push_absent (read_array (heap w) (_online w)) names) (heap w)).
  rewrite read_array_app_new. reflexivity.
Qed.

Lemma outcome_of_fetch_rejected (loaded copy : Callback) (p c : nat) (qs : list nat)
    (e : string) (w : World) (q : nat) :
  microtasks w = [] →
  fetch_outstanding loaded copy p c qs w →
  q ∈ p :: c :: qs →
  outcome_of q (drain (S (length qs)) (reject p e w)) = Some (Rejected e).
Proof.
  intros Hmt Hout Hq. rewrite (drain_fetch_rejected loaded copy p c qs e w Hmt Hout).
  destruct (fetch_outstanding_distinct _ _ _ _ _ _ Hout) as (_ & _ & _ & Hpl & Hcl & Hql).
  unfold outcome_of. cbn [promises set_microtasks set_promises].
  rewrite (reject_each_in e _ _ q Hq); [reflexivity|].
  apply elem_of_cons in Hq as [-> | Hq]; [exact Hpl|].
  apply elem_of_cons in Hq as [-> | Hq]; [exact Hcl | exact (Hql q Hq)].
Qed.

(** A plain read of a slot whose promise is pending, in any state. *)
Lemma getOverview_joins_queue (c : nat) (ks : list Cont) (w : World) :
  _cache_overview w = Some c →
  promises w !! c = Some (Pending ks) →
  let q := (getOverview false w).1 in
  let w1 := (getOverview false w).2 in
  q = length (promises w)
  ∧ api_log w1 = api_log w
  ∧ _cache_overview w1 = Some c
  ∧ promises w1 !! c = Some (Pending (ks ++ [KThen CbOverviewCopy q]))
  ∧ promises w1 !! q = Some (Pending [])
  ∧ microtasks w1 = microtasks w ∧ heap w1 = heap w.
Proof.
  intros Hc Hks. cbv zeta. pose proof (lookup_lt_Some _ _ _ Hks) as Hlt.
  unfold getOverview. rewrite Hc, (then_pending c ks _ w Hks). cbn [fst snd].
  cbn [promises api_log _cache_overview microtasks heap set_promises].
  split; [reflexivity|]. split; [reflexivity|]. split; [exact Hc|].
  split; [apply list_lookup_insert_eq; rewrite length_app; lia|].
  split; [|split; reflexivity].
  rewrite list_lookup_insert_ne by lia.
  apply (list_lookup_middle _ [] _ _ eq_refl).
Qed.

(** C1, as the code has it.  While a fetch of the overview is under way, any
    number of plain reads send nothing to the remote and leave the slot as
    it is: each of them waits on the promise the slot holds, behind the
    readers that came before.  When the remote answers that one fetch, every
    reader gets the answer: the rejection, or a copy of the one overview.
    The fetch under way was started by the first read, which finds the slot
    empty, or by a read with [refresh = true], which always sends a fetch
    and puts a new promise in the slot, whatever the slot holds.  From an
    empty slot, any number of plain reads send one fetch.  In any state, a
    plain read that finds a pending promise in the slot sends nothing and
    queues behind the reactions already waiting on that promise. *)
Theorem getOverview_single_flight (w : World) (p c : nat) (qs0 : list nat) (n : nat) :
  _cache_overview w = Some c →
  fetch_outstanding CbOverviewLoaded CbOverviewCopy p c qs0 w →
  microtasks w = [] →
  _online w < length (heap w) →
  let qs := (getOverview_times n w).1 in
  let w' := (getOverview_times n w).2 in
  let waiting := qs0 ++ qs in
  let tasks := S (length waiting) in
  qs = seq (length (promises w)) n
  ∧ api_log w' = api_log w
  ∧ overview_fetches w' = overview_fetches w
  ∧ _cache_overview w' = Some c
  ∧ fetch_outstanding CbOverviewLoaded CbOverviewCopy p c waiting w'
  ∧ (∀ e q, q ∈ waiting →
       outcome_of q (drain tasks (reject p e w')) = Some (Rejected e))
  ∧ (∀ own names q, q ∈ waiting →
       overview_read q (drain tasks (resolve_overview p own names w'))
       = Some (own, names))
  ∧ (∀ e, api_log (drain tasks (reject p e w')) = api_log w)
  ∧ (∀ own names, api_log (drain tasks (resolve_overview p own names w')) = api_log w)
  ∧ (∀ w0 refresh, refresh = true ∨ _cache_overview w0 = None →
       let np := length (promises w0) in
       let w1 := (getOverview refresh w0).2 in
       (getOverview refresh w0).1 = np + 2
       ∧ api_log w1 = api_log w0 ++ [ApiGetOverview np]
       ∧ overview_fetches w1 = overview_fetches w0 + 1
       ∧ _cache_overview w1 = Some (np + 1)
       ∧ promises w0 !! (np + 1) = None
       ∧ fetch_outstanding CbOverviewLoaded CbOverviewCopy np (np + 1) [np + 2] w1
       ∧ microtasks w1 = microtasks w0 ∧ heap w1 = heap w0 ∧ _online w1 = _online w0)
  ∧ (∀ w0 k, _cache_overview w0 = None →
       overview_fetches (getOverview_times (S k) w0).2 = overview_fetches w0 + 1)
  ∧ (∀ w0 c0 ks,
       _cache_overview w0 = Some c0 → promises w0 !! c0 = Some (Pending ks) →
       let q := (getOverview false w0).1 in
       let w1 := (getOverview false w0).2 in
       q = length (promises w0)
       ∧ api_log w1 = api_log w0
       ∧ _cache_overview w1 = Some c0
       ∧ promises w1 !! c0 = Some (Pending (ks ++ [KThen CbOverviewCopy q]))
       ∧ promises w1 !! q = Some (Pending [])
       ∧ microtasks w1 = microtasks w0 ∧ heap w1 = heap w0).
Proof.
  intros Hc Hout Hmt Hon. cbv zeta.
  pose proof Hout as (_ & Hslot & _).
  rewrite (getOverview_times_waits c n qs0 w Hc Hslot). cbn [fst snd].
  set (w' := set_promises _ w).
  assert (fetch_outstanding CbOverviewLoaded CbOverviewCopy p c
            (qs0 ++ seq (length (promises w)) n) w') as Hout'
    by (apply (fetch_outstanding_reads _ _ p c qs0 n w w' Hout); reflexivity).
  assert (microtasks w' = []) as Hmt' by exact Hmt.
  assert (_online w' < length (heap w')) as Hon' by exact Hon.
  split; [reflexivity|]. split; [reflexivity|]. split; [reflexivity|].
  split; [exact Hc|]. split; [exact Hout'|].
  split.
  { intros e q Hq. apply (outcome_of_fetch_rejected _ _ p c _ e w' q Hmt' Hout').
    do 2 right. exact Hq. }
  split; [intros own names q Hq; apply (overview_read_fetched p c _ own names w' q); assumption|].
  split; [intros e; rewrite (drain_fetch_rejected _ _ p c _ e w' Hmt' Hout'); reflexivity|].
  split.
  { intros own names.
    rewrite (drain_overview_fetched p c _ own names w' Hmt' Hon' Hout'). reflexivity. }
  split; [intros w0 refresh Hwhy; apply (getOverview_starts_fetch refresh w0 Hwhy)|].
  split.
  { intros w0 k Hnone. rewrite (getOverview_times_fetches k w0 Hnone). cbn [snd].
    apply (overview_fetches_snoc w0 _ (length (promises w0))). reflexivity. }
  intros w0 c0 ks Hc0 Hks. apply (getOverview_joins_queue c0 ks w0 Hc0 Hks).
Qed.

Lemma construct_outstanding :
  fetch_outstanding CbOverviewLoaded CbOverviewCopy 0 1 [2] (construct ∅).
Proof.
  split; [reflexivity|]. split; [reflexivity|].
  split; [repeat constructor | apply NoDup_singleton].
Defined.

Lemma getOverview_single_flight_witness :
  _cache_overview (construct ∅) = Some 1
  ∧ fetch_outstanding CbOverviewLoaded CbOverviewCopy 0 1 [2] (construct ∅)
  ∧ microtasks (construct ∅) = []
  ∧ _online (construct ∅) < length (heap (construct ∅))
  ∧ (getOverview_times 2 (construct ∅)).1 = [6; 7]
  ∧ overview_fetches (getOverview_times 2 (construct ∅)).2 = 1
  ∧ overview_read 2
      (drain (S (length ([2] ++ (getOverview_times 2 (construct ∅)).1)))
         (resolve_overview 0 "OWNER" ["ALICE"] (getOverview_times 2 (construct ∅)).2))
    = Some ("OWNER", ["ALICE"])
  ∧ overview_read 7
      (drain (S (length ([2] ++ (getOverview_times 2 (construct ∅)).1)))
         (resolve_overview 0 "OWNER" ["ALICE"] (getOverview_times 2 (construct ∅)).2))
    = Some ("OWNER", ["ALICE"]).
Proof.
  assert (_cache_overview (construct ∅) = Some 1) as Hc by reflexivity.
  assert (microtasks (construct ∅) = []) as Hmt by reflexivity.
  assert (_online (construct ∅) < length (heap (construct ∅))) as Hon
    by (vm_compute; lia).
  pose proof (getOverview_single_flight (construct ∅) 0 1 [2] 2
                Hc construct_outstanding Hmt Hon) as H.
  cbv zeta in H. destruct H as (Hqs & _ & Hone & _ & _ & _ & Hread & _).
  split; [exact Hc|]. split; [exact construct_outstanding|]. split; [exact Hmt|].
  split; [exact Hon|]. split; [exact Hqs|]. split; [exact Hone|]. split.
  - apply (Hread "OWNER" ["ALICE"] 2). rewrite Hqs. repeat constructor.
  - apply (Hread "OWNER" ["ALICE"] 7). rewrite Hqs. repeat constructor.
Defined.

(** The claim of C1 fails for a caller that asks for a refresh: while the
    constructor's fetch is still pending, a read with [refresh = true] sends
    a second fetch and waits on a new promise, not on the one the first
    reader waits on. *)
Lemma refresh_refetches_while_pending :
  outcome_of 0 (RefreshWhilePending.second).2 = None
  ∧ overview_fetches (RefreshWhilePending.first).2 = 1
  ∧ overview_fetches (RefreshWhilePending.second).2 = 2
  ∧ api_log (RefreshWhilePending.second).2
    = [ApiGetOverview 0; ApiGetLists 3; ApiGetOverview 7]
  ∧ promises (RefreshWhilePending.second).2 !! 1
    = Some (Pending [KThen CbOverviewCopy 2;
                     KThen CbOverviewCopy (RefreshWhilePending.first).1])
  ∧ promises (RefreshWhilePending.second).2 !! 8
    = Some (Pending [KThen CbOverviewCopy (RefreshWhilePending.second).1]).
Proof. vm_compute. repeat split. Qed.

Lemma getOverview_times_failed (m k : nat) (w : World) (e : string) :
  getOverview_times m (failed_overview w k e)
  = (seq (length (promises w) + (k + 2)) m,
     set_microtasks
       (map (λ q, (KThen CbOverviewCopy q, Rejected e))
            (seq (length (promises w) + (k + 2)) m))
       (set_promises
          (promises w ++ replicate (k + 2) (Settled (Rejected e))
                      ++ replicate m (Pending []))
          (failed_overview w k e))).
Proof.
  rewrite (getOverview_times_settled m (failed_overview w k e)
             (length (promises w) + 1) (Rejected e)).
  - cbn [failed_overview promises microtasks set_microtasks set_promises app].
    rewrite length_app, length_replicate, <- app_assoc. reflexivity.
  - reflexivity.
  - cbn [failed_overview promises set_microtasks set_promises].
    rewrite (lookup_app_plus _ _ _ 1) by reflexivity.
    apply lookup_replicate_2. lia.
Qed.






(** A fetch that fails after a refresh has replaced the slot: the
    constructor's fetch (promise 0) is rejected while the fetch of a refresh
    (promise 7) is under way.  The two callers that wait for the first fetch
    are rejected; the slot still holds the promise of the refresh, pending;
    a plain read made then is served the overview the refresh brings. *)
Example superseded_fetch_rejected :
  let w := (RefreshWhilePending.second).2 in
  let w5 := drain 3 (reject 0 "offline" w) in
  let late := getOverview false w5 in
  let w6 := drain 3 (resolve_overview 7 "OWNER" ["ALICE"] late.2) in
  _cache_overview w = Some 8
  ∧ _cache_overview w5 = Some 8
  ∧ outcome_of 2 w5 = Some (Rejected "offline")
  ∧ outcome_of (RefreshWhilePending.first).1 w5 = Some (Rejected "offline")
  ∧ outcome_of 8 w5 = None
  ∧ outcome_of (RefreshWhilePending.second).1 w5 = None
  ∧ api_log late.2 = api_log w
  ∧ overview_read (RefreshWhilePending.second).1 w6 = Some ("OWNER", ["ALICE"])
  ∧ overview_read late.1 w6 = Some ("OWNER", ["ALICE"]).
Proof. vm_compute. repeat split. Qed.


(** * Copies handed to callers *)

(** C8.  A loaded overview is read twice without a refresh in between.  The
    two reads return two different objects, but both objects refer to the
    one [online] array of the cached overview: the name the first caller
    pushes onto its result shows up in what the second read returns, and in
    the first result too. *)
Theorem getOverview_result_shares_online :
  overview_read (SharedOnline.read1).1 SharedOnline.seen1 = Some ("OWNER", ["ALICE"])
  ∧ result_of (SharedOnline.read1).1 SharedOnline.seen1 = Some 9
  ∧ result_of (SharedOnline.read2).1 SharedOnline.seen2 = Some 10
  ∧ heap SharedOnline.seen2 !! 9 = Some (OOverview "OWNER" 6)
  ∧ heap SharedOnline.seen2 !! 10 = Some (OOverview "OWNER" 6)
  ∧ overview_read (SharedOnline.read2).1 SharedOnline.seen2
    = Some ("OWNER", ["ALICE"; "MALLORY"])
  ∧ overview_fetches SharedOnline.seen2 = 1.
Proof. vm_compute. repeat split. Qed.

(** * Setting the lists *)

Lemma read_array_ext (h ext : list Obj) (l : nat) (items : list string) :
  h !! l = Some (OArray items) → read_array (h ++ ext) l = items.
Proof.
  intros Hl. unfold read_array. rewrite (lookup_app_l_Some _ _ _ _ Hl). reflexivity.
Qed.

Lemma subscribe_at (w : World) (ps ext : list Cell) (p k : nat) (ks : list Cont)
    (r : Cont) :
  promises w = ps ++ ext → p = length ps + k → ext !! k = Some (Pending ks) →
  subscribe p r w = set_promises (ps ++ <[k := Pending (ks ++ [r])]> ext) w.
Proof.
  intros Hps Hp Hk. unfold subscribe. rewrite Hps.
  rewrite (lookup_app_plus _ _ p k Hp), Hk, (insert_app_plus _ _ p k _ Hp).
  reflexivity.
Qed.

Lemma copy_lists_at (w : World) (l a m wl b : nat) (A M WL B : list string) :
  heap w !! l = Some (OLists a m wl b) →
  heap w !! a = Some (OArray A) → heap w !! m = Some (OArray M) →
  heap w !! wl = Some (OArray WL) → heap w !! b = Some (OArray B) →
  copy_lists l w
  = (VRef (length (heap w) + 4),
     set_heap (heap w ++ copied_lists (length (heap w)) A M WL B) w).
Proof.
  intros Hl Ha Hm Hwl Hb. unfold copy_lists, alloc. rewrite Hl.
  cbn [heap set_heap].
  rewrite <- !app_assoc. cbn [app].
  rewrite (read_array_ext _ _ _ _ Hm), (read_array_ext _ _ _ _ Hwl),
          (read_array_ext _ _ _ _ Hb).
  unfold read_array. rewrite Ha.
  rewrite !length_app. cbn [length].
  replace (length (heap w) + 1 + 1) with (length (heap w) + 2) by lia.
  replace (length (heap w) + 2 + 1) with (length (heap w) + 3) by lia.
  replace (length (heap w) + 3 + 1) with (length (heap w) + 4) by lia.
  destruct w; reflexivity.
Qed.

Ltac wsimpl :=
  cbv [heap promises microtasks api_log published invoked _cache_logs
       _cache_overview _cache_lists _online _lists _players _commands
       set_heap set_promises set_microtasks set_api_log set_published
       set_invoked set_cache_logs set_cache_overview set_cache_lists set_lists
       set_players set_commands fst snd].

Ltac wsimpl_in H :=
  cbv [heap promises microtasks api_log published invoked _cache_logs
       _cache_overview _cache_lists _online _lists _players _commands
       set_heap set_promises set_microtasks set_api_log set_published
       set_invoked set_cache_logs set_cache_overview set_cache_lists set_lists
       set_players set_commands fst snd] in H.

Ltac wcbn :=
  cbn [heap promises microtasks api_log published invoked _cache_logs
       _cache_overview _cache_lists _online _lists _players _commands
       set_heap set_promises set_microtasks set_api_log set_published
       set_invoked set_cache_logs set_cache_overview set_cache_lists set_lists
       set_players set_commands fst snd].

Lemma setLists_submits (w : World) (lists : PartialLists) (c cur a m wl b : nat)
    (A M WL B : list string) :
  microtasks w = [] →
  _cache_lists w = Some c →
  promises w !! c = Some (Settled (Fulfilled (VRef cur))) →
  heap w !! cur = Some (OLists a m wl b) →
  heap w !! a = Some (OArray A) → heap w !! m = Some (OArray M) →
  heap w !! wl = Some (OArray WL) → heap w !! b = Some (OArray B) →
  (setLists lists w).1 = length (promises w)
  ∧ drain 2 (setLists lists w).2 = submitted w lists A M WL B.
Proof.
  intros Hmt Hc Hp Hcur Ha Hm Hwl Hb.
  destruct w as [h ps mt al pb iv cl co cs on li pl cm].
  wsimpl_in Hmt; wsimpl_in Hc; wsimpl_in Hp; wsimpl_in Hcur; wsimpl_in Ha;
    wsimpl_in Hm; wsimpl_in Hwl; wsimpl_in Hb. subst mt cs.
  unfold setLists, new_promise, getLists. wsimpl.
  rewrite (then_settled _ c (Fulfilled (VRef cur)))
    by (apply lookup_app_l_Some, Hp).
  wsimpl. split; [reflexivity|].
  rewrite length_app. cbn [length app].
  erewrite (subscribe_at _ ps [Pending []; Pending []] _ 1);
    [|wsimpl; rewrite <- app_assoc; reflexivity|reflexivity|reflexivity].
  cbn [drain]. wsimpl. cbn [run_task apply_callback insert list_insert app].
  erewrite (copy_lists_at _ cur a m wl b A M WL B);
    [|exact Hcur|exact Ha|exact Hm|exact Hwl|exact Hb].
  wsimpl.
  erewrite (settle_at _ ps _ _ 1); [|reflexivity|reflexivity|reflexivity].
  wsimpl. cbn [map app insert list_insert run_task]. wsimpl.
  rewrite (lookup_app_plus h _ (length h + 4) 4 eq_refl).
  unfold copied_lists at 1. cbn [lookup list_lookup].
  unfold alloc, api_call, new_promise. wsimpl.
  erewrite (subscribe_at _ ps _ _ 2);
    [|wsimpl; rewrite <- app_assoc; reflexivity
     |rewrite length_app; cbn [length]; reflexivity|reflexivity].
  unfold submitted, merge_lists. wsimpl. cbn [insert list_insert app].
  rewrite !length_app. unfold copied_lists. cbn [length app].
  rewrite <- !app_assoc. reflexivity.
Qed.

Lemma drain_submit_failed (w : World) (lists : PartialLists) (A M WL B : list string)
    (e : string) :
  microtasks w = [] →
  drain 1 (reject (length (promises w) + 2) e (submitted w lists A M WL B))
  = submit_failed w lists A M WL B e.
Proof.
  intros Hmt. destruct w as [h ps mt al pb iv cl co cs on li pl cm].
  wsimpl_in Hmt. subst mt. unfold reject, submitted. wsimpl.
  erewrite (settle_at _ ps _ _ 2); [|reflexivity|reflexivity|reflexivity].
  cbn [drain]. wsimpl. cbn [map app insert list_insert run_task].
  erewrite (settle_at _ ps _ _ 0); [|reflexivity|lia|reflexivity].
  unfold submit_failed, submitted. wsimpl. reflexivity.
Qed.

Lemma getLists_refresh (w : World) :
  getLists true w = then_ (fetch_lists w).1 CbListsCopy (fetch_lists w).2.
Proof.
  unfold getLists. destruct (_cache_lists w); destruct (fetch_lists w); reflexivity.
Qed.

Lemma drain_refreshing (w : World) (lists : PartialLists) (A M WL B : list string) :
  microtasks w = [] →
  drain 1 (resolve_void (length (promises w) + 2) (submitted w lists A M WL B))
  = refreshing w lists A M WL B.
Proof.
  intros Hmt. destruct w as [h ps mt al pb iv cl co cs on li pl cm].
  wsimpl_in Hmt. subst mt. unfold resolve_void, submitted. wsimpl.
  erewrite (settle_at _ ps _ _ 2); [|reflexivity|reflexivity|reflexivity].
  cbn [drain]. wsimpl. cbn [map app insert list_insert run_task].
  rewrite getLists_refresh. unfold fetch_lists, api_call, new_promise. wsimpl.
  rewrite !length_app. cbn [length].
  erewrite (then_at _ ps _ _ 3 _ CbListsLoaded);
    [|wsimpl; rewrite <- app_assoc; reflexivity|reflexivity|reflexivity].
  wsimpl. cbn [length app insert list_insert].
  erewrite (then_at _ ps _ _ 4 _ CbListsCopy); [|reflexivity|reflexivity|reflexivity].
  wsimpl. cbn [length app insert list_insert].
  erewrite (subscribe_at _ ps _ _ 5); [|reflexivity|reflexivity|reflexivity].
  unfold refreshing, submitted. wsimpl. cbn [app insert list_insert].
  rewrite <- app_assoc. reflexivity.
Qed.

Lemma copied_lists_lookup (h ext : list Obj) (A M WL B : list string) :
  (h ++ copied_lists (length h) A M WL B ++ ext) !! (length h + 4)
  = Some (OLists (length h) (length h + 1) (length h + 2) (length h + 3))
  ∧ (h ++ copied_lists (length h) A M WL B ++ ext) !! length h = Some (OArray A)
  ∧ (h ++ copied_lists (length h) A M WL B ++ ext) !! (length h + 1) = Some (OArray M)
  ∧ (h ++ copied_lists (length h) A M WL B ++ ext) !! (length h + 2) = Some (OArray WL)
  ∧ (h ++ copied_lists (length h) A M WL B ++ ext) !! (length h + 3) = Some (OArray B).
Proof.
  repeat split.
  - rewrite (lookup_app_plus _ _ _ 4) by reflexivity. reflexivity.
  - rewrite (lookup_app_plus _ _ _ 0) by lia. reflexivity.
  - rewrite (lookup_app_plus _ _ _ 1) by reflexivity. reflexivity.
  - rewrite (lookup_app_plus _ _ _ 2) by reflexivity. reflexivity.
  - rewrite (lookup_app_plus _ _ _ 3) by reflexivity. reflexivity.
Qed.

Lemma read_lists_copied (h ext : list Obj) (A M WL B : list string) :
  read_lists (h ++ copied_lists (length h) A M WL B ++ ext) (length h + 4)
  = Some (A, M, WL, B).
Proof.
  destruct (copied_lists_lookup h ext A M WL B) as (Hl & Ha & Hm & Hwl & Hb).
  unfold read_lists, read_array. rewrite Hl, Ha, Hm, Hwl, Hb. reflexivity.
Qed.

Lemma getLists_cached_read (w : World) (c l a m wl b : nat) (A M WL B : list string) :
  microtasks w = [] →
  _cache_lists w = Some c →
  promises w !! c = Some (Settled (Fulfilled (VRef l))) →
  heap w !! l = Some (OLists a m wl b) →
  heap w !! a = Some (OArray A) → heap w !! m = Some (OArray M) →
  heap w !! wl = Some (OArray WL) → heap w !! b = Some (OArray B) →
  (getLists false w).1 = length (promises w)
  ∧ drain 1 (getLists false w).2
    = set_heap (heap w ++ copied_lists (length (heap w)) A M WL B)
        (set_promises
           (promises w ++ [Settled (Fulfilled (VRef (length (heap w) + 4)))]) w).
Proof.
  intros Hmt Hc Hp Hl Ha Hm Hwl Hb.
  destruct w as [h ps mt al pb iv cl co cs on li pl cm].
  wsimpl_in Hmt; wsimpl_in Hc; wsimpl_in Hp; wsimpl_in Hl; wsimpl_in Ha;
    wsimpl_in Hm; wsimpl_in Hwl; wsimpl_in Hb. subst mt cs.
  unfold getLists. wsimpl.
  rewrite (then_settled _ c (Fulfilled (VRef l))) by exact Hp.
  wsimpl. split; [reflexivity|].
  cbn [drain]. wsimpl. cbn [app run_task apply_callback].
  erewrite (copy_lists_at _ l a m wl b A M WL B);
    [|exact Hl|exact Ha|exact Hm|exact Hwl|exact Hb].
  wsimpl.
  erewrite (settle_at _ ps _ _ 0); [|reflexivity|lia|reflexivity].
  wsimpl. reflexivity.
Qed.

Lemma drain_cons (n : nat) (w : World) (t : Cont * Outcome)
    (rest : list (Cont * Outcome)) :
  microtasks w = t :: rest →
  drain (S n) w = drain n (run_task t (set_microtasks rest w)).
Proof. intros Hmt. cbn [drain]. rewrite Hmt. reflexivity. Qed.

Ltac nsimpl := rewrite <- ?Nat.add_assoc; cbn [Nat.add length app].

Lemma drain_refreshed (w : World) (lists : PartialLists) (A M WL B : list string)
    (A' M' WL' B' : list string) :
  microtasks w = [] →
  drain 3 (resolve_lists (length (promises w) + 3) A' M' WL' B'
             (refreshing w lists A M WL B))
  = refreshed w lists A M WL B A' M' WL' B'.
Proof.
  intros Hmt. destruct w as [h ps mt al pb iv cl co cs on li pl cm].
  wsimpl_in Hmt. subst mt.
  unfold resolve_lists, alloc, refreshing, submitted, copied_lists. wsimpl.
  rewrite <- !app_assoc, !length_app. nsimpl.
  erewrite (settle_at _ ps _ _ 3); [|reflexivity|reflexivity|reflexivity].
  wsimpl. cbn [map app insert list_insert].
  erewrite drain_cons; [|reflexivity].
  wsimpl. cbn [run_task apply_callback]. wsimpl.
  erewrite (settle_at _ ps _ _ 4); [|reflexivity|reflexivity|reflexivity].
  wsimpl. cbn [map app insert list_insert].
  erewrite drain_cons; [|reflexivity].
  wsimpl. cbn [run_task apply_callback].
  erewrite (copy_lists_at _ _ _ _ _ _ A' M' WL' B').
  2:{ wsimpl. rewrite (lookup_app_plus h _ (length h + 10) 10 eq_refl). reflexivity. }
  2:{ wsimpl. rewrite (lookup_app_plus h _ (length h + 6) 6 eq_refl). reflexivity. }
  2:{ wsimpl. rewrite (lookup_app_plus h _ (length h + 7) 7 eq_refl). reflexivity. }
  2:{ wsimpl. rewrite (lookup_app_plus h _ (length h + 8) 8 eq_refl). reflexivity. }
  2:{ wsimpl. rewrite (lookup_app_plus h _ (length h + 9) 9 eq_refl). reflexivity. }
  wsimpl. rewrite !length_app. nsimpl.
  erewrite (settle_at _ ps _ _ 5); [|reflexivity|reflexivity|reflexivity].
  wsimpl. cbn [map app insert list_insert].
  erewrite drain_cons; [|reflexivity].
  wsimpl. cbn [run_task drain].
  erewrite (settle_at _ ps _ _ 0); [|reflexivity|lia|reflexivity].
  unfold refreshed, refreshing, submitted, copied_lists. wsimpl.
  rewrite <- !app_assoc. nsimpl. cbn [map insert list_insert]. reflexivity.
Qed.

Lemma getLists_cached_lists_read (w : World) (c l a m wl b : nat)
    (A M WL B : list string) :
  microtasks w = [] →
  _cache_lists w = Some c →
  promises w !! c = Some (Settled (Fulfilled (VRef l))) →
  heap w !! l = Some (OLists a m wl b) →
  heap w !! a = Some (OArray A) → heap w !! m = Some (OArray M) →
  heap w !! wl = Some (OArray WL) → heap w !! b = Some (OArray B) →
  lists_read (getLists false w).1 (drain 1 (getLists false w).2) = Some (A, M, WL, B)
  ∧ api_log (drain 1 (getLists false w).2) = api_log w
  ∧ _cache_lists (drain 1 (getLists false w).2) = Some c.
Proof.
  intros Hmt Hc Hp Hl Ha Hm Hwl Hb.
  destruct (getLists_cached_read w c l a m wl b A M WL B Hmt Hc Hp Hl Ha Hm Hwl Hb)
    as [-> ->].
  split; [|split; [reflexivity | exact Hc]].
  unfold lists_read, result_of, outcome_of. wcbn.
  rewrite (lookup_app_plus _ _ _ 0) by lia. cbn [lookup list_lookup mbind option_bind].
  rewrite <- (app_nil_r (copied_lists _ A M WL B)). apply read_lists_copied.
Qed.

(** X27.  What [getLists] returns is made of new cells only: whatever a caller does
    to the heap, as long as the cells that existed before the read are left
    alone, the next plain read returns the same lists. *)
Lemma getLists_defensive_copy (w : World) (c l a m wl b : nat)
    (A M WL B : list string) :
  microtasks w = [] →
  _cache_lists w = Some c →
  promises w !! c = Some (Settled (Fulfilled (VRef l))) →
  heap w !! l = Some (OLists a m wl b) →
  heap w !! a = Some (OArray A) → heap w !! m = Some (OArray M) →
  heap w !! wl = Some (OArray WL) → heap w !! b = Some (OArray B) →
  let nh := length (heap w) in
  let w' := drain 1 (getLists false w).2 in
  result_of (getLists false w).1 w' = Some (nh + 4)
  ∧ heap w' !! (nh + 4) = Some (OLists nh (nh + 1) (nh + 2) (nh + 3))
  ∧ ∀ h'',
      (∀ t o, heap w !! t = Some o → h'' !! t = Some o) →
      lists_read (getLists false (set_heap h'' w')).1
                 (drain 1 (getLists false (set_heap h'' w')).2)
      = Some (A, M, WL, B).
Proof.
  intros Hmt Hc Hp Hl Ha Hm Hwl Hb. cbv zeta.
  destruct (getLists_cached_read w c l a m wl b A M WL B Hmt Hc Hp Hl Ha Hm Hwl Hb)
    as [-> ->].
  split.
  { unfold result_of, outcome_of. wcbn.
    rewrite (lookup_app_plus _ _ _ 0) by lia. reflexivity. }
  split.
  { wcbn. rewrite <- (app_nil_r (copied_lists _ A M WL B)).
    apply (copied_lists_lookup (heap w) [] A M WL B). }
  intros h'' Hkept.
  apply (getLists_cached_lists_read _ c l a m wl b A M WL B);
    [exact Hmt | exact Hc | | apply (Hkept _ _ Hl) | apply (Hkept _ _ Ha)
    | apply (Hkept _ _ Hm) | apply (Hkept _ _ Hwl) | apply (Hkept _ _ Hb)].
  wcbn. apply lookup_app_l_Some, Hp.
Qed.

Lemma pick_read (h ext : list Obj) (given : option nat) (p k : nat)
    (cached : list string) :
  (∀ l, given = Some l → l < length h) →
  p = length h + k →
  ext !! k = Some (OArray cached) →
  read_array (h ++ ext) (default p given) = pick h given cached.
Proof.
  intros Hg Hp Hk. destruct given as [l|]; cbn [default pick].
  - apply read_array_app_l, Hg. reflexivity.
  - unfold read_array. rewrite (lookup_app_plus _ _ _ k Hp), Hk. reflexivity.
Qed.

(** C5.  From a World whose lists slot holds loaded lists, [setLists]
    submits, in one call on the remote API, the lists it was given and the
    cached ones for those it was not given.  When the remote rejects the
    submission, the promise of [setLists] is rejected, nothing more is sent,
    and the slot, the cached lists and [_lists] are as before, so the next
    plain read returns the lists from before the call.  When it accepts, a
    fetch is forced and the next plain read returns what the remote answered
    to it. *)
Theorem setLists_merge_and_atomicity (w : World) (lists : PartialLists)
    (c cur a m wl b : nat) (A M WL B : list string) :
  microtasks w = [] →
  _cache_lists w = Some c →
  promises w !! c = Some (Settled (Fulfilled (VRef cur))) →
  heap w !! cur = Some (OLists a m wl b) →
  heap w !! a = Some (OArray A) → heap w !! m = Some (OArray M) →
  heap w !! wl = Some (OArray WL) → heap w !! b = Some (OArray B) →
  partial_allocated lists (heap w) →
  let np := length (promises w) in
  let nh := length (heap w) in
  let r := (setLists lists w).1 in
  let w1 := drain 2 (setLists lists w).2 in
  api_log w1 = api_log w ++ [ApiSetLists (nh + 5) (np + 2)]
  ∧ read_lists (heap w1) (nh + 5)
    = Some (pick (heap w) (p_adminlist lists) A, pick (heap w) (p_modlist lists) M,
            pick (heap w) (p_whitelist lists) WL, pick (heap w) (p_blacklist lists) B)
  ∧ outcome_of r w1 = None
  ∧ (∀ e,
       let w2 := drain 1 (reject (np + 2) e w1) in
       outcome_of r w2 = Some (Rejected e)
       ∧ api_log w2 = api_log w1
       ∧ _cache_lists w2 = Some c
       ∧ outcome_of c w2 = Some (Fulfilled (VRef cur))
       ∧ read_lists (heap w2) cur = Some (A, M, WL, B)
       ∧ _lists w2 = _lists w
       ∧ lists_read (getLists false w2).1 (drain 1 (getLists false w2).2)
         = Some (A, M, WL, B))
  ∧ (let w2 := drain 1 (resolve_void (np + 2) w1) in
     api_log w2 = api_log w1 ++ [ApiGetLists (np + 3)]
     ∧ ∀ A' M' WL' B',
         let w3 := drain 3 (resolve_lists (np + 3) A' M' WL' B' w2) in
         outcome_of r w3 = Some (Fulfilled VUndefined)
         ∧ read_lists (heap w3) (_lists w3) = Some (A', M', WL', B')
         ∧ lists_read (getLists false w3).1 (drain 1 (getLists false w3).2)
           = Some (A', M', WL', B')
         ∧ api_log (drain 1 (getLists false w3).2) = api_log w2).
Proof.
  intros Hmt Hc Hp Hcur Ha Hm Hwl Hb Hgiven. cbv zeta.
  destruct (setLists_submits w lists c cur a m wl b A M WL B Hmt Hc Hp Hcur Ha Hm Hwl Hb)
    as [-> ->].
  assert (c < length (promises w)) as Hclt by (eapply lookup_lt_Some, Hp).
  split; [reflexivity|]. split.
  { unfold read_lists, submitted. wcbn.
    rewrite (lookup_app_plus _ _ (length (heap w) + 5) 5 eq_refl).
    unfold copied_lists. cbn [app lookup list_lookup].
    erewrite (pick_read (heap w) _ (p_adminlist lists) _ 0);
      [|intros l Hl; apply Hgiven; rewrite <- Hl; set_solver|lia|reflexivity].
    erewrite (pick_read (heap w) _ (p_modlist lists) _ 1);
      [|intros l Hl; apply Hgiven; rewrite <- Hl; set_solver|lia|reflexivity].
    erewrite (pick_read (heap w) _ (p_whitelist lists) _ 2);
      [|intros l Hl; apply Hgiven; rewrite <- Hl; set_solver|lia|reflexivity].
    erewrite (pick_read (heap w) _ (p_blacklist lists) _ 3);
      [|intros l Hl; apply Hgiven; rewrite <- Hl; set_solver|lia|reflexivity].
    reflexivity. }
  split.
  { unfold outcome_of, submitted. wcbn.
    rewrite (lookup_app_plus _ _ _ 0) by lia. reflexivity. }
  assert (cur < length (heap w)) as Hcurlt by (eapply lookup_lt_Some, Hcur).
  split.
  { intros e. rewrite (drain_submit_failed w lists A M WL B e Hmt).
    assert (promises (submit_failed w lists A M WL B e) !! c
            = Some (Settled (Fulfilled (VRef cur)))) as Hp'.
    { unfold submit_failed. wcbn. apply lookup_app_l_Some, Hp. }
    assert (∀ l o, heap w !! l = Some o →
                   heap (submit_failed w lists A M WL B e) !! l = Some o) as Hold.
    { intros l o Hl. unfold submit_failed, submitted. wcbn.
      apply lookup_app_l_Some, Hl. }
    split.
    { unfold outcome_of, submit_failed. wcbn.
      rewrite (lookup_app_plus _ _ _ 0) by lia. reflexivity. }
    split; [reflexivity|]. split; [exact Hc|]. split.
    { unfold outcome_of. rewrite Hp'. reflexivity. }
    split.
    { unfold read_lists, read_array.
      rewrite (Hold _ _ Hcur), (Hold _ _ Ha), (Hold _ _ Hm), (Hold _ _ Hwl), (Hold _ _ Hb).
      reflexivity. }
    split; [reflexivity|].
    apply (getLists_cached_lists_read _ c cur a m wl b A M WL B);
      [exact Hmt | exact Hc | exact Hp' | apply Hold, Hcur | apply Hold, Ha
      | apply Hold, Hm | apply Hold, Hwl | apply Hold, Hb]. }
  rewrite (drain_refreshing w lists A M WL B Hmt).
  split; [unfold refreshing, submitted; wcbn; rewrite <- app_assoc; reflexivity|].
  intros A' M' WL' B'.
  rewrite (drain_refreshed w lists A M WL B A' M' WL' B' Hmt).
  set (h1 := heap w ++ copied_lists (length (heap w)) A M WL B
                    ++ [OLists (default (length (heap w)) (p_adminlist lists))
                               (default (length (heap w) + 1) (p_modlist lists))
                               (default (length (heap w) + 2) (p_whitelist lists))
                               (default (length (heap w) + 3) (p_blacklist lists))]).
  assert (heap (refreshed w lists A M WL B A' M' WL' B')
          = h1 ++ copied_lists (length (heap w) + 6) A' M' WL' B'
               ++ copied_lists (length (heap w) + 11) A' M' WL' B') as Hheap
    by reflexivity.
  assert (length h1 = length (heap w) + 6) as Hlen.
  { unfold h1. rewrite !length_app. unfold copied_lists. cbn [length]. lia. }
  pose proof (copied_lists_lookup h1 (copied_lists (length (heap w) + 11) A' M' WL' B')
                A' M' WL' B') as Hcopy.
  rewrite Hlen, <- Hheap in Hcopy.
  replace (length (heap w) + 6 + 4) with (length (heap w) + 10) in Hcopy by lia.
  destruct Hcopy as (Hl' & Ha' & Hm' & Hwl' & Hb').
  split.
  { unfold outcome_of, refreshed. wcbn.
    rewrite (lookup_app_plus _ _ _ 0) by lia. reflexivity. }
  split.
  { change (_lists (refreshed w lists A M WL B A' M' WL' B')) with (length (heap w) + 10).
    unfold read_lists, read_array. rewrite Hl', Ha', Hm', Hwl', Hb'. reflexivity. }
  destruct (getLists_cached_lists_read (refreshed w lists A M WL B A' M' WL' B')
              (length (promises w) + 4) (length (heap w) + 10)
              (length (heap w) + 6) (length (heap w) + 6 + 1) (length (heap w) + 6 + 2)
              (length (heap w) + 6 + 3) A' M' WL' B')
    as (Hread & Hlog & _); [exact Hmt | reflexivity | | exact Hl' | exact Ha'
                           | exact Hm' | exact Hwl' | exact Hb' |].
  { unfold refreshed. wcbn.
    rewrite (lookup_app_plus _ _ _ 4) by reflexivity. reflexivity. }
  split; [exact Hread|]. rewrite Hlog. reflexivity.
Qed.

Lemma NewAdmins_allocated :
  partial_allocated NewAdmins.update (heap NewAdmins.world).
Proof.
  intros l Hl. change (length (heap NewAdmins.world)) with 17.
  repeat (apply elem_of_cons in Hl as [Hl | Hl]; [inversion Hl; lia|]).
  inversion Hl.
Defined.

Lemma setLists_merge_and_atomicity_witness :
  microtasks NewAdmins.world = []
  ∧ _cache_lists NewAdmins.world = Some 4
  ∧ outcome_of 4 NewAdmins.world = Some (Fulfilled (VRef 10))
  ∧ read_lists (heap NewAdmins.world) 10 = Some (["ADMIN"], ["MOD"], ["WHITE"], ["BLACK"])
  ∧ partial_allocated NewAdmins.update (heap NewAdmins.world)
  ∧ read_lists (heap (drain 2 (setLists NewAdmins.update NewAdmins.world).2))
               (length (heap NewAdmins.world) + 5)
    = Some (pick (heap NewAdmins.world) (p_adminlist NewAdmins.update) ["ADMIN"],
            pick (heap NewAdmins.world) (p_modlist NewAdmins.update) ["MOD"],
            pick (heap NewAdmins.world) (p_whitelist NewAdmins.update) ["WHITE"],
            pick (heap NewAdmins.world) (p_blacklist NewAdmins.update) ["BLACK"]).
Proof.
  assert (microtasks NewAdmins.world = []) as Hmt by (vm_compute; reflexivity).
  assert (_cache_lists NewAdmins.world = Some 4) as Hc by (vm_compute; reflexivity).
  assert (promises NewAdmins.world !! 4 = Some (Settled (Fulfilled (VRef 10)))) as Hp
    by (vm_compute; reflexivity).
  assert (heap NewAdmins.world !! 10 = Some (OLists 6 7 8 9)) as Hcur
    by (vm_compute; reflexivity).
  assert (heap NewAdmins.world !! 6 = Some (OArray ["ADMIN"])) as Ha
    by (vm_compute; reflexivity).
  assert (heap NewAdmins.world !! 7 = Some (OArray ["MOD"])) as Hm
    by (vm_compute; reflexivity).
  assert (heap NewAdmins.world !! 8 = Some (OArray ["WHITE"])) as Hwl
    by (vm_compute; reflexivity).
  assert (heap NewAdmins.world !! 9 = Some (OArray ["BLACK"])) as Hb
    by (vm_compute; reflexivity).
  destruct (setLists_merge_and_atomicity NewAdmins.world NewAdmins.update 4 10 6 7 8 9
              ["ADMIN"] ["MOD"] ["WHITE"] ["BLACK"]
              Hmt Hc Hp Hcur Ha Hm Hwl Hb NewAdmins_allocated) as (_ & Hmerged & _).
  split; [exact Hmt|]. split; [exact Hc|].
  split; [vm_compute; reflexivity|]. split; [vm_compute; reflexivity|].
  split; [exact NewAdmins_allocated | exact Hmerged].
Defined.

(** The same call, evaluated: only the admin list is given; the three other
    lists of the submission are the cached ones; after a rejected submission
    the slot and the cached lists are as before; after an accepted one the
    next [getLists()] returns what the remote answered to the forced fetch. *)
Example setLists_new_admins :
  api_log (drain 2 (setLists NewAdmins.update NewAdmins.world).2)
  = [ApiGetOverview 0; ApiGetLists 3; ApiSetLists 22 8]
  ∧ read_lists (heap (drain 2 (setLists NewAdmins.update NewAdmins.world).2)) 22
    = Some (["ALICE"; "BOB"], ["MOD"], ["WHITE"], ["BLACK"])
  ∧ outcome_of 6 (drain 1 (reject 8 "denied"
                             (drain 2 (setLists NewAdmins.update NewAdmins.world).2)))
    = Some (Rejected "denied")
  ∧ read_lists (heap (drain 1 (reject 8 "denied"
                                 (drain 2 (setLists NewAdmins.update NewAdmins.world).2))))
               10
    = Some (["ADMIN"], ["MOD"], ["WHITE"], ["BLACK"])
  ∧ api_log (drain 3 (resolve_lists 9 ["ALICE"; "BOB"] ["MOD"] ["WHITE"] ["BLACK"]
                        (drain 1 (resolve_void 8
                           (drain 2 (setLists NewAdmins.update NewAdmins.world).2)))))
    = [ApiGetOverview 0; ApiGetLists 3; ApiSetLists 22 8; ApiGetLists 9].
Proof. vm_compute. repeat split. Qed.

(** From a World that has not loaded its lists yet, [setLists] first sends
    the fetch of [getLists()], and submits the merge once that fetch has
    been answered. *)
Example setLists_fetches_first :
  api_log (setLists (mkPartial (Some 6) None None None)
             (alloc (OArray ["ALICE"]) (initial ∅)).2).2
  = [ApiGetLists 1]
  ∧ api_log (drain 3 (resolve_lists 1 ["ADMIN"] ["MOD"] [] []
                        (setLists (mkPartial (Some 6) None None None)
                           (alloc (OArray ["ALICE"]) (initial ∅)).2).2))
    = [ApiGetLists 1; ApiSetLists 17 4]
  ∧ read_lists (heap (drain 3 (resolve_lists 1 ["ADMIN"] ["MOD"] [] []
                                 (setLists (mkPartial (Some 6) None None None)
                                    (alloc (OArray ["ALICE"]) (initial ∅)).2).2)))
               17
    = Some (["ALICE"], ["MOD"], [], []).
Proof. vm_compute. repeat split. Qed.

(** * What every step preserves *)

(** A relation between the state before and the state after that is
    reflexive and transitive and that the primitive operations respect is
    respected by every method, by every microtask and by every run. *)

Section Preserved.
Variable R : World → World → Prop.
Hypothesis R_refl : ∀ w, R w w.
Hypothesis R_trans : ∀ w1 w2 w3, R w1 w2 → R w2 w3 → R w1 w3.
Hypothesis R_alloc : ∀ o w, R w (alloc o w).2.
Hypothesis R_new_promise : ∀ w, R w (new_promise w).2.
Hypothesis R_subscribe : ∀ p k w, R w (subscribe p k w).
Hypothesis R_settle : ∀ p o w, R w (settle p o w).
Hypothesis R_microtasks : ∀ x w, R w (set_microtasks x w).
Hypothesis R_api_log : ∀ x w, R w (set_api_log x w).
Hypothesis R_published : ∀ x w, R w (set_published x w).
Hypothesis R_invoked : ∀ x w, R w (set_invoked x w).
Hypothesis R_cache_logs : ∀ x w, R w (set_cache_logs x w).
Hypothesis R_cache_overview : ∀ x w, R w (set_cache_overview x w).
Hypothesis R_cache_lists : ∀ x w, R w (set_cache_lists x w).
Hypothesis R_lists : ∀ x w, R w (set_lists x w).
Hypothesis R_commands : ∀ x w, R w (set_commands x w).
Hypothesis R_overview_loaded : ∀ ov w, R w (overview_loaded ov w).
Hypothesis R_join : ∀ name address w, R w (onJoin_handler name address w).

(** What holds of the state of a pair holds after the continuation. *)
Lemma kept_bind {A B} (w : World) (x : A * World) (k : A → World → B * World) :
  R w x.2 → (∀ a w1, R w1 (k a w1).2) → R w (let (a, w1) := x in k a w1).2.
Proof.
  destruct x as [a w1]. cbn [snd]. intros H Hk.
  eapply R_trans; [exact H | apply Hk].
Qed.

Lemma kept_then (p : nat) (f : Callback) (w : World) : R w (then_ p f w).2.
Proof.
  unfold then_.
  apply (kept_bind w (new_promise w) (λ q w1, (q, subscribe p (KThen f q) w1)));
    [apply R_new_promise | intros q w1; apply R_subscribe].
Qed.

Lemma kept_api_call (c : nat → ApiCall) (w : World) : R w (api_call c w).2.
Proof.
  unfold api_call.
  apply (kept_bind w (new_promise w)
           (λ p w1, (p, set_api_log (api_log w1 ++ [c p]) w1)));
    [apply R_new_promise | intros p w1; apply R_api_log].
Qed.

Lemma kept_copy_overview (l : nat) (w : World) : R w (copy_overview l w).2.
Proof.
  unfold copy_overview. destruct (heap w !! l) as [[| own onl | | |]|];
    try apply R_refl.
  apply (kept_bind w (alloc (OOverview own onl) w) (λ l' w1, (VRef l', w1)));
    [apply R_alloc | intros; apply R_refl].
Qed.

Lemma kept_copy_lists (l : nat) (w : World) : R w (copy_lists l w).2.
Proof.
  unfold copy_lists. destruct (heap w !! l) as [[| | a m wl b | |]|];
    try apply R_refl.
  apply (kept_bind w (alloc _ w)
           (λ a' w1, let (m', w2) := alloc (OArray (read_array (heap w1) m)) w1 in
                     let (wl', w3) := alloc (OArray (read_array (heap w2) wl)) w2 in
                     let (b', w4) := alloc (OArray (read_array (heap w3) b)) w3 in
                     let (l', w5) := alloc (OLists a' m' wl' b') w4 in
                     (VRef l', w5))); [apply R_alloc|].
  intros a' w1.
  apply (kept_bind w1 (alloc _ w1)
           (λ m' w2, let (wl', w3) := alloc (OArray (read_array (heap w2) wl)) w2 in
                     let (b', w4) := alloc (OArray (read_array (heap w3) b)) w3 in
                     let (l', w5) := alloc (OLists a' m' wl' b') w4 in
                     (VRef l', w5))); [apply R_alloc|].
  intros m' w2.
  apply (kept_bind w2 (alloc _ w2)
           (λ wl' w3, let (b', w4) := alloc (OArray (read_array (heap w3) b)) w3 in
                     let (l', w5) := alloc (OLists a' m' wl' b') w4 in
                     (VRef l', w5))); [apply R_alloc|].
  intros wl' w3.
  apply (kept_bind w3 (alloc _ w3)
           (λ b' w4, let (l', w5) := alloc (OLists a' m' wl' b') w4 in
                     (VRef l', w5))); [apply R_alloc|].
  intros b' w4.
  apply (kept_bind w4 (alloc _ w4) (λ l' w5, (VRef l', w5)));
    [apply R_alloc | intros; apply R_refl].
Qed.

Lemma kept_copy_entries (entries : list nat) :
  ∀ w, R w (copy_entries entries w).2.
Proof.
  induction entries as [|e rest IH]; intros w; [apply R_refl|].
  cbn [copy_entries].
  apply (kept_bind w _ (λ e' w1, let (rest', w2) := copy_entries rest w1 in
                                 (e' :: rest', w2))).
  - destruct (heap w !! e) as [[| | | props |]|]; try apply R_refl. apply R_alloc.
  - intros e' w1.
    apply (kept_bind w1 (copy_entries rest w1) (λ rest' w2, (e' :: rest', w2)));
      [apply IH | intros; apply R_refl].
Qed.

Lemma kept_copy_logs (l : nat) (w : World) : R w (copy_logs l w).2.
Proof.
  unfold copy_logs. destruct (heap w !! l) as [[| | | | entries]|];
    try apply R_refl.
  apply (kept_bind w (alloc (OLogs entries) w)
           (λ _ w1, let (copies, w2) := copy_entries entries w1 in
                    let (l', w3) := alloc (OLogs copies) w2 in (VRef l', w3)));
    [apply R_alloc|].
  intros _ w1.
  apply (kept_bind w1 (copy_entries entries w1)
           (λ copies w2, let (l', w3) := alloc (OLogs copies) w2 in (VRef l', w3)));
    [apply kept_copy_entries|].
  intros copies w2.
  apply (kept_bind w2 (alloc (OLogs copies) w2) (λ l' w3, (VRef l', w3)));
    [apply R_alloc | intros; apply R_refl].
Qed.

Lemma kept_apply_callback (f : Callback) (v : Value) (w : World) :
  R w (apply_callback f v w).2.
Proof.
  destruct v as [|l]; [apply R_refl|]. destruct f; cbn [apply_callback snd].
  - apply R_overview_loaded.
  - apply kept_copy_overview.
  - apply R_lists.
  - apply kept_copy_lists.
  - apply kept_copy_logs.
Qed.

Lemma kept_fetch_overview (w : World) : R w (fetch_overview w).2.
Proof.
  unfold fetch_overview.
  apply (kept_bind w (api_call ApiGetOverview w)
           (λ p w1, let (c, w2) := then_ p CbOverviewLoaded w1 in
                    (c, set_cache_overview (Some c) w2))); [apply kept_api_call|].
  intros p w1.
  apply (kept_bind w1 (then_ p CbOverviewLoaded w1)
           (λ c w2, (c, set_cache_overview (Some c) w2)));
    [apply kept_then | intros; apply R_cache_overview].
Qed.

Lemma kept_fetch_lists (w : World) : R w (fetch_lists w).2.
Proof.
  unfold fetch_lists.
  apply (kept_bind w (api_call ApiGetLists w)
           (λ p w1, let (c, w2) := then_ p CbListsLoaded w1 in
                    (c, set_cache_lists (Some c) w2))); [apply kept_api_call|].
  intros p w1.
  apply (kept_bind w1 (then_ p CbListsLoaded w1)
           (λ c w2, (c, set_cache_lists (Some c) w2)));
    [apply kept_then | intros; apply R_cache_lists].
Qed.

Lemma kept_fetch_logs (w : World) : R w (fetch_logs w).2.
Proof.
  unfold fetch_logs.
  apply (kept_bind w (api_call ApiGetLogs w) (λ p w1, (p, set_cache_logs (Some p) w1)));
    [apply kept_api_call | intros; apply R_cache_logs].
Qed.

(** A plain read of a filled overview slot. *)
Lemma kept_getOverview_cached (w : World) (c : nat) :
  _cache_overview w = Some c → R w (getOverview false w).2.
Proof. intros Hc. unfold getOverview. rewrite Hc. apply kept_then. Qed.

Lemma kept_getOverview (refresh : bool) (w : World) : R w (getOverview refresh w).2.
Proof.
  unfold getOverview.
  apply (kept_bind w _ (λ c w1, then_ c CbOverviewCopy w1)); [|intros; apply kept_then].
  destruct (_cache_overview w) as [c|]; [destruct refresh|];
    solve [apply kept_fetch_overview | apply R_refl].
Qed.

Lemma kept_getLists (refresh : bool) (w : World) : R w (getLists refresh w).2.
Proof.
  unfold getLists.
  apply (kept_bind w _ (λ c w1, then_ c CbListsCopy w1)); [|intros; apply kept_then].
  destruct (_cache_lists w) as [c|]; [destruct refresh|];
    solve [apply kept_fetch_lists | apply R_refl].
Qed.

Lemma kept_getLogs (refresh : bool) (w : World) : R w (getLogs refresh w).2.
Proof.
  unfold getLogs.
  apply (kept_bind w _ (λ c w1, then_ c CbLogsCopy w1)); [|intros; apply kept_then].
  destruct (_cache_logs w) as [c|]; [destruct refresh|];
    solve [apply kept_fetch_logs | apply R_refl].
Qed.

Lemma kept_setLists (lists : PartialLists) (w : World) : R w (setLists lists w).2.
Proof.
  unfold setLists.
  apply (kept_bind w (new_promise w)
           (λ r w1, let (q, w2) := getLists false w1 in
                    (r, subscribe q (KSetLists1 lists r) w2))); [apply R_new_promise|].
  intros r w1.
  apply (kept_bind w1 (getLists false w1) (λ q w2, (r, subscribe q (KSetLists1 lists r) w2)));
    [apply kept_getLists | intros; apply R_subscribe].
Qed.

Lemma kept_let {A} (w : World) (x : A * World) (k : A → World → World) :
  R w x.2 → (∀ a w1, R w1 (k a w1)) → R w (let (a, w1) := x in k a w1).
Proof.
  destruct x as [a w1]. cbn [snd]. intros H Hk.
  eapply R_trans; [exact H | apply Hk].
Qed.

Lemma kept_run_task (t : Cont * Outcome) (w : World) : R w (run_task t w).
Proof.
  destruct t as [[f q | lists r | r | r] [v | e]]; cbn [run_task];
    try apply R_settle.
  - apply (kept_let w (apply_callback f v w) (λ v' w1, settle q (Fulfilled v') w1));
      [apply kept_apply_callback | intros; apply R_settle].
  - destruct v as [|current]; [apply R_refl|].
    destruct (heap w !! current) as [o|]; [|apply R_refl].
    apply (kept_let w (alloc (merge_lists o lists) w)
             (λ merged w1, let (p, w2) := api_call (ApiSetLists merged) w1 in
                           subscribe p (KSetLists2 r) w2)); [apply R_alloc|].
    intros merged w1.
    apply (kept_let w1 (api_call (ApiSetLists merged) w1)
             (λ p w2, subscribe p (KSetLists2 r) w2));
      [apply kept_api_call | intros; apply R_subscribe].
  - apply (kept_let w (getLists true w) (λ q w1, subscribe q (KSetLists3 r) w1));
      [apply kept_getLists | intros; apply R_subscribe].
Qed.

Lemma kept_drain (fuel : nat) : ∀ w, R w (drain fuel w).
Proof.
  induction fuel as [|fuel IH]; intros w; [apply R_refl|].
  cbn [drain]. destruct (microtasks w) as [|t rest]; [apply R_refl|].
  eapply R_trans; [apply (R_microtasks rest)|].
  eapply R_trans; [apply kept_run_task | apply IH].
Qed.

Lemma kept_alloc_entries (entries : list (list (string * string))) :
  ∀ w, R w (alloc_entries entries w).2.
Proof.
  induction entries as [|props rest IH]; intros w; [apply R_refl|].
  cbn [alloc_entries].
  apply (kept_bind w (alloc (OLogEntry props) w)
           (λ e w1, let (es, w2) := alloc_entries rest w1 in (e :: es, w2)));
    [apply R_alloc|].
  intros e w1.
  apply (kept_bind w1 (alloc_entries rest w1) (λ es w2, (e :: es, w2)));
    [apply IH | intros; apply R_refl].
Qed.

Lemma kept_remote (r : Remote) (w : World) : R w (remote r w).
Proof.
  destruct r; cbn [remote].
  - unfold resolve_overview.
    apply (kept_let w (alloc (OArray names) w)
             (λ onl w1, let (l, w2) := alloc (OOverview own onl) w1 in
                        settle p (Fulfilled (VRef l)) w2)); [apply R_alloc|].
    intros onl w1.
    apply (kept_let w1 (alloc (OOverview own onl) w1)
             (λ l w2, settle p (Fulfilled (VRef l)) w2));
      [apply R_alloc | intros; apply R_settle].
  - unfold resolve_lists.
    apply (kept_let w (alloc (OArray a) w)
             (λ a' w1, let (m', w2) := alloc (OArray m) w1 in
                       let (wl', w3) := alloc (OArray wl) w2 in
                       let (b', w4) := alloc (OArray b) w3 in
                       let (l, w5) := alloc (OLists a' m' wl' b') w4 in
                       settle p (Fulfilled (VRef l)) w5)); [apply R_alloc|].
    intros a' w1.
    apply (kept_let w1 (alloc (OArray m) w1)
             (λ m' w2, let (wl', w3) := alloc (OArray wl) w2 in
                       let (b', w4) := alloc (OArray b) w3 in
                       let (l, w5) := alloc (OLists a' m' wl' b') w4 in
                       settle p (Fulfilled (VRef l)) w5)); [apply R_alloc|].
    intros m' w2.
    apply (kept_let w2 (alloc (OArray wl) w2)
             (λ wl' w3, let (b', w4) := alloc (OArray b) w3 in
                       let (l, w5) := alloc (OLists a' m' wl' b') w4 in
                       settle p (Fulfilled (VRef l)) w5)); [apply R_alloc|].
    intros wl' w3.
    apply (kept_let w3 (alloc (OArray b) w3)
             (λ b' w4, let (l, w5) := alloc (OLists a' m' wl' b') w4 in
                       settle p (Fulfilled (VRef l)) w5)); [apply R_alloc|].
    intros b' w4.
    apply (kept_let w4 (alloc (OLists a' m' wl' b') w4)
             (λ l w5, settle p (Fulfilled (VRef l)) w5));
      [apply R_alloc | intros; apply R_settle].
  - unfold resolve_logs.
    apply (kept_let w (alloc_entries entries w)
             (λ es w1, let (l, w2) := alloc (OLogs es) w1 in
                       settle p (Fulfilled (VRef l)) w2)); [apply kept_alloc_entries|].
    intros es w1.
    apply (kept_let w1 (alloc (OLogs es) w1) (λ l w2, settle p (Fulfilled (VRef l)) w2));
      [apply R_alloc | intros; apply R_settle].
  - apply R_settle.
  - apply R_settle.
Qed.

Lemma kept_onMessage (name message : string) (w : World) :
  R w (state_of (onMessage_handler name message w)).
Proof.
  unfold onMessage_handler, publish, invoke.
  destruct (test_command message); [|apply R_published].
  destruct (match_command message) as [[command args]|]; [|apply R_published].
  destruct (_commands _ !! toLocaleUpperCase command); cbn [state_of];
    [|apply R_published].
  eapply R_trans; [apply R_published | apply R_invoked].
Qed.

Lemma kept_addCommand (command : string) (listener : nat) (w : World) :
  R w (state_of (addCommand command listener w)).
Proof.
  unfold addCommand. destruct (_commands w !! toLocaleUpperCase command);
    cbn [state_of]; [apply R_refl | apply R_commands].
Qed.

Lemma kept_plain_call (c : Call) (w : World) :
  plain_call c = true → R w (call c w).
Proof.
  destruct c; cbn [plain_call call]; try discriminate; intros _.
  - apply R_join.
  - apply R_published.
  - apply kept_onMessage.
  - apply kept_getLists.
  - apply kept_getLogs.
  - apply kept_setLists.
  - apply kept_api_call.
  - apply kept_api_call.
  - apply kept_api_call.
  - apply kept_api_call.
  - apply R_alloc.
Qed.

Lemma kept_call (c : Call) (w : World) : R w (call c w).
Proof.
  destruct (plain_call c) eqn:E; [apply kept_plain_call, E|].
  destruct c; try discriminate; cbn [call].
  - apply kept_getOverview.
  - apply kept_addCommand.
  - apply R_commands.
Qed.

Lemma kept_step (s : Step) (w : World) : R w (step s w).
Proof.
  destruct s; cbn [step]; [apply kept_call | apply kept_remote | apply kept_drain].
Qed.

Lemma kept_run (steps : list Step) : ∀ w, R w (run steps w).
Proof.
  induction steps as [|s steps IH]; intros w; [apply R_refl|].
  unfold run. cbn [foldl]. eapply R_trans; [apply kept_step | apply IH].
Qed.
(** A run every step of which is allowed. *)
Lemma kept_run_if (ok : Step → bool) :
  (∀ s w, ok s = true → R w (step s w)) →
  ∀ steps w, forallb ok steps = true → R w (run steps w).
Proof.
  intros Hok. induction steps as [|s steps IH]; intros w Hall; [apply R_refl|].
  cbn [forallb] in Hall. apply andb_prop in Hall as [Hs Hall].
  unfold run. cbn [foldl]. eapply R_trans; [apply Hok, Hs | apply IH, Hall].
Qed.
End Preserved.

(** * The orders every run respects *)

Lemma cell_le_refl (o : Obj) : cell_le o o.
Proof. destruct o; simpl; reflexivity. Qed.

Lemma cell_le_trans (o1 o2 o3 : Obj) : cell_le o1 o2 → cell_le o2 o3 → cell_le o1 o3.
Proof.
  destruct o1, o2; simpl; try congruence; destruct o3; simpl; try congruence.
  intros H1 H2. etransitivity; eassumption.
Qed.

Lemma heap_le_refl (on : nat) (h : list Obj) : heap_le on h h.
Proof.
  intros l o Hl. exists o. split; [exact Hl|].
  case_decide; [apply cell_le_refl | reflexivity].
Qed.

Lemma heap_le_trans (on : nat) (h1 h2 h3 : list Obj) :
  heap_le on h1 h2 → heap_le on h2 h3 → heap_le on h1 h3.
Proof.
  intros H12 H23 l o Hl.
  destruct (H12 l o Hl) as (o2 & Hl2 & Hle2).
  destruct (H23 l o2 Hl2) as (o3 & Hl3 & Hle3).
  exists o3. split; [exact Hl3|].
  case_decide; [eapply cell_le_trans; eassumption | congruence].
Qed.

Lemma heap_le_app (on : nat) (h ext : list Obj) : heap_le on h (h ++ ext).
Proof.
  intros l o Hl. exists o. split; [apply lookup_app_l_Some, Hl|].
  case_decide; [apply cell_le_refl | reflexivity].
Qed.

Lemma prefix_push_absent (acc : list string) (x : string) :
  acc `prefix_of` push_absent acc x.
Proof.
  unfold push_absent. case_bool_decide; [reflexivity | apply prefix_app_r; reflexivity].
Qed.

Lemma prefix_foldl_push_absent (xs acc : list string) :
  acc `prefix_of` foldl push_absent acc xs.
Proof.
  revert acc. induction xs as [|x xs IH]; intros acc; simpl; [reflexivity|].
  etransitivity; [apply prefix_push_absent | apply IH].
Qed.

Lemma heap_le_merge_online (on : nat) (h : list Obj) (names : list string) :
  heap_le on h (write_array on (foldl push_absent (read_array h on) names) h).
Proof.
  intros l o Hl. destruct (decide (l = on)) as [->|Hne].
  - unfold write_array, read_array. rewrite Hl.
    destruct o as [items| | | |]; try (eexists; split; [exact Hl | reflexivity]).
    exists (OArray (foldl push_absent items names)). split.
    + apply list_lookup_insert_eq. eapply lookup_lt_Some, Hl.
    + simpl. apply prefix_foldl_push_absent.
  - exists o. split; [|reflexivity].
    rewrite write_array_lookup_ne by auto. exact Hl.
Qed.

Lemma info_le_refl (r : PlayerInfo) : info_le r r.
Proof. split; [lia|]. split; [reflexivity | auto]. Qed.

Lemma info_le_trans (r1 r2 r3 : PlayerInfo) : info_le r1 r2 → info_le r2 r3 → info_le r1 r3.
Proof.
  intros (Hj & Hi & Ho) (Hj' & Hi' & Ho').
  split; [lia|]. split; [etransitivity; eassumption | auto].
Qed.

Lemma registry_le_refl (m : gmap string PlayerInfo) : registry_le m m.
Proof. intros k r Hk. exists r. split; [exact Hk | apply info_le_refl]. Qed.

Lemma registry_le_trans (m1 m2 m3 : gmap string PlayerInfo) :
  registry_le m1 m2 → registry_le m2 m3 → registry_le m1 m3.
Proof.
  intros H12 H23 k r Hk.
  destruct (H12 k r Hk) as (r2 & Hk2 & Hle2).
  destruct (H23 k r2 Hk2) as (r3 & Hk3 & Hle3).
  exists r3. split; [exact Hk3 | eapply info_le_trans; eassumption].
Qed.

(** Replacing the record under a key by one that gained. *)
Lemma registry_le_insert (m : gmap string PlayerInfo) (k : string)
    (fresh : PlayerInfo) (f : PlayerInfo → PlayerInfo) :
  (∀ r, info_le r (f r)) →
  registry_le m (<[k := f (default fresh (m !! k))]> m).
Proof.
  intros Hf k' r Hk'. destruct (decide (k' = k)) as [->|Hne].
  - rewrite Hk'. exists (f r). split; [apply lookup_insert_eq | apply Hf].
  - exists r. split; [|apply info_le_refl].
    rewrite lookup_insert_ne by auto. exact Hk'.
Qed.

Lemma info_le_mark_owner (r : PlayerInfo) : info_le r (mark_owner r).
Proof. split; [simpl; lia|]. split; [reflexivity | reflexivity]. Qed.

Lemma info_le_record_join (address : string) (r : PlayerInfo) :
  info_le r (record_join address r).
Proof.
  split; [simpl; lia|]. split; [apply prefix_push_absent | auto].
Qed.

Lemma settled_le_refl (ps : list Cell) : settled_le ps ps.
Proof. split; [lia | auto]. Qed.

Lemma settled_le_trans (ps1 ps2 ps3 : list Cell) :
  settled_le ps1 ps2 → settled_le ps2 ps3 → settled_le ps1 ps3.
Proof. intros [Hl H] [Hl' H']. split; [lia | auto]. Qed.

Lemma settled_le_app (ps ext : list Cell) : settled_le ps (ps ++ ext).
Proof.
  split; [rewrite length_app; lia|].
  intros p o Hp. apply lookup_app_l_Some, Hp.
Qed.

(** Writing a cell that was pending. *)
Lemma settled_le_insert (ps : list Cell) (p : nat) (ks : list Cont) (c : Cell) :
  ps !! p = Some (Pending ks) → settled_le ps (<[p := c]> ps).
Proof.
  intros Hp. split; [rewrite length_insert; lia|].
  intros q o Hq. destruct (decide (q = p)) as [->|Hne]; [congruence|].
  rewrite list_lookup_insert_ne by auto. exact Hq.
Qed.

Lemma evolves_refl (w : World) : evolves w w.
Proof.
  split; [reflexivity | apply heap_le_refl | apply registry_le_refl | apply settled_le_refl].
Qed.

Lemma evolves_trans (w1 w2 w3 : World) : evolves w1 w2 → evolves w2 w3 → evolves w1 w3.
Proof.
  intros [Ho Hh Hp Hs] [Ho' Hh' Hp' Hs']. split.
  - congruence.
  - rewrite Ho in Hh'. eapply heap_le_trans; eassumption.
  - eapply registry_le_trans; eassumption.
  - eapply settled_le_trans; eassumption.
Qed.

(** A step that writes none of the four fields. *)
Lemma evolves_same (w w' : World) :
  _online w' = _online w → heap w' = heap w → _players w' = _players w →
  promises w' = promises w → evolves w w'.
Proof.
  intros Ho Hh Hp Hs. split; [exact Ho | rewrite Hh | rewrite Hp | rewrite Hs].
  - apply heap_le_refl.
  - apply registry_le_refl.
  - apply settled_le_refl.
Qed.

Lemma evolves_alloc (o : Obj) (w : World) : evolves w (alloc o w).2.
Proof.
  split; [reflexivity | apply heap_le_app | apply registry_le_refl | apply settled_le_refl].
Qed.

Lemma evolves_new_promise (w : World) : evolves w (new_promise w).2.
Proof.
  split; [reflexivity | apply heap_le_refl | apply registry_le_refl | apply settled_le_app].
Qed.

Lemma evolves_subscribe (p : nat) (k : Cont) (w : World) : evolves w (subscribe p k w).
Proof.
  unfold subscribe. destruct (promises w !! p) as [[ks|o]|] eqn:Hp;
    try (apply evolves_same; reflexivity).
  split; [reflexivity | apply heap_le_refl | apply registry_le_refl|].
  eapply settled_le_insert, Hp.
Qed.

Lemma evolves_settle (p : nat) (o : Outcome) (w : World) : evolves w (settle p o w).
Proof.
  unfold settle. destruct (promises w !! p) as [[ks|o']|] eqn:Hp;
    try (apply evolves_same; reflexivity).
  split; [reflexivity | apply heap_le_refl | apply registry_le_refl|].
  eapply settled_le_insert, Hp.
Qed.

Lemma evolves_overview_loaded (ov : nat) (w : World) : evolves w (overview_loaded ov w).
Proof.
  unfold overview_loaded. destruct (heap w !! ov) as [[| own onl | | |]|];
    try apply evolves_refl.
  split; [reflexivity | apply heap_le_merge_online | | apply settled_le_refl].
  apply (registry_le_insert (_players w) own blank_info mark_owner), info_le_mark_owner.
Qed.

Lemma evolves_join (name address : string) (w : World) :
  evolves w (onJoin_handler name address w).
Proof.
  split; [reflexivity | apply heap_le_refl | | apply settled_le_refl].
  apply (registry_le_insert (_players w) (toLocaleUpperCase name)
           (mkInfo address [address] 0 None) (record_join address)),
        info_le_record_join.
Qed.

(** Every run of World respects the four orders. *)
Lemma run_evolves (steps : list Step) (w : World) : evolves w (run steps w).
Proof.
  apply (kept_run evolves evolves_refl evolves_trans evolves_alloc evolves_new_promise
           evolves_subscribe evolves_settle); intros;
    solve [apply evolves_same; reflexivity | apply evolves_overview_loaded
          | apply evolves_join].
Qed.

(** X1.  Whatever happens, the code of World leaves every cell of the heap
    other than its own [_online] array as it is: the arrays and objects the
    remote API answered with, the copies handed to callers and the arrays
    callers passed in are never written. *)
Theorem run_heap_frame (steps : list Step) (w : World) (l : nat) (o : Obj) :
  heap w !! l = Some o → l ≠ _online w → heap (run steps w) !! l = Some o.
Proof.
  intros Hl Hne. destruct (ev_heap _ _ (run_evolves steps w) l o Hl) as (o' & Hl' & Ho').
  rewrite decide_False in Ho' by exact Hne. subst o'. exact Hl'.
Qed.

Lemma run_heap_frame_witness :
  heap Session.start !! 5 = Some (OLists 1 2 3 4)
  ∧ 5 ≠ _online Session.start
  ∧ heap (run Session.steps Session.start) !! 5 = Some (OLists 1 2 3 4).
Proof.
  split; [reflexivity|]. split; [discriminate|].
  apply (run_heap_frame Session.steps Session.start 5 (OLists 1 2 3 4));
    [reflexivity | discriminate].
Defined.

(** X2.  [_online] is the same array for the life of a World, and in the
    hands of World's code it only grows at the end: the names it held stay
    where they were. *)
Theorem run_online_grows (steps : list Step) (w : World) :
  _online (run steps w) = _online w
  ∧ read_array (heap w) (_online w)
    `prefix_of` read_array (heap (run steps w)) (_online (run steps w)).
Proof.
  destruct (run_evolves steps w) as [Ho Hh _ _]. split; [exact Ho|].
  rewrite Ho. unfold read_array at 1.
  destruct (heap w !! _online w) as [o|] eqn:Hl; [|apply prefix_nil].
  destruct (Hh _ o Hl) as (o' & Hl' & Ho'). rewrite decide_True in Ho' by reflexivity.
  unfold read_array. rewrite Hl'.
  destruct o as [items| | | |]; try apply prefix_nil.
  destruct o' as [items'| | | |]; try discriminate. exact Ho'.
Qed.

Lemma online_distinct_trans (w1 w2 w3 : World) :
  (online_distinct w1 → online_distinct w2) →
  (online_distinct w2 → online_distinct w3) →
  online_distinct w1 → online_distinct w3.
Proof. auto. Qed.

Lemma online_distinct_same (w w' : World) :
  heap w' = heap w → _online w' = _online w → online_distinct w → online_distinct w'.
Proof. intros Hh Ho. unfold online_distinct. rewrite Hh, Ho. auto. Qed.

Lemma online_distinct_alloc (o : Obj) (w : World) :
  online_distinct w → online_distinct (alloc o w).2.
Proof.
  intros (items & Hl & Hnd). exists items. split; [|exact Hnd].
  apply lookup_app_l_Some, Hl.
Qed.

Lemma online_distinct_subscribe (p : nat) (k : Cont) (w : World) :
  online_distinct w → online_distinct (subscribe p k w).
Proof.
  apply online_distinct_same; unfold subscribe;
    destruct (promises w !! p) as [[ks|o]|]; reflexivity.
Qed.

Lemma online_distinct_settle (p : nat) (o : Outcome) (w : World) :
  online_distinct w → online_distinct (settle p o w).
Proof.
  apply online_distinct_same; unfold settle;
    destruct (promises w !! p) as [[ks|o']|]; reflexivity.
Qed.

Lemma online_distinct_overview_loaded (ov : nat) (w : World) :
  online_distinct w → online_distinct (overview_loaded ov w).
Proof.
  intros (items & Hl & Hnd). unfold online_distinct, overview_loaded.
  destruct (heap w !! ov) as [[| own onl | | |]|]; try (exists items; auto; fail).
  exists (foldl push_absent items (read_array (heap w) onl)). split.
  - cbn [heap _online set_players set_heap]. unfold read_array at 1. rewrite Hl.
    apply (write_array_lookup_eq _ _ items _ Hl).
  - apply NoDup_foldl_push_absent, Hnd.
Qed.

(** X3.  World never puts a name into [_online] twice: an online list
    without duplicates stays without duplicates through every run. *)
Theorem run_online_distinct (steps : list Step) (w : World) (items : list string) :
  heap w !! _online w = Some (OArray items) → NoDup items →
  NoDup (read_array (heap (run steps w)) (_online w)).
Proof.
  intros Hl Hnd.
  assert (online_distinct (run steps w)) as (items' & Hl' & Hnd').
  { apply (kept_run (λ w w', online_distinct w → online_distinct w'));
      try (intros; apply online_distinct_same; reflexivity); auto.
    - apply online_distinct_alloc.
    - apply online_distinct_subscribe.
    - apply online_distinct_settle.
    - apply online_distinct_overview_loaded.
    - exists items. auto. }
  destruct (run_evolves steps w) as [Ho _ _ _]. rewrite Ho in Hl'.
  unfold read_array. rewrite Hl'. exact Hnd'.
Qed.

Lemma run_online_distinct_witness :
  heap Session.start !! _online Session.start = Some (OArray [])
  ∧ NoDup (read_array (heap (run Session.steps Session.start)) (_online Session.start)).
Proof.
  split; [reflexivity|].
  apply (run_online_distinct Session.steps Session.start []);
    [reflexivity | apply NoDup_nil_2].
Defined.

(** X4.  The registry only gains: a record is never deleted; its join count
    never goes down, the addresses it has seen stay at the front of its
    history, and an owner flag once set stays set. *)
Theorem run_registry_grows (steps : list Step) (w : World) (k : string)
    (r : PlayerInfo) :
  _players w !! k = Some r →
  ∃ r', _players (run steps w) !! k = Some r'
        ∧ (joins r ≤ joins r')%Z
        ∧ ips r `prefix_of` ips r'
        ∧ (owner r = Some true → owner r' = Some true).
Proof.
  intros Hk. destruct (ev_players _ _ (run_evolves steps w) k r Hk) as (r' & Hk' & Hle).
  exists r'. split; [exact Hk' | exact Hle].
Qed.

Lemma run_registry_grows_witness :
  _players Session.start !! "ALICE" = Some (mkInfo "1.1.1.1" ["1.1.1.1"] 1 None)
  ∧ ∃ r', _players (run Session.steps Session.start) !! "ALICE" = Some r'
          ∧ (1 ≤ joins r')%Z
          ∧ ["1.1.1.1"] `prefix_of` ips r'
          ∧ (None = Some true → owner r' = Some true).
Proof.
  split; [reflexivity|].
  apply (run_registry_grows Session.steps Session.start "ALICE"
           (mkInfo "1.1.1.1" ["1.1.1.1"] 1 None)).
  reflexivity.
Defined.

(** * What only some steps change *)

(** The primitive operations against a relation that reads fields they do
    not write. *)
Ltac field_kept :=
  intros;
  unfold command_kept, commands_same, overview_slot_kept, logs_slot_kept in *;
  unfold subscribe, settle, overview_loaded, onJoin_handler, publish, alloc, new_promise;
  repeat match goal with
         | |- context [match ?x with _ => _ end] => destruct x
         end;
  cbn; auto.

Ltac step_kept :=
  unfold send, start, stop, restart, online, onLeave_handler, publish, removeCommand;
  first [ apply kept_drain | apply kept_remote | apply kept_getOverview
        | apply kept_getLists | apply kept_getLogs | apply kept_setLists
        | apply kept_api_call | apply kept_onMessage | apply kept_addCommand ];
  field_kept.

Lemma command_kept_step (k : string) (h : nat) (s : Step) (w : World) :
  removes k s = false → command_kept k h w (step s w).
Proof.
  destruct s as [c | r |]; [destruct c|..]; cbn [removes step call]; intros Hok;
    try (step_kept; fail); try (field_kept; fail).
  - unfold command_kept, addCommand. intros Hk.
    destruct (_commands w !! toLocaleUpperCase command) eqn:E; cbn; [exact Hk|].
    rewrite lookup_insert_ne; [exact Hk | congruence].
  - apply bool_decide_eq_false in Hok. unfold command_kept, removeCommand. cbn.
    intros Hk. rewrite lookup_delete_ne by exact Hok. exact Hk.
Qed.

Lemma commands_same_step (s : Step) (w : World) :
  edits_commands s = false → commands_same w (step s w).
Proof.
  destruct s as [c | r |]; [destruct c|..]; cbn [edits_commands step call]; intros Hok;
    try discriminate; try (step_kept; fail); try (field_kept; fail).
  all: step_kept; congruence.
Qed.

Lemma overview_slot_kept_step (s : Step) (w : World) :
  refreshes_overview s = false → overview_slot_kept w (step s w).
Proof.
  destruct s as [c | r |]; [destruct c as [| | | [] | | | | | | | | | |]|..];
    cbn [refreshes_overview step call]; intros Hok;
    try discriminate; try (step_kept; fail); try (field_kept; fail).
  intros c Hc. pose proof (getOverview_cached w c Hc) as [_ H]. exact H.
Qed.

Lemma logs_slot_kept_step (s : Step) (w : World) :
  refreshes_logs s = false → logs_slot_kept w (step s w).
Proof.
  destruct s as [c | r |]; [destruct c as [| | | | | [] | | | | | | | |]|..];
    cbn [refreshes_logs step call]; intros Hok;
    try discriminate; try (step_kept; fail); try (field_kept; fail).
  intros c Hc. unfold getLogs. rewrite Hc.
  apply (kept_then logs_slot_kept); field_kept.
Qed.

(** X5.  A registered listener stays registered under its token until
    [removeCommand] is called on a spelling of that token; nothing else World
    does, a later [addCommand] included, replaces or drops it, and a chat
    line with the token keeps calling it. *)
Theorem run_command_kept (steps : list Step) (w : World) (k : string) (h : nat) :
  _commands w !! k = Some h →
  forallb (λ s, negb (removes k s)) steps = true →
  _commands (run steps w) !! k = Some h
  ∧ ∀ name tok args,
      tok ≠ EmptyString → has_space tok = false → has_line_terminator args = false →
      toLocaleUpperCase tok = k →
      invoked (state_of (onMessage_handler name (command_line tok args) (run steps w)))
      = invoked (run steps w) ++ [mkInvocation h (getPlayer name (run steps w)) args].
Proof.
  intros Hk Hall.
  assert (_commands (run steps w) !! k = Some h) as Hk'.
  { refine (kept_run_if (command_kept k h) _ _ (λ s, negb (removes k s)) _
              steps w Hall Hk); [field_kept | field_kept |].
    intros s w0 Hs. apply command_kept_step. apply negb_true_iff, Hs. }
  split; [exact Hk'|].
  intros name tok args Hne Hns Hlt Htok.
  rewrite (onMessage_registered name tok args h _ Hne Hns Hlt); [reflexivity|].
  rewrite Htok. exact Hk'.
Qed.

Lemma run_command_kept_witness :
  _commands Kick.start !! "KICK" = Some 7
  ∧ forallb (λ s, negb (removes "KICK" s)) Kick.steps = true
  ∧ _commands (run Kick.steps Kick.start) !! "KICK" = Some 7.
Proof.
  split; [reflexivity|]. split; [reflexivity|].
  apply (run_command_kept Kick.steps Kick.start "KICK" 7); reflexivity.
Defined.

(** X6.  Only [addCommand] and [removeCommand] change the command table:
    events, reads, writes of the lists, answers of the remote and microtasks
    leave it as it is. *)
Theorem run_commands_same (steps : list Step) (w : World) :
  forallb (λ s, negb (edits_commands s)) steps = true →
  _commands (run steps w) = _commands w.
Proof.
  intros Hall.
  refine (kept_run_if commands_same _ _ (λ s, negb (edits_commands s)) _
            steps w Hall); [field_kept | field_kept; congruence |].
  intros s w0 Hs. apply commands_same_step. apply negb_true_iff, Hs.
Qed.

Lemma run_commands_same_witness :
  forallb (λ s, negb (edits_commands s)) Session.steps = true
  ∧ _commands (run Session.steps Kick.start) = _commands Kick.start.
Proof.
  split; [reflexivity|].
  apply (run_commands_same Session.steps Kick.start). reflexivity.
Defined.

(** * Reading a settled overview slot *)

(** A plain read of a slot whose promise is settled, and the microtask it
    queued. *)
Lemma getOverview_settled_read (w : World) (c : nat) (o : Outcome) :
  microtasks w = [] →
  _cache_overview w = Some c →
  promises w !! c = Some (Settled o) →
  (getOverview false w).1 = length (promises w)
  ∧ drain 1 (getOverview false w).2
    = run_task (KThen CbOverviewCopy (length (promises w)), o)
        (set_promises (promises w ++ [Pending []]) w).
Proof.
  intros Hmt Hc Hp. unfold getOverview. rewrite Hc, (then_settled w c o _ Hp).
  cbn [fst snd drain microtasks set_microtasks set_promises]. rewrite Hmt.
  split; [reflexivity|]. cbn [app].
  destruct w as [h ps mt al pb iv cl co cs on li pl cm]. wsimpl_in Hmt. subst mt.
  reflexivity.
Qed.

Lemma getOverview_loaded_read (w : World) (c ov : nat) (own : string) (onl : nat) :
  microtasks w = [] →
  _cache_overview w = Some c →
  promises w !! c = Some (Settled (Fulfilled (VRef ov))) →
  heap w !! ov = Some (OOverview own onl) →
  (getOverview false w).1 = length (promises w)
  ∧ drain 1 (getOverview false w).2
    = set_heap (heap w ++ [OOverview own onl])
        (set_promises (promises w ++ [Settled (Fulfilled (VRef (length (heap w))))]) w).
Proof.
  intros Hmt Hc Hp Hov.
  destruct (getOverview_settled_read w c _ Hmt Hc Hp) as [-> ->].
  split; [reflexivity|]. cbn [run_task apply_callback]. unfold copy_overview, alloc.
  cbn [heap set_promises]. rewrite Hov.
  erewrite (settle_at _ (promises w) [Pending []] _ 0); [|reflexivity|wcbn; lia|reflexivity].
  destruct w as [h ps mt al pb iv cl co cs on li pl cm]. wsimpl_in Hmt. subst mt.
  reflexivity.
Qed.

Lemma getOverview_failed_read (w : World) (c : nat) (e : string) :
  microtasks w = [] →
  _cache_overview w = Some c →
  promises w !! c = Some (Settled (Rejected e)) →
  (getOverview false w).1 = length (promises w)
  ∧ drain 1 (getOverview false w).2
    = set_promises (promises w ++ [Settled (Rejected e)]) w.
Proof.
  intros Hmt Hc Hp.
  destruct (getOverview_settled_read w c _ Hmt Hc Hp) as [-> ->].
  split; [reflexivity|]. cbn [run_task].
  erewrite (settle_at _ (promises w) [Pending []] _ 0); [|reflexivity|wcbn; lia|reflexivity].
  destruct w as [h ps mt al pb iv cl co cs on li pl cm]. wsimpl_in Hmt. subst mt.
  reflexivity.
Qed.

(** X7.  What a plain read of a loaded overview returns is a new object, but
    its [online] field is the array of the cached overview itself: a name
    the caller pushes onto the result is pushed onto the cached overview,
    and the next plain read returns it, without any fetch. *)
Theorem getOverview_copy_is_shallow (w : World) (c ov : nat) (own : string)
    (onl : nat) (items : list string) (name : string) :
  microtasks w = [] →
  _cache_overview w = Some c →
  promises w !! c = Some (Settled (Fulfilled (VRef ov))) →
  heap w !! ov = Some (OOverview own onl) →
  heap w !! onl = Some (OArray items) →
  let r1 := length (heap w) in
  let w1 := drain 1 (getOverview false w).2 in
  let w2 := caller_pushes_online r1 name w1 in
  let w3 := drain 1 (getOverview false w2).2 in
  result_of (getOverview false w).1 w1 = Some r1
  ∧ heap w !! r1 = None
  ∧ heap w1 !! r1 = Some (OOverview own onl)
  ∧ overview_read (getOverview false w).1 w1 = Some (own, items)
  ∧ read_overview (heap w2) ov = Some (own, items ++ [name])
  ∧ overview_read (getOverview false w2).1 w3 = Some (own, items ++ [name])
  ∧ api_log w3 = api_log w.
Proof.
  intros Hmt Hc Hp Hov Honl. cbv zeta.
  destruct (getOverview_loaded_read w c ov own onl Hmt Hc Hp Hov) as [-> ->].
  assert (onl ≠ ov) as Hne by (intros ->; congruence).
  assert (onl < length (heap w)) as Hlt by (eapply lookup_lt_Some, Honl).
  set (w1 := set_heap (heap w ++ [OOverview own onl])
               (set_promises
                  (promises w ++ [Settled (Fulfilled (VRef (length (heap w))))]) w)).
  assert (heap w1 !! length (heap w) = Some (OOverview own onl)) as Hr1
    by apply lookup_alloc_new.
  assert (read_array (heap w1) onl = items) as Hitems
    by (apply read_array_ext, Honl).
  assert (result_of (length (promises w)) w1 = Some (length (heap w))) as Hres.
  { unfold result_of, outcome_of, w1. wcbn.
    rewrite (lookup_app_plus _ _ _ 0) by lia. reflexivity. }
  split; [exact Hres|]. split; [apply lookup_ge_None; lia|]. split; [exact Hr1|].
  split.
  { unfold overview_read. rewrite Hres. cbn [mbind option_bind].
    unfold read_overview. rewrite Hr1, Hitems. reflexivity. }
  assert (caller_pushes_online (length (heap w)) name w1
          = set_heap (write_array onl (items ++ [name]) (heap w1)) w1) as ->.
  { unfold caller_pushes_online, caller_writes. rewrite Hr1, Hitems. reflexivity. }
  set (w2 := set_heap (write_array onl (items ++ [name]) (heap w1)) w1).
  assert (heap w2 !! onl = Some (OArray (items ++ [name]))) as Honl2.
  { apply (write_array_lookup_eq _ _ items). apply lookup_alloc_old, Honl. }
  assert (heap w2 !! ov = Some (OOverview own onl)) as Hov2.
  { unfold w2. wcbn. rewrite write_array_lookup_ne by exact Hne.
    apply lookup_alloc_old, Hov. }
  split.
  { unfold read_overview, read_array. rewrite Hov2, Honl2. reflexivity. }
  destruct (getOverview_loaded_read w2 c ov own onl Hmt Hc) as [-> ->];
    [apply lookup_app_l_Some, Hp | exact Hov2 |].
  split; [|reflexivity].
  unfold overview_read, result_of, outcome_of. wcbn.
  rewrite (lookup_app_plus _ _ _ 0) by lia. cbn [lookup list_lookup mbind option_bind].
  unfold read_overview. rewrite lookup_alloc_new.
  erewrite read_array_ext; [reflexivity | exact Honl2].
Qed.

Lemma getOverview_copy_is_shallow_witness :
  microtasks (after_overview "OWNER" ["ALICE"]) = []
  ∧ _cache_overview (after_overview "OWNER" ["ALICE"]) = Some 1
  ∧ overview_read
      (getOverview false
         (caller_pushes_online (length (heap (after_overview "OWNER" ["ALICE"]))) "MALLORY"
            (drain 1 (getOverview false (after_overview "OWNER" ["ALICE"])).2))).1
      (drain 1
         (getOverview false
            (caller_pushes_online (length (heap (after_overview "OWNER" ["ALICE"]))) "MALLORY"
               (drain 1 (getOverview false (after_overview "OWNER" ["ALICE"])).2))).2)
    = Some ("OWNER", ["ALICE"] ++ ["MALLORY"]).
Proof.
  assert (microtasks (after_overview "OWNER" ["ALICE"]) = []) as Hmt
    by (vm_compute; reflexivity).
  assert (_cache_overview (after_overview "OWNER" ["ALICE"]) = Some 1) as Hc
    by (vm_compute; reflexivity).
  assert (promises (after_overview "OWNER" ["ALICE"]) !! 1
          = Some (Settled (Fulfilled (VRef 7)))) as Hp by (vm_compute; reflexivity).
  assert (heap (after_overview "OWNER" ["ALICE"]) !! 7 = Some (OOverview "OWNER" 6)) as Hov
    by (vm_compute; reflexivity).
  assert (heap (after_overview "OWNER" ["ALICE"]) !! 6 = Some (OArray ["ALICE"])) as Honl
    by (vm_compute; reflexivity).
  pose proof (getOverview_copy_is_shallow (after_overview "OWNER" ["ALICE"]) 1 7 "OWNER" 6
                ["ALICE"] "MALLORY" Hmt Hc Hp Hov Honl) as H.
  cbv zeta in H. destruct H as (_ & _ & _ & _ & _ & Hread & _).
  split; [exact Hmt|]. split; [exact Hc | exact Hread].
Defined.

Lemma api_log_settle (p : nat) (o : Outcome) (w : World) :
  api_log (settle p o w) = api_log w.
Proof. unfold settle. destruct (promises w !! p) as [[ks|o']|]; reflexivity. Qed.

Lemma api_log_overview_copy (q : nat) (o : Outcome) (w : World) :
  api_log (run_task (KThen CbOverviewCopy q, o) w) = api_log w.
Proof.
  destruct o as [[|ov]|e]; cbn [run_task apply_callback]; try apply api_log_settle.
  unfold copy_overview, alloc.
  destruct (heap w !! ov) as [[| own onl | | |]|]; rewrite api_log_settle; reflexivity.
Qed.

Lemma run_overview_slot (steps : list Step) (w : World) (c : nat) (o : Outcome) :
  _cache_overview w = Some c →
  promises w !! c = Some (Settled o) →
  forallb (λ s, negb (refreshes_overview s)) steps = true →
  _cache_overview (run steps w) = Some c
  ∧ promises (run steps w) !! c = Some (Settled o).
Proof.
  intros Hc Hp Hall. split.
  - refine (kept_run_if overview_slot_kept _ _ (λ s, negb (refreshes_overview s)) _
              steps w Hall c Hc); [field_kept | field_kept |].
    intros s w0 Hs. apply overview_slot_kept_step. apply negb_true_iff, Hs.
  - apply (ev_promises _ _ (run_evolves steps w)), Hp.
Qed.

(** X8.  Once the overview slot holds a settled promise, it holds it for as
    long as nobody reads with [refresh = true], whatever else happens.  A
    plain read made then sends nothing; it is rejected with the stored error
    when the fetch had failed, and gets a new object with the owner and the
    online array of the stored overview when it had succeeded. *)
Theorem overview_slot_is_kept (steps : list Step) (w : World) (c : nat) (o : Outcome) :
  _cache_overview w = Some c →
  promises w !! c = Some (Settled o) →
  forallb (λ s, negb (refreshes_overview s)) steps = true →
  microtasks (run steps w) = [] →
  let w1 := run steps w in
  let q := (getOverview false w1).1 in
  let w2 := drain 1 (getOverview false w1).2 in
  _cache_overview w1 = Some c
  ∧ outcome_of c w1 = Some o
  ∧ api_log w2 = api_log w1
  ∧ (∀ e, o = Rejected e → outcome_of q w2 = Some (Rejected e))
  ∧ (∀ ov own onl,
       o = Fulfilled (VRef ov) → heap w !! ov = Some (OOverview own onl) →
       result_of q w2 = Some (length (heap w1))
       ∧ heap w2 !! length (heap w1) = Some (OOverview own onl)).
Proof.
  intros Hc Hp Hall Hmt. cbv zeta.
  destruct (run_overview_slot steps w c o Hc Hp Hall) as [Hc1 Hp1].
  split; [exact Hc1|]. split; [unfold outcome_of; rewrite Hp1; reflexivity|].
  split.
  { destruct (getOverview_settled_read _ c o Hmt Hc1 Hp1) as [_ ->].
    rewrite api_log_overview_copy. reflexivity. }
  split.
  - intros e ->. destruct (getOverview_failed_read _ c e Hmt Hc1 Hp1) as [-> ->].
    unfold outcome_of. wcbn. rewrite (lookup_app_plus _ _ _ 0) by lia. reflexivity.
  - intros ov own onl -> Hov.
    assert (heap (run steps w) !! ov = Some (OOverview own onl)) as Hov1.
    { destruct (ev_heap _ _ (run_evolves steps w) ov _ Hov) as (o' & Hl' & Ho').
      rewrite Hl'. f_equal. case_decide; [|exact Ho'].
      destruct o'; cbn in Ho'; congruence. }
    destruct (getOverview_loaded_read _ c ov own onl Hmt Hc1 Hp1 Hov1) as [-> ->].
    split; [|apply lookup_alloc_new].
    unfold result_of, outcome_of. wcbn.
    rewrite (lookup_app_plus _ _ _ 0) by lia. reflexivity.
Qed.

Lemma overview_slot_is_kept_witness :
  _cache_overview Loaded.start = Some 1
  ∧ promises Loaded.start !! 1 = Some (Settled (Fulfilled (VRef 7)))
  ∧ forallb (λ s, negb (refreshes_overview s)) Loaded.steps = true
  ∧ microtasks (run Loaded.steps Loaded.start) = []
  ∧ _cache_overview (run Loaded.steps Loaded.start) = Some 1
  ∧ api_log (drain 1 (getOverview false (run Loaded.steps Loaded.start)).2)
    = api_log (run Loaded.steps Loaded.start).
Proof.
  assert (_cache_overview Loaded.start = Some 1) as Hc by (vm_compute; reflexivity).
  assert (promises Loaded.start !! 1 = Some (Settled (Fulfilled (VRef 7)))) as Hp
    by (vm_compute; reflexivity).
  assert (forallb (λ s, negb (refreshes_overview s)) Loaded.steps = true) as Hall
    by (vm_compute; reflexivity).
  assert (microtasks (run Loaded.steps Loaded.start) = []) as Hmt
    by (vm_compute; reflexivity).
  pose proof (overview_slot_is_kept Loaded.steps Loaded.start 1 _ Hc Hp Hall Hmt) as H.
  cbv zeta in H. destruct H as (Hc1 & _ & Hlog & _).
  split; [exact Hc|]. split; [exact Hp|]. split; [exact Hall|]. split; [exact Hmt|].
  split; [exact Hc1 | exact Hlog].
Defined.

(** X9.  The logs slot, once filled, is replaced only by a read with
    [refresh = true]: after any run without one it holds the same promise,
    with the same outcome if it was settled. *)
Theorem logs_slot_is_kept (steps : list Step) (w : World) (c : nat) :
  _cache_logs w = Some c →
  forallb (λ s, negb (refreshes_logs s)) steps = true →
  _cache_logs (run steps w) = Some c
  ∧ ∀ o, outcome_of c w = Some o → outcome_of c (run steps w) = Some o.
Proof.
  intros Hc Hall. split.
  - refine (kept_run_if logs_slot_kept _ _ (λ s, negb (refreshes_logs s)) _
              steps w Hall c Hc); [field_kept | field_kept |].
    intros s w0 Hs. apply logs_slot_kept_step. apply negb_true_iff, Hs.
  - intros o. unfold outcome_of.
    destruct (promises w !! c) as [[ks|o']|] eqn:Hp; try discriminate.
    intros [= ->].
    rewrite (proj2 (ev_promises _ _ (run_evolves steps w)) c o Hp). reflexivity.
Qed.

Lemma logs_slot_is_kept_witness :
  _cache_logs (getLogs false (construct ∅)).2 = Some 6
  ∧ forallb (λ s, negb (refreshes_logs s))
      [SCall (CGetLogs false); SRemote (RLogs 6 [[("message", "hi")]]); STick; STick;
       SCall (CGetLists true); SCall (CGetLogs false)] = true
  ∧ _cache_logs
      (run [SCall (CGetLogs false); SRemote (RLogs 6 [[("message", "hi")]]); STick; STick;
            SCall (CGetLists true); SCall (CGetLogs false)]
         (getLogs false (construct ∅)).2) = Some 6.
Proof.
  split; [reflexivity|]. split; [reflexivity|].
  apply (logs_slot_is_kept _ (getLogs false (construct ∅)).2 6); reflexivity.
Defined.

(** * The first load of the lists *)

(** The state after a read of an empty lists slot. *)
Lemma getLists_fetches (refresh : bool) (w : World) :
  refresh = true ∨ _cache_lists w = None →
  getLists refresh w
  = (length (promises w) + 2,
     set_cache_lists (Some (length (promises w) + 1))
       (set_api_log (api_log w ++ [ApiGetLists (length (promises w))])
          (set_promises
             (promises w ++ [Pending [KThen CbListsLoaded (length (promises w) + 1)];
                             Pending [KThen CbListsCopy (length (promises w) + 2)];
                             Pending []]) w))).
Proof.
  intros Hwhy.
  assert (getLists refresh w = then_ (fetch_lists w).1 CbListsCopy (fetch_lists w).2) as ->.
  { unfold getLists. destruct Hwhy as [-> | ->]; [destruct (_cache_lists w)|];
      destruct (fetch_lists w); reflexivity. }
  unfold fetch_lists, api_call, new_promise.
  erewrite (then_at _ (promises w) [Pending []] (length (promises w)) 0);
    [|reflexivity|lia|reflexivity].
  cbn [fst snd].
  erewrite (then_at _ (promises w) _ (length (promises w) + 1) 1);
    [|reflexivity|lia|reflexivity].
  destruct w as [h ps mt al pb iv cl co cs on li pl cm]. reflexivity.
Qed.

Lemma drain_lists_loaded (w : World) (A M WL B : list string) :
  microtasks w = [] →
  drain 2 (resolve_lists (length (promises w)) A M WL B
             (getLists true w).2)
  = set_lists (length (heap w) + 4)
      (set_heap (heap w ++ copied_lists (length (heap w)) A M WL B
                 ++ copied_lists (length (heap w) + 5) A M WL B)
         (set_promises
            (promises w ++ [Settled (Fulfilled (VRef (length (heap w) + 4)));
                            Settled (Fulfilled (VRef (length (heap w) + 4)));
                            Settled (Fulfilled (VRef (length (heap w) + 9)))])
            (getLists true w).2)).
Proof.
  intros Hmt. rewrite (getLists_fetches true w (or_introl eq_refl)).
  destruct w as [h ps mt al pb iv cl co cs on li pl cm].
  wsimpl_in Hmt. subst mt.
  unfold resolve_lists, alloc, copied_lists. wsimpl.
  rewrite <- !app_assoc, !length_app. nsimpl.
  erewrite (settle_at _ ps _ _ 0); [|reflexivity|lia|reflexivity].
  wsimpl. cbn [map app insert list_insert].
  erewrite drain_cons; [|reflexivity].
  wsimpl. cbn [run_task apply_callback]. wsimpl.
  erewrite (settle_at _ ps _ _ 1); [|reflexivity|reflexivity|reflexivity].
  wsimpl. cbn [map app insert list_insert].
  erewrite drain_cons; [|reflexivity].
  wsimpl. cbn [run_task apply_callback].
  erewrite (copy_lists_at _ _ _ _ _ _ A M WL B).
  2:{ wsimpl. rewrite (lookup_app_plus h _ (length h + 4) 4 eq_refl). reflexivity. }
  2:{ wsimpl. rewrite (lookup_app_plus h _ (length h) 0) by lia. reflexivity. }
  2:{ wsimpl. rewrite (lookup_app_plus h _ (length h + 1) 1 eq_refl). reflexivity. }
  2:{ wsimpl. rewrite (lookup_app_plus h _ (length h + 2) 2 eq_refl). reflexivity. }
  2:{ wsimpl. rewrite (lookup_app_plus h _ (length h + 3) 3 eq_refl). reflexivity. }
  wsimpl. rewrite !length_app. nsimpl.
  erewrite (settle_at _ ps _ _ 2); [|reflexivity|reflexivity|reflexivity].
  wsimpl. cbn [drain]. unfold copied_lists.
  rewrite <- !app_assoc. nsimpl. cbn [map insert list_insert]. reflexivity.
Qed.

Lemma drain_lists_failed (w : World) (e : string) :
  microtasks w = [] →
  drain 2 (reject (length (promises w)) e (getLists true w).2)
  = set_promises (promises w ++ replicate 3 (Settled (Rejected e))) (getLists true w).2.
Proof.
  intros Hmt. rewrite (getLists_fetches true w (or_introl eq_refl)).
  destruct w as [h ps mt al pb iv cl co cs on li pl cm].
  wsimpl_in Hmt. subst mt. unfold reject. wsimpl.
  erewrite (settle_at _ ps _ _ 0); [|reflexivity|lia|reflexivity].
  wsimpl. cbn [map app insert list_insert].
  erewrite drain_cons; [|reflexivity].
  wsimpl. cbn [run_task].
  erewrite (settle_at _ ps _ _ 1); [|reflexivity|reflexivity|reflexivity].
  wsimpl. cbn [map app insert list_insert].
  erewrite drain_cons; [|reflexivity].
  wsimpl. cbn [run_task].
  erewrite (settle_at _ ps _ _ 2); [|reflexivity|reflexivity|reflexivity].
  wsimpl. reflexivity.
Qed.

(** A plain read of a lists slot that holds a failure. *)
Lemma getLists_failed_read (w : World) (c : nat) (e : string) :
  microtasks w = [] →
  _cache_lists w = Some c →
  promises w !! c = Some (Settled (Rejected e)) →
  (getLists false w).1 = length (promises w)
  ∧ drain 1 (getLists false w).2
    = set_promises (promises w ++ [Settled (Rejected e)]) w.
Proof.
  intros Hmt Hc Hp. unfold getLists. rewrite Hc, (then_settled w c _ _ Hp).
  cbn [fst snd drain microtasks set_microtasks set_promises]. rewrite Hmt.
  split; [reflexivity|]. cbn [app run_task].
  erewrite (settle_at _ (promises w) [Pending []] _ 0); [|reflexivity|wcbn; lia|reflexivity].
  destruct w as [h ps mt al pb iv cl co cs on li pl cm]. wsimpl_in Hmt. subst mt.
  reflexivity.
Qed.

(** X10.  The first read of the lists sends one fetch.  When the remote
    answers, the answer becomes the [_lists] snapshot that every view built
    by [getPlayer] refers to, and the reader gets a copy of it in a new
    object.  When the remote rejects, the reader is rejected, [_lists] stays
    the snapshot it was, and the slot keeps the failure: the next plain read
    is rejected with the same error and sends nothing. *)
Theorem getLists_first_load (w : World) (A M WL B : list string) :
  microtasks w = [] →
  _cache_lists w = None →
  let np := length (promises w) in
  let q := (getLists false w).1 in
  let w1 := (getLists false w).2 in
  let w2 := drain 2 (resolve_lists np A M WL B w1) in
  api_log w1 = api_log w ++ [ApiGetLists np]
  ∧ _lists w1 = _lists w
  ∧ read_lists (heap w2) (_lists w2) = Some (A, M, WL, B)
  ∧ (∀ name, read_lists (heap w2) (player_lists (getPlayer name w2)) = Some (A, M, WL, B))
  ∧ lists_read q w2 = Some (A, M, WL, B)
  ∧ result_of q w2 ≠ Some (_lists w2)
  ∧ api_log w2 = api_log w1
  ∧ ∀ e,
      let w3 := drain 2 (reject np e w1) in
      let w4 := drain 1 (getLists false w3).2 in
      outcome_of q w3 = Some (Rejected e)
      ∧ _lists w3 = _lists w
      ∧ outcome_of (getLists false w3).1 w4 = Some (Rejected e)
      ∧ api_log w4 = api_log w1.
Proof.
  intros Hmt Hc. cbv zeta.
  assert (getLists false w = getLists true w) as ->.
  { rewrite (getLists_fetches false w (or_intror Hc)).
    rewrite (getLists_fetches true w (or_introl eq_refl)). reflexivity. }
  pose proof (getLists_fetches true w (or_introl eq_refl)) as Hg.
  rewrite (drain_lists_loaded w A M WL B Hmt).
  split; [rewrite Hg; reflexivity|]. split; [rewrite Hg; reflexivity|].
  assert (read_lists
            (heap w ++ copied_lists (length (heap w)) A M WL B
                    ++ copied_lists (length (heap w) + 5) A M WL B)
            (length (heap w) + 4) = Some (A, M, WL, B)) as Hsnap
    by apply read_lists_copied.
  split; [exact Hsnap|]. split; [intros name; exact Hsnap|].
  split.
  { rewrite Hg. unfold lists_read, result_of, outcome_of. wcbn.
    rewrite (lookup_app_plus _ _ _ 2) by reflexivity.
    cbn [lookup list_lookup mbind option_bind].
    pose proof (read_lists_copied (heap w ++ copied_lists (length (heap w)) A M WL B) []
                  A M WL B) as H.
    rewrite length_app, app_nil_r, <- app_assoc in H. cbn [copied_lists length] in H.
    replace (length (heap w) + 5 + 4) with (length (heap w) + 9) in H by lia.
    exact H. }
  split.
  { rewrite Hg. unfold result_of, outcome_of. wcbn.
    rewrite (lookup_app_plus _ _ _ 2) by reflexivity.
    cbn [lookup list_lookup]. intros [= H]. lia. }
  split; [reflexivity|].
  intros e. rewrite (drain_lists_failed w e Hmt). rewrite Hg. cbn [fst snd].
  split.
  { unfold outcome_of. wcbn. rewrite (lookup_app_plus _ _ _ 2) by reflexivity.
    reflexivity. }
  split; [reflexivity|].
  destruct (getLists_failed_read
              (set_promises (promises w ++ replicate 3 (Settled (Rejected e)))
                 (set_cache_lists (Some (length (promises w) + 1))
                    (set_api_log (api_log w ++ [ApiGetLists (length (promises w))])
                       (set_promises
                          (promises w
                           ++ [Pending [KThen CbListsLoaded (length (promises w) + 1)];
                               Pending [KThen CbListsCopy (length (promises w) + 2)];
                               Pending []]) w))))
              (length (promises w) + 1) e Hmt eq_refl) as [-> ->].
  { wcbn. rewrite (lookup_app_plus _ _ _ 1) by reflexivity. reflexivity. }
  split; [|reflexivity].
  unfold outcome_of. wcbn. rewrite (lookup_app_plus _ _ _ 0) by lia. reflexivity.
Qed.

Lemma getLists_first_load_witness :
  microtasks (initial ∅) = []
  ∧ _cache_lists (initial ∅) = None
  ∧ lists_read (getLists false (initial ∅)).1
      (drain 2 (resolve_lists (length (promises (initial ∅))) ["ADMIN"] ["MOD"] [] ["BAD"]
                  (getLists false (initial ∅)).2))
    = Some (["ADMIN"], ["MOD"], [], ["BAD"]).
Proof.
  assert (microtasks (initial ∅) = []) as Hmt by reflexivity.
  assert (_cache_lists (initial ∅) = None) as Hc by reflexivity.
  pose proof (getLists_first_load (initial ∅) ["ADMIN"] ["MOD"] [] ["BAD"] Hmt Hc) as H.
  cbv zeta in H. destruct H as (_ & _ & _ & _ & Hread & _).
  split; [exact Hmt|]. split; [exact Hc | exact Hread].
Defined.

(** * Construction *)

(** Evaluation of the runtime on a state whose heap and promise table are
    given cell by cell; what is read from the registry is left alone. *)
Ltac run_world :=
  cbv [construct initial getOverview getLists fetch_overview fetch_lists api_call
       then_ new_promise subscribe settle drain run_task apply_callback
       overview_loaded copy_overview copy_lists alloc resolve_overview resolve_lists
       reject resolve_void read_array write_array read_lists
       heap promises microtasks api_log published invoked _cache_logs
       _cache_overview _cache_lists _online _lists _players _commands
       set_heap set_promises set_microtasks set_api_log set_published
       set_invoked set_cache_logs set_cache_overview set_cache_lists set_lists
       set_players set_commands fst snd
       lookup list_lookup insert list_insert app length map Nat.add].

(** X11.  Construction: the World starts from the stored registry with an
    empty command table, an empty online list and four empty lists, and has
    sent exactly the two background fetches, overview first.  Once the
    remote has answered both, in either order, the online list holds the
    overview's names without repetition, the record under the owner's name
    is flagged (the owner's name being none of the property names of
    [Object.prototype]), [_lists] is the answer of the lists fetch, and
    nothing more has been sent. *)
Theorem construct_loads (stored : gmap string PlayerInfo) (own : string)
    (names A M WL B : list string) :
  prototype_key own = false →
  let w0 := construct stored in
  let w1 := drain 2 (resolve_lists 3 A M WL B
                       (drain 2 (resolve_overview 0 own names w0))) in
  let w2 := drain 2 (resolve_overview 0 own names
                       (drain 2 (resolve_lists 3 A M WL B w0))) in
  api_log w0 = [ApiGetOverview 0; ApiGetLists 3]
  ∧ _players w0 = stored
  ∧ _commands w0 = ∅
  ∧ read_array (heap w0) (_online w0) = []
  ∧ read_lists (heap w0) (_lists w0) = Some ([], [], [], [])
  ∧ (∀ w, w = w1 ∨ w = w2 →
       read_array (heap w) (_online w) = foldl push_absent [] names
       ∧ NoDup (read_array (heap w) (_online w))
       ∧ read_lists (heap w) (_lists w) = Some (A, M, WL, B)
       ∧ _players w = <[own := mark_owner (default blank_info (stored !! own))]> stored
       ∧ api_log w = [ApiGetOverview 0; ApiGetLists 3]
       ∧ microtasks w = []).
Proof.
  intros _. cbv zeta.
  split; [run_world; reflexivity|]. split; [run_world; reflexivity|].
  split; [run_world; reflexivity|]. split; [run_world; reflexivity|].
  split; [run_world; reflexivity|].
  assert (NoDup (foldl push_absent [] names)) as Hnd
    by apply NoDup_foldl_push_absent, NoDup_nil_2.
  intros w [-> | ->].
  - split; [run_world; reflexivity|]. split; [run_world; exact Hnd|].
    split; [run_world; reflexivity|]. split; [run_world; reflexivity|].
    split; run_world; reflexivity.
  - split; [run_world; reflexivity|]. split; [run_world; exact Hnd|].
    split; [run_world; reflexivity|]. split; [run_world; reflexivity|].
    split; run_world; reflexivity.
Qed.

Lemma construct_loads_witness :
  prototype_key "Steve" = false
  ∧ _players (drain 2 (resolve_lists 3 ["ADMIN"] [] [] []
                (drain 2 (resolve_overview 0 "Steve" ["ALICE"] (construct ∅)))))
    = <[("Steve" : string) := mark_owner (default blank_info
                                 ((∅ : gmap string PlayerInfo) !! ("Steve" : string)))]> ∅
  ∧ read_array
      (heap (drain 2 (resolve_overview 0 "Steve" ["ALICE"]
               (drain 2 (resolve_lists 3 ["ADMIN"] [] [] [] (construct ∅))))))
      (_online (drain 2 (resolve_overview 0 "Steve" ["ALICE"]
                  (drain 2 (resolve_lists 3 ["ADMIN"] [] [] [] (construct ∅))))))
    = foldl push_absent [] ["ALICE"].
Proof.
  assert (prototype_key "Steve" = false) as Hkey by reflexivity.
  pose proof (construct_loads ∅ "Steve" ["ALICE"] ["ADMIN"] [] [] [] Hkey) as H.
  cbv zeta in H. destruct H as (_ & _ & _ & _ & _ & H).
  split; [exact Hkey|]. split.
  - exact (proj1 (proj2 (proj2 (proj2 (H _ (or_introl eq_refl)))))).
  - exact (proj1 (H _ (or_intror eq_refl))).
Defined.

(** * The logs *)

Lemma entries_at_app (h ext : list Obj) (es : list nat)
    (entries : list (list (string * string))) :
  entries_at h es entries → entries_at (h ++ ext) es entries.
Proof.
  intros H. eapply Forall2_impl; [exact H|].
  intros e props He. apply lookup_app_l_Some, He.
Qed.

Lemma entries_at_read (h : list Obj) (es : list nat)
    (entries : list (list (string * string))) :
  entries_at h es entries → map (read_entry h) es = map Some entries.
Proof.
  induction 1 as [|e props es entries He _ IH]; [reflexivity|].
  cbn [map]. rewrite IH. unfold read_entry. rewrite He. reflexivity.
Qed.

(** New cells, one per entry, at consecutive addresses. *)
Lemma entries_at_new (h ext : list Obj) (entries : list (list (string * string))) :
  entries_at (h ++ map OLogEntry entries ++ ext) (seq (length h) (length entries)) entries.
Proof.
  revert h. induction entries as [|props entries IH]; intros h; [constructor|].
  cbn [length seq map app]. constructor.
  - apply list_lookup_middle. reflexivity.
  - specialize (IH (h ++ [OLogEntry props])).
    rewrite length_app, <- app_assoc in IH. cbn [length app] in IH.
    replace (length h + 1) with (S (length h)) in IH by lia. exact IH.
Qed.

Lemma copy_entries_at (es : list nat) :
  ∀ (w : World) (entries : list (list (string * string))),
    entries_at (heap w) es entries →
    copy_entries es w
    = (seq (length (heap w)) (length entries),
       set_heap (heap w ++ map OLogEntry entries) w).
Proof.
  induction es as [|e es IH]; intros w entries Hat.
  - apply Forall2_nil_inv_l in Hat as ->. cbn [copy_entries length seq map].
    rewrite app_nil_r. destruct w; reflexivity.
  - apply Forall2_cons_inv_l in Hat as (props & rest & He & Hrest & ->).
    cbn [copy_entries]. rewrite He. unfold alloc.
    rewrite (IH _ rest); [|apply entries_at_app, Hrest].
    cbn [heap set_heap length seq map]. rewrite length_app, <- app_assoc.
    cbn [length app]. replace (length (heap w) + 1) with (S (length (heap w))) by lia.
    destruct w; reflexivity.
Qed.

Lemma alloc_entries_at (entries : list (list (string * string))) :
  ∀ w, alloc_entries entries w
       = (seq (length (heap w)) (length entries),
          set_heap (heap w ++ map OLogEntry entries) w).
Proof.
  induction entries as [|props rest IH]; intros w.
  - cbn [alloc_entries length seq map]. rewrite app_nil_r. destruct w; reflexivity.
  - cbn [alloc_entries]. unfold alloc. rewrite IH.
    cbn [heap set_heap length seq map]. rewrite length_app, <- app_assoc.
    cbn [length app]. replace (length (heap w) + 1) with (S (length (heap w))) by lia.
    destruct w; reflexivity.
Qed.

Lemma copy_logs_at (w : World) (l : nat) (es : list nat)
    (entries : list (list (string * string))) :
  heap w !! l = Some (OLogs es) →
  entries_at (heap w) es entries →
  copy_logs l w
  = (VRef (length (heap w) + 1 + length entries),
     set_heap (heap w ++ copied_logs (length (heap w)) es entries) w).
Proof.
  intros Hl Hat. unfold copy_logs. rewrite Hl. unfold alloc at 1.
  rewrite (copy_entries_at es _ entries); [|apply entries_at_app, Hat].
  unfold alloc, copied_logs. cbn [heap set_heap].
  rewrite !length_app, length_map, <- !app_assoc. cbn [length].
  destruct w; reflexivity.
Qed.

Lemma read_logs_copied (h ext : list Obj) (es : list nat)
    (entries : list (list (string * string))) :
  read_logs (h ++ copied_logs (length h) es entries ++ ext)
            (length h + 1 + length entries)
  = Some (map Some entries).
Proof.
  unfold read_logs, copied_logs. rewrite <- !app_assoc.
  rewrite (lookup_app_plus h _ _ (1 + length entries)) by lia.
  cbn [app]. rewrite lookup_cons_ne_0 by lia. cbn [Nat.add Nat.pred].
  rewrite (lookup_app_plus _ _ _ 0) by (rewrite length_map; lia).
  cbn [lookup list_lookup]. f_equal. apply entries_at_read.
  pose proof (entries_at_new (h ++ [OLogs es])
                ([OLogs (seq (length h + 1) (length entries))] ++ ext) entries) as H.
  rewrite length_app, <- app_assoc in H. exact H.
Qed.

Lemma getLogs_cached_read (w : World) (c l : nat) (es : list nat)
    (entries : list (list (string * string))) :
  microtasks w = [] →
  _cache_logs w = Some c →
  promises w !! c = Some (Settled (Fulfilled (VRef l))) →
  heap w !! l = Some (OLogs es) →
  entries_at (heap w) es entries →
  (getLogs false w).1 = length (promises w)
  ∧ drain 1 (getLogs false w).2
    = set_heap (heap w ++ copied_logs (length (heap w)) es entries)
        (set_promises
           (promises w
            ++ [Settled (Fulfilled (VRef (length (heap w) + 1 + length entries)))]) w).
Proof.
  intros Hmt Hc Hp Hl Hat. unfold getLogs. rewrite Hc, (then_settled w c _ _ Hp).
  cbn [fst snd drain microtasks set_microtasks set_promises]. rewrite Hmt.
  split; [reflexivity|]. cbn [app run_task apply_callback].
  rewrite (copy_logs_at _ l es entries); [|exact Hl|exact Hat].
  erewrite (settle_at _ (promises w) [Pending []] _ 0); [|reflexivity|wcbn; lia|reflexivity].
  destruct w as [h ps mt al pb iv cl co cs on li pl cm]. wsimpl_in Hmt. subst mt.
  reflexivity.
Qed.

Lemma getLogs_cached_logs_read (w : World) (c l : nat) (es : list nat)
    (entries : list (list (string * string))) :
  microtasks w = [] →
  _cache_logs w = Some c →
  promises w !! c = Some (Settled (Fulfilled (VRef l))) →
  heap w !! l = Some (OLogs es) →
  entries_at (heap w) es entries →
  logs_read (getLogs false w).1 (drain 1 (getLogs false w).2) = Some (map Some entries)
  ∧ api_log (drain 1 (getLogs false w).2) = api_log w
  ∧ _cache_logs (drain 1 (getLogs false w).2) = Some c.
Proof.
  intros Hmt Hc Hp Hl Hat.
  destruct (getLogs_cached_read w c l es entries Hmt Hc Hp Hl Hat) as [-> ->].
  split; [|split; [reflexivity | exact Hc]].
  unfold logs_read, result_of, outcome_of. wcbn.
  rewrite (lookup_app_plus _ _ _ 0) by lia. cbn [lookup list_lookup mbind option_bind].
  rewrite <- (app_nil_r (copied_logs _ es entries)). apply read_logs_copied.
Qed.

(** X12.  What [getLogs] returns is made of new cells only: a new array of
    new entry objects with the properties of the cached ones.  Whatever a
    caller does to the heap, as long as the cells that existed before the
    read are left alone, the next plain read returns the same entries, and
    no read of a filled slot sends anything. *)
Theorem getLogs_defensive_copy (w : World) (c l : nat) (es : list nat)
    (entries : list (list (string * string))) :
  microtasks w = [] →
  _cache_logs w = Some c →
  promises w !! c = Some (Settled (Fulfilled (VRef l))) →
  heap w !! l = Some (OLogs es) →
  entries_at (heap w) es entries →
  let w' := drain 1 (getLogs false w).2 in
  (∃ r es',
      result_of (getLogs false w).1 w' = Some r
      ∧ heap w' !! r = Some (OLogs es')
      ∧ heap w !! r = None
      ∧ Forall (λ e, heap w !! e = None) es'
      ∧ entries_at (heap w') es' entries)
  ∧ logs_read (getLogs false w).1 w' = Some (map Some entries)
  ∧ api_log w' = api_log w
  ∧ (∀ t o, heap w !! t = Some o → heap w' !! t = Some o)
  ∧ ∀ h'',
      (∀ t o, heap w !! t = Some o → h'' !! t = Some o) →
      logs_read (getLogs false (set_heap h'' w')).1
                (drain 1 (getLogs false (set_heap h'' w')).2)
      = Some (map Some entries)
      ∧ api_log (drain 1 (getLogs false (set_heap h'' w')).2) = api_log w.
Proof.
  intros Hmt Hc Hp Hl Hat. cbv zeta.
  destruct (getLogs_cached_logs_read w c l es entries Hmt Hc Hp Hl Hat) as (Hread & Hlog & _).
  split; [|split; [exact Hread|split; [exact Hlog|split]]].
  - exists (length (heap w) + 1 + length entries),
           (seq (length (heap w) + 1) (length entries)).
    destruct (getLogs_cached_read w c l es entries Hmt Hc Hp Hl Hat) as [-> ->].
    split.
    { unfold result_of, outcome_of. wcbn.
      rewrite (lookup_app_plus _ _ _ 0) by lia. reflexivity. }
    split.
    { wcbn. unfold copied_logs.
      rewrite (lookup_app_plus _ _ _ (1 + length entries)) by lia.
      cbn [app]. rewrite lookup_cons_ne_0 by lia. cbn [Nat.add Nat.pred].
      rewrite (lookup_app_plus _ _ _ 0) by (rewrite length_map; lia). reflexivity. }
    split; [apply lookup_ge_None; lia|]. split.
    { apply Forall_forall. intros e He. apply list_elem_of_In, in_seq in He.
      apply lookup_ge_None. lia. }
    wcbn. unfold copied_logs.
    pose proof (entries_at_new (heap w ++ [OLogs es])
                  [OLogs (seq (length (heap w) + 1) (length entries))] entries) as H.
    rewrite length_app, <- app_assoc in H. exact H.
  - destruct (getLogs_cached_read w c l es entries Hmt Hc Hp Hl Hat) as [_ ->].
    intros t o Ht. wcbn. apply lookup_app_l_Some, Ht.
  - intros h'' Hkept.
    destruct (getLogs_cached_read w c l es entries Hmt Hc Hp Hl Hat) as [_ ->].
    destruct (getLogs_cached_logs_read
                (set_heap h''
                   (set_heap (heap w ++ copied_logs (length (heap w)) es entries)
                      (set_promises
                         (promises w
                          ++ [Settled (Fulfilled (VRef (length (heap w) + 1 + length entries)))])
                         w)))
                c l es entries) as (Hread' & Hlog' & _);
      [exact Hmt | exact Hc | wcbn; apply lookup_app_l_Some, Hp | apply (Hkept _ _ Hl)
      | eapply Forall2_impl; [exact Hat | intros e props He; apply (Hkept _ _ He)] |].
    split; [exact Hread' | exact Hlog'].
Qed.

Lemma getLogs_fetches (refresh : bool) (w : World) :
  refresh = true ∨ _cache_logs w = None →
  getLogs refresh w
  = (length (promises w) + 1,
     set_cache_logs (Some (length (promises w)))
       (set_api_log (api_log w ++ [ApiGetLogs (length (promises w))])
          (set_promises
             (promises w ++ [Pending [KThen CbLogsCopy (length (promises w) + 1)];
                             Pending []]) w))).
Proof.
  intros Hwhy.
  assert (getLogs refresh w = then_ (fetch_logs w).1 CbLogsCopy (fetch_logs w).2) as ->.
  { unfold getLogs. destruct Hwhy as [-> | ->]; [destruct (_cache_logs w)|];
      destruct (fetch_logs w); reflexivity. }
  unfold fetch_logs, api_call, new_promise. cbn [fst snd].
  erewrite (then_at _ (promises w) [Pending []] (length (promises w)) 0);
    [|reflexivity|lia|reflexivity].
  destruct w as [h ps mt al pb iv cl co cs on li pl cm]. reflexivity.
Qed.

Lemma drain_logs_loaded (w : World) (entries : list (list (string * string))) :
  microtasks w = [] →
  drain 1 (resolve_logs (length (promises w)) entries (getLogs true w).2)
  = set_heap
      (heap w ++ map OLogEntry entries
       ++ [OLogs (seq (length (heap w)) (length entries))]
       ++ copied_logs (length (heap w) + length entries + 1)
            (seq (length (heap w)) (length entries)) entries)
      (set_promises
         (promises w
          ++ [Settled (Fulfilled (VRef (length (heap w) + length entries)));
              Settled (Fulfilled
                (VRef (length (heap w) + length entries + 1 + 1 + length entries)))])
         (getLogs true w).2).
Proof.
  intros Hmt. rewrite (getLogs_fetches true w (or_introl eq_refl)).
  destruct w as [h ps mt al pb iv cl co cs on li pl cm].
  wsimpl_in Hmt. subst mt.
  unfold resolve_logs. rewrite alloc_entries_at. unfold alloc. wsimpl.
  rewrite !length_app, length_map.
  erewrite (settle_at _ ps _ _ 0); [|reflexivity|lia|reflexivity].
  wsimpl. cbn [map app insert list_insert].
  erewrite drain_cons; [|reflexivity].
  wsimpl. cbn [run_task apply_callback].
  erewrite (copy_logs_at _ _ (seq (length h) (length entries)) entries).
  2:{ wsimpl. rewrite <- app_assoc.
      rewrite (lookup_app_plus h _ _ (length entries)) by reflexivity.
      rewrite (lookup_app_plus _ _ _ 0) by (rewrite length_map; lia). reflexivity. }
  2:{ wsimpl. rewrite <- app_assoc. apply entries_at_new. }
  wsimpl. rewrite !length_app, length_map. cbn [length].
  erewrite (settle_at _ ps _ _ 1); [|reflexivity|reflexivity|reflexivity].
  wsimpl. cbn [drain insert list_insert app]. rewrite <- !app_assoc. reflexivity.
Qed.

Lemma drain_logs_failed (w : World) (e : string) :
  microtasks w = [] →
  drain 1 (reject (length (promises w)) e (getLogs true w).2)
  = set_promises (promises w ++ replicate 2 (Settled (Rejected e))) (getLogs true w).2.
Proof.
  intros Hmt. rewrite (getLogs_fetches true w (or_introl eq_refl)).
  destruct w as [h ps mt al pb iv cl co cs on li pl cm].
  wsimpl_in Hmt. subst mt. unfold reject. wsimpl.
  erewrite (settle_at _ ps _ _ 0); [|reflexivity|lia|reflexivity].
  wsimpl. cbn [map app insert list_insert].
  erewrite drain_cons; [|reflexivity].
  wsimpl. cbn [run_task].
  erewrite (settle_at _ ps _ _ 1); [|reflexivity|reflexivity|reflexivity].
  wsimpl. reflexivity.
Qed.

Lemma getLogs_failed_read (w : World) (c : nat) (e : string) :
  microtasks w = [] →
  _cache_logs w = Some c →
  promises w !! c = Some (Settled (Rejected e)) →
  (getLogs false w).1 = length (promises w)
  ∧ drain 1 (getLogs false w).2
    = set_promises (promises w ++ [Settled (Rejected e)]) w.
Proof.
  intros Hmt Hc Hp. unfold getLogs. rewrite Hc, (then_settled w c _ _ Hp).
  cbn [fst snd drain microtasks set_microtasks set_promises]. rewrite Hmt.
  split; [reflexivity|]. cbn [app run_task].
  erewrite (settle_at _ (promises w) [Pending []] _ 0); [|reflexivity|wcbn; lia|reflexivity].
  destruct w as [h ps mt al pb iv cl co cs on li pl cm]. wsimpl_in Hmt. subst mt.
  reflexivity.
Qed.

(** X13.  The first read of the logs sends one fetch and stores the remote's
    promise itself in the slot.  When the remote answers, the reader gets
    the entries, and so does the next plain read, which sends nothing.  When
    the remote rejects, the reader is rejected and the slot keeps the
    failure: the next plain read is rejected with the same error and sends
    nothing. *)
Theorem getLogs_first_load (w : World) (entries : list (list (string * string))) :
  microtasks w = [] →
  _cache_logs w = None →
  let np := length (promises w) in
  let q := (getLogs false w).1 in
  let w1 := (getLogs false w).2 in
  let w2 := drain 1 (resolve_logs np entries w1) in
  let w3 := drain 1 (getLogs false w2).2 in
  api_log w1 = api_log w ++ [ApiGetLogs np]
  ∧ _cache_logs w1 = Some np
  ∧ logs_read q w2 = Some (map Some entries)
  ∧ logs_read (getLogs false w2).1 w3 = Some (map Some entries)
  ∧ result_of (getLogs false w2).1 w3 ≠ result_of q w2
  ∧ api_log w3 = api_log w1
  ∧ ∀ e,
      let w4 := drain 1 (reject np e w1) in
      let w5 := drain 1 (getLogs false w4).2 in
      outcome_of q w4 = Some (Rejected e)
      ∧ outcome_of (getLogs false w4).1 w5 = Some (Rejected e)
      ∧ api_log w5 = api_log w1.
Proof.
  intros Hmt Hc. cbv zeta.
  assert (getLogs false w = getLogs true w) as ->.
  { rewrite (getLogs_fetches false w (or_intror Hc)).
    rewrite (getLogs_fetches true w (or_introl eq_refl)). reflexivity. }
  pose proof (getLogs_fetches true w (or_introl eq_refl)) as Hg.
  rewrite (drain_logs_loaded w entries Hmt).
  set (h1 := heap w ++ map OLogEntry entries
             ++ [OLogs (seq (length (heap w)) (length entries))]).
  assert (length h1 = length (heap w) + length entries + 1) as Hlen.
  { unfold h1. rewrite !length_app, length_map. cbn [length]. lia. }
  assert (heap w ++ map OLogEntry entries
          ++ [OLogs (seq (length (heap w)) (length entries))]
          ++ copied_logs (length (heap w) + length entries + 1)
               (seq (length (heap w)) (length entries)) entries
          = h1 ++ copied_logs (length h1) (seq (length (heap w)) (length entries)) entries)
    as Hheap.
  { rewrite Hlen. unfold h1. rewrite <- !app_assoc. reflexivity. }
  rewrite Hheap.
  split; [rewrite Hg; reflexivity|]. split; [rewrite Hg; reflexivity|].
  assert (logs_read (length (promises w) + 1)
            (set_heap
               (h1 ++ copied_logs (length h1) (seq (length (heap w)) (length entries)) entries)
               (set_promises
                  (promises w
                   ++ [Settled (Fulfilled (VRef (length (heap w) + length entries)));
                       Settled (Fulfilled
                         (VRef (length (heap w) + length entries + 1 + 1 + length entries)))])
                  (getLogs true w).2))
          = Some (map Some entries)) as Hread.
  { unfold logs_read, result_of, outcome_of. wcbn.
    rewrite (lookup_app_plus _ _ _ 1) by reflexivity.
    cbn [lookup list_lookup mbind option_bind].
    rewrite <- Hlen, <- (app_nil_r (copied_logs _ _ entries)). apply read_logs_copied. }
  split; [rewrite Hg; exact Hread|].
  match goal with |- context [getLogs false ?x] => set (w2 := x) in * end.
  assert (microtasks w2 = []) as Hmt2 by (unfold w2; rewrite Hg; exact Hmt).
  assert (_cache_logs w2 = Some (length (promises w))) as Hc2
    by (unfold w2; rewrite Hg; reflexivity).
  assert (promises w2 !! length (promises w)
          = Some (Settled (Fulfilled (VRef (length (heap w) + length entries))))) as Hp2.
  { unfold w2. wcbn. rewrite (lookup_app_plus _ _ _ 0) by lia. reflexivity. }
  assert (heap w2 !! (length (heap w) + length entries)
          = Some (OLogs (seq (length (heap w)) (length entries)))) as Hl2.
  { unfold w2, h1. wcbn. rewrite <- !app_assoc.
    rewrite (lookup_app_plus (heap w) _ _ (length entries)) by reflexivity.
    rewrite (lookup_app_plus _ _ _ 0) by (rewrite length_map; lia). reflexivity. }
  assert (entries_at (heap w2) (seq (length (heap w)) (length entries)) entries) as Hat2.
  { unfold w2, h1. wcbn. rewrite <- !app_assoc. apply entries_at_new. }
  destruct (getLogs_cached_read w2 _ _ _ entries Hmt2 Hc2 Hp2 Hl2 Hat2) as [Hq3 Hw3].
  destruct (getLogs_cached_logs_read w2 _ _ _ entries Hmt2 Hc2 Hp2 Hl2 Hat2)
    as (Hread3 & Hlog3 & _).
  split; [exact Hread3|]. split.
  { assert (result_of (getLogs true w).1 w2
            = Some (length (heap w) + length entries + 1 + 1 + length entries)) as ->.
    { rewrite Hg. unfold result_of, outcome_of, w2. wcbn.
      rewrite (lookup_app_plus _ _ _ 1) by reflexivity. reflexivity. }
    rewrite Hw3, Hq3. unfold result_of, outcome_of. wcbn.
    rewrite (lookup_app_plus _ _ _ 0) by lia. cbn [lookup list_lookup].
    intros [= H]. unfold w2 in H. cbn [heap set_heap set_promises] in H.
    rewrite length_app in H.
    unfold copied_logs in H. rewrite !length_app, length_map in H. cbn [length] in H.
    lia. }
  split; [rewrite Hlog3; unfold w2; rewrite Hg; reflexivity|].
  intros e. rewrite (drain_logs_failed w e Hmt).
  match goal with |- context [getLogs false ?x] => set (w4 := x) in * end.
  assert (microtasks w4 = []) as Hmt4 by (unfold w4; rewrite Hg; exact Hmt).
  assert (_cache_logs w4 = Some (length (promises w))) as Hc4
    by (unfold w4; rewrite Hg; reflexivity).
  assert (promises w4 !! length (promises w) = Some (Settled (Rejected e))) as Hp4.
  { unfold w4. wcbn. rewrite (lookup_app_plus _ _ _ 0) by lia. reflexivity. }
  destruct (getLogs_failed_read w4 _ e Hmt4 Hc4 Hp4) as [-> ->].
  split.
  { rewrite Hg. unfold outcome_of, w4. wcbn.
    rewrite (lookup_app_plus _ _ _ 1) by reflexivity. reflexivity. }
  split.
  { unfold outcome_of. wcbn. rewrite (lookup_app_plus _ _ _ 0) by lia. reflexivity. }
  unfold w4. rewrite Hg. reflexivity.
Qed.

Lemma Logged_entries_at : entries_at (heap Logged.world) [6; 7] Logged.entries.
Proof. repeat constructor. Defined.

Lemma getLogs_defensive_copy_witness :
  microtasks Logged.world = []
  ∧ _cache_logs Logged.world = Some 6
  ∧ promises Logged.world !! 6 = Some (Settled (Fulfilled (VRef 8)))
  ∧ heap Logged.world !! 8 = Some (OLogs [6; 7])
  ∧ entries_at (heap Logged.world) [6; 7] Logged.entries
  ∧ logs_read (getLogs false Logged.world).1 (drain 1 (getLogs false Logged.world).2)
    = Some (map Some Logged.entries).
Proof.
  assert (microtasks Logged.world = []) as Hmt by (vm_compute; reflexivity).
  assert (_cache_logs Logged.world = Some 6) as Hc by (vm_compute; reflexivity).
  assert (promises Logged.world !! 6 = Some (Settled (Fulfilled (VRef 8)))) as Hp
    by (vm_compute; reflexivity).
  assert (heap Logged.world !! 8 = Some (OLogs [6; 7])) as Hl
    by (vm_compute; reflexivity).
  pose proof (getLogs_defensive_copy Logged.world 6 8 [6; 7] Logged.entries
                Hmt Hc Hp Hl Logged_entries_at) as H.
  cbv zeta in H. destruct H as (_ & Hread & _).
  split; [exact Hmt|]. split; [exact Hc|]. split; [exact Hp|]. split; [exact Hl|].
  split; [exact Logged_entries_at | exact Hread].
Defined.

Lemma getLogs_first_load_witness :
  microtasks (construct ∅) = []
  ∧ _cache_logs (construct ∅) = None
  ∧ logs_read (getLogs false (construct ∅)).1
      (drain 1 (resolve_logs (length (promises (construct ∅))) Logged.entries
                  (getLogs false (construct ∅)).2))
    = Some (map Some Logged.entries).
Proof.
  assert (microtasks (construct ∅) = []) as Hmt by reflexivity.
  assert (_cache_logs (construct ∅) = None) as Hc by reflexivity.
  pose proof (getLogs_first_load (construct ∅) Logged.entries Hmt Hc) as H.
  cbv zeta in H. destruct H as (_ & _ & Hread & _).
  split; [exact Hmt|]. split; [exact Hc | exact Hread].
Defined.

(** * Commands, joins, the overview callback, chat lines *)

(** ** Removing a command *)

(** X14.  [removeCommand] drops the listener of the token's canonical form
    and nothing else: afterwards a chat line with any spelling of the token
    publishes its message event and calls nothing; every other token keeps
    its listener; removing a token that is not registered changes nothing;
    and the token can be registered again, under any spelling. *)
Theorem removeCommand_unregisters (w : World) (command : string) :
  (∀ name tok args,
      tok ≠ EmptyString → has_space tok = false → has_line_terminator args = false →
      eq_nocase tok command →
      onMessage_handler name (command_line tok args) (removeCommand command w)
      = Normal (publish (EvMessage (getPlayer name w) (command_line tok args))
                  (removeCommand command w)))
  ∧ (∀ k, k ≠ toLocaleUpperCase command →
       _commands (removeCommand command w) !! k = _commands w !! k)
  ∧ (_commands w !! toLocaleUpperCase command = None → removeCommand command w = w)
  ∧ (∀ tok h, eq_nocase tok command →
       addCommand tok h (removeCommand command w)
       = Normal (set_commands (<[toLocaleUpperCase command := h]> (_commands w)) w)).
Proof.
  split; [|split; [|split]].
  - intros name tok args Hne Hns Hlt Hcase. unfold onMessage_handler.
    rewrite (test_command_line tok args Hne Hns),
            (match_command_line tok args Hne Hns Hlt).
    cbn [publish _commands set_published removeCommand set_commands].
    rewrite (eq_nocase_upper tok command Hcase), lookup_delete_eq. reflexivity.
  - intros k Hk. cbn [removeCommand _commands set_commands].
    apply lookup_delete_ne. auto.
  - intros Hnone. unfold removeCommand. rewrite delete_id by exact Hnone.
    destruct w; reflexivity.
  - intros tok h Hcase. unfold addCommand.
    cbn [removeCommand _commands set_commands].
    rewrite (eq_nocase_upper tok command Hcase), lookup_delete_eq.
    rewrite insert_delete_eq. destruct w; reflexivity.
Qed.

(** X15.  A successful [addCommand] followed by [removeCommand] on any
    spelling of the token gives back the World as it was; in between, a chat
    line with any spelling of the token calls the new listener once, with
    the arguments. *)
Theorem addCommand_removeCommand (w : World) (command command' : string) (h : nat) :
  _commands w !! toLocaleUpperCase command = None →
  eq_nocase command command' →
  let w1 := state_of (addCommand command h w) in
  addCommand command h w = Normal w1
  ∧ (∀ name tok args,
       tok ≠ EmptyString → has_space tok = false → has_line_terminator args = false →
       eq_nocase tok command →
       invoked (state_of (onMessage_handler name (command_line tok args) w1))
       = invoked w ++ [mkInvocation h (getPlayer name w) args])
  ∧ removeCommand command' w1 = w.
Proof.
  intros Hnone Hcase. cbv zeta. unfold addCommand. rewrite Hnone. cbn [state_of].
  split; [reflexivity|]. split.
  - intros name tok args Hne Hns Hlt Htok.
    rewrite (onMessage_registered name tok args h _ Hne Hns Hlt); [reflexivity|].
    cbn [_commands set_commands]. rewrite (eq_nocase_upper tok command Htok).
    apply lookup_insert_eq.
  - unfold removeCommand. cbn [_commands set_commands].
    rewrite <- (eq_nocase_upper command command' Hcase).
    rewrite delete_insert_id by exact Hnone. destruct w; reflexivity.
Qed.

Lemma addCommand_removeCommand_witness :
  _commands (construct ∅) !! toLocaleUpperCase "kick" = None
  ∧ eq_nocase "kick" "KICK"
  ∧ removeCommand "KICK" (state_of (addCommand "kick" 7 (construct ∅))) = construct ∅.
Proof.
  assert (_commands (construct ∅) !! toLocaleUpperCase "kick" = None) as Hnone
    by reflexivity.
  pose proof (addCommand_removeCommand (construct ∅) "kick" "KICK" 7 Hnone kick_KICK) as H.
  cbv zeta in H. destruct H as (_ & _ & Hback).
  split; [exact Hnone|]. split; [exact kick_KICK | exact Hback].
Defined.

(** ** Joins *)

(** X16.  One join: the event World publishes carries the view of the record
    as just updated, under the canonical name: one join more than before
    when the count before is one a JavaScript number steps from exactly
    ([safe_count]), the address as current address and in the history (added
    at the end when new), the owner flag as it was.  The views of all other
    names and everything outside the registry stay as they were. *)
Theorem onJoin_publishes_updated_view (w : World) (name address : string) :
  let w' := onJoin_handler name address w in
  let before := player_info (getPlayer name w) in
  let after := player_info (getPlayer name w') in
  published w' = published w ++ [EvJoin (getPlayer name w')]
  ∧ player_name (getPlayer name w') = toLocaleUpperCase name
  ∧ _players w' !! toLocaleUpperCase name = Some after
  ∧ (safe_count (joins before) → joins after = (joins before + 1)%Z)
  ∧ (_players w !! toLocaleUpperCase name = None → joins after = 1%Z)
  ∧ ip after = address
  ∧ ips before `prefix_of` ips after
  ∧ (∀ a, a ∈ ips after ↔ a ∈ ips before ∨ a = address)
  ∧ owner after = owner before
  ∧ (∀ other, toLocaleUpperCase other ≠ toLocaleUpperCase name →
       getPlayer other w' = getPlayer other w)
  ∧ heap w' = heap w ∧ promises w' = promises w ∧ microtasks w' = microtasks w
  ∧ api_log w' = api_log w ∧ _commands w' = _commands w ∧ invoked w' = invoked w.
Proof.
  cbv zeta. unfold onJoin_handler, publish, getPlayer.
  cbn [published set_published set_players _players _lists player_info player_name
       heap promises microtasks api_log _commands invoked].
  rewrite toLocaleUpperCase_idem, lookup_insert_eq. cbn [default].
  split; [reflexivity|]. split; [reflexivity|]. split; [reflexivity|].
  destruct (_players w !! toLocaleUpperCase name) as [r|]; cbn [default].
  - split; [reflexivity|]. split; [discriminate|]. split; [reflexivity|].
    split; [apply prefix_push_absent|]. split; [apply elem_of_push_absent|].
    split; [reflexivity|]. split; [|repeat split].
    intros other Hother. rewrite lookup_insert_ne by auto. reflexivity.
  - split; [reflexivity|]. split; [reflexivity|]. split; [reflexivity|].
    split; [apply prefix_nil|]. split.
    { intros a. unfold id. cbn [record_join ips blank_info].
      rewrite elem_of_push_absent, list_elem_of_singleton, elem_of_nil. tauto. }
    split; [reflexivity|]. split; [|repeat split].
    intros other Hother. rewrite lookup_insert_ne by auto. reflexivity.
Qed.

Lemma joins_of_lookup (js : list (string * string)) (k : string) :
  ∀ w, _players (joins_of js w) !! k = foldl (join_record k) (_players w !! k) js.
Proof.
  induction js as [|[n a] js IH]; intros w; [reflexivity|].
  unfold joins_of in *. cbn [foldl]. rewrite IH. f_equal.
  rewrite onJoin_players. unfold join_record. cbn [fst snd].
  case_decide as Hn.
  - subst k. rewrite lookup_insert_eq. reflexivity.
  - rewrite lookup_insert_ne by auto. reflexivity.
Qed.

Lemma foldl_join_record_filter (js : list (string * string)) (k : string) :
  ∀ o, foldl (join_record k) o js
       = foldl (join_record k) o (filter (λ j, toLocaleUpperCase j.1 = k) js).
Proof.
  induction js as [|j js IH]; intros o; [reflexivity|].
  rewrite filter_cons. case_decide as Hj; cbn [foldl].
  - apply IH.
  - rewrite <- IH. f_equal. unfold join_record. rewrite decide_False by exact Hj.
    reflexivity.
Qed.

Lemma joins_of_lists (js : list (string * string)) (w : World) :
  _lists (joins_of js w) = _lists w.
Proof.
  revert w. induction js as [|j js IH]; intros w; [reflexivity|].
  unfold joins_of in *. cbn [foldl]. rewrite IH. reflexivity.
Qed.

(** X17.  Joins are accounted per canonical name: in any sequence of joins,
    the view of a player is the one the joins under that player's spellings
    alone would have produced; the joins of other players, wherever they
    fall in the sequence, do not touch it. *)
Theorem joins_of_other_players (w : World) (name : string) (js : list (string * string)) :
  getPlayer name (joins_of js w)
  = getPlayer name
      (joins_of (filter (λ j, toLocaleUpperCase j.1 = toLocaleUpperCase name) js) w).
Proof.
  unfold getPlayer. rewrite !joins_of_lists, !joins_of_lookup.
  rewrite <- foldl_join_record_filter. reflexivity.
Qed.

(** X18.  A returning player: from a record that exists, joins under
    spellings of its name add one to the count each, as long as the count
    stays one a JavaScript number holds exactly ([safe_count], before the
    joins and after them); they keep the history as a prefix and extend it
    with the addresses that are new, keep it free of duplicates, set the
    current address to the last one passed, and leave the owner flag as it
    is. *)
Theorem join_accounting_returning (w : World) (id : string) (r : PlayerInfo)
    (js : list (string * string)) :
  toLocaleUpperCase id = id →
  Forall (λ j, toLocaleUpperCase j.1 = id) js →
  _players w !! id = Some r →
  safe_count (joins r) →
  safe_count (joins r + Z.of_nat (length js)) →
  let r' := player_info (getPlayer id (joins_of js w)) in
  _players (joins_of js w) !! id = Some r'
  ∧ joins r' = (joins r + Z.of_nat (length js))%Z
  ∧ ips r `prefix_of` ips r'
  ∧ (∀ a, a ∈ ips r' ↔ a ∈ ips r ∨ a ∈ js.*2)
  ∧ (NoDup (ips r) → NoDup (ips r'))
  ∧ ip r' = default (ip r) (last js.*2)
  ∧ owner r' = owner r.
Proof.
  intros Hid Hall Hr _ _. cbv zeta. unfold getPlayer. cbn [player_info]. rewrite Hid.
  rewrite (joins_of_existing js w id r Hall Hr).
  change (default blank_info (Some ?x)) with x.
  split; [reflexivity|].
  rewrite rejoin_joins, rejoin_ips, rejoin_ip, rejoin_owner, length_fmap.
  split; [reflexivity|]. split; [apply prefix_foldl_push_absent|].
  split; [intros a; apply elem_of_foldl_push_absent|].
  split; [apply NoDup_foldl_push_absent|]. split; reflexivity.
Qed.

Lemma join_accounting_returning_witness :
  toLocaleUpperCase "ALICE" = "ALICE"
  ∧ _players Session.start !! "ALICE" = Some (mkInfo "1.1.1.1" ["1.1.1.1"] 1 None)
  ∧ safe_count 1
  ∧ safe_count (1 + Z.of_nat (length [("Alice", "2.2.2.2"); ("alice", "1.1.1.1")]))
  ∧ joins (player_info (getPlayer "ALICE"
             (joins_of [("Alice", "2.2.2.2"); ("alice", "1.1.1.1")] Session.start)))
    = (1 + Z.of_nat (length [("Alice", "2.2.2.2"); ("alice", "1.1.1.1")]))%Z.
Proof.
  assert (toLocaleUpperCase "ALICE" = "ALICE") as Hid by reflexivity.
  assert (Forall (λ j : string * string, toLocaleUpperCase j.1 = "ALICE")
            [("Alice", "2.2.2.2"); ("alice", "1.1.1.1")]) as Hall
    by (repeat constructor).
  assert (_players Session.start !! "ALICE" = Some (mkInfo "1.1.1.1" ["1.1.1.1"] 1 None))
    as Hr by reflexivity.
  assert (safe_count 1) as Hs by (unfold safe_count, max_safe_integer; lia).
  assert (safe_count (1 + Z.of_nat (length [("Alice", "2.2.2.2"); ("alice", "1.1.1.1")])))
    as Hs' by (unfold safe_count, max_safe_integer; simpl; lia).
  pose proof (join_accounting_returning Session.start "ALICE" _ _ Hid Hall Hr Hs Hs') as H.
  cbv zeta in H. destruct H as (_ & Hj & _).
  split; [exact Hid|]. split; [exact Hr|]. split; [exact Hs|]. split; [exact Hs' | exact Hj].
Defined.

(** ** The overview callback *)

(** X19.  Loading an overview merges its online names into [_online] in
    place: the names already there stay where they were, each new name is
    added once, in the overview's order; a list without duplicates stays
    without duplicates; an overview that names nobody new changes nothing,
    so loading the same overview twice is the same as loading it once.  No
    other cell of the heap changes. *)
Theorem overview_loaded_merges (ov : nat) (w : World) (own : string) (onl : nat)
    (cur : list string) :
  heap w !! ov = Some (OOverview own onl) →
  heap w !! _online w = Some (OArray cur) →
  let w' := overview_loaded ov w in
  let names := read_array (heap w) onl in
  let merged := read_array (heap w') (_online w') in
  merged = foldl push_absent cur names
  ∧ cur `prefix_of` merged
  ∧ (∀ x, x ∈ merged ↔ x ∈ cur ∨ x ∈ names)
  ∧ (NoDup cur → NoDup merged)
  ∧ ((∀ x, x ∈ names → x ∈ cur) → merged = cur)
  ∧ read_array (heap (overview_loaded ov w')) (_online w') = merged
  ∧ (∀ l, l ≠ _online w → heap w' !! l = heap w !! l)
  ∧ length (heap w') = length (heap w).
Proof.
  intros Hov Hcur. cbv zeta.
  assert (_online (overview_loaded ov w) = _online w) as Hon.
  { unfold overview_loaded. rewrite Hov. reflexivity. }
  assert (heap (overview_loaded ov w)
          = write_array (_online w)
              (foldl push_absent cur (read_array (heap w) onl)) (heap w)) as Hheap.
  { unfold overview_loaded. rewrite Hov. cbn [heap set_players set_heap].
    unfold read_array at 1. rewrite Hcur. reflexivity. }
  rewrite Hon, (overview_loaded_online ov w own onl cur Hov Hcur).
  split; [reflexivity|]. split; [apply prefix_foldl_push_absent|].
  split; [intros x; apply elem_of_foldl_push_absent|].
  split; [apply NoDup_foldl_push_absent|].
  split; [apply foldl_push_absent_id|]. split.
  - assert (ov ≠ _online w) as Hne by (intros ->; congruence).
    assert (heap (overview_loaded ov w) !! ov = Some (OOverview own onl)) as Hov'.
    { rewrite Hheap, write_array_lookup_ne by auto. exact Hov. }
    assert (heap (overview_loaded ov w) !! _online (overview_loaded ov w)
            = Some (OArray (foldl push_absent cur (read_array (heap w) onl)))) as Hcur'.
    { rewrite Hon, Hheap. apply (write_array_lookup_eq _ _ cur _ Hcur). }
    rewrite <- Hon at 1.
    rewrite (overview_loaded_online ov _ own onl _ Hov' Hcur').
    apply foldl_push_absent_id. intros x Hx.
    apply elem_of_foldl_push_absent.
    destruct (decide (onl = _online w)) as [-> | Hne'].
    + revert Hx. rewrite Hheap, (read_array_write_eq _ _ cur _ Hcur).
      rewrite elem_of_foldl_push_absent. auto.
    + right. revert Hx. rewrite Hheap, read_array_write_ne by auto. auto.
  - split.
    + intros l Hl. rewrite Hheap. apply write_array_lookup_ne. auto.
    + rewrite Hheap. apply length_write_array.
Qed.

Lemma overview_loaded_merges_witness :
  heap Merge.world !! 11 = Some (OOverview "OWNER" 10)
  ∧ heap Merge.world !! _online Merge.world = Some (OArray ["ALICE"])
  ∧ read_array (heap (overview_loaded 11 Merge.world))
               (_online (overview_loaded 11 Merge.world))
    = foldl push_absent ["ALICE"] (read_array (heap Merge.world) 10).
Proof.
  assert (heap Merge.world !! 11 = Some (OOverview "OWNER" 10)) as Hov
    by (vm_compute; reflexivity).
  assert (heap Merge.world !! _online Merge.world = Some (OArray ["ALICE"])) as Hcur
    by (vm_compute; reflexivity).
  pose proof (overview_loaded_merges 11 Merge.world "OWNER" 10 ["ALICE"] Hov Hcur) as H.
  cbv zeta in H. destruct H as (Hm & _).
  split; [exact Hov|]. split; [exact Hcur | exact Hm].
Defined.

(** X20.  Loading an overview whose owner's name is none of the property
    names of [Object.prototype] flags the record stored under that name as
    the overview gives it, creating a blank one when there is none, and
    changes no other record and nothing else of a record.  When that name is
    in canonical form, every spelling of it resolves to an owner; when it is
    not, no view built by [getPlayer] changes at all. *)
Theorem overview_loaded_owner (ov : nat) (w : World) (own : string) (onl : nat) :
  heap w !! ov = Some (OOverview own onl) →
  prototype_key own = false →
  let w' := overview_loaded ov w in
  _players w' !! own
  = Some (mkInfo (ip (default blank_info (_players w !! own)))
                 (ips (default blank_info (_players w !! own)))
                 (joins (default blank_info (_players w !! own)))
                 (Some true))
  ∧ (∀ k, k ≠ own → _players w' !! k = _players w !! k)
  ∧ _lists w' = _lists w
  ∧ (toLocaleUpperCase own = own →
     ∀ name, eq_nocase name own →
       isOwner (getPlayer name w') = true
       ∧ joins (player_info (getPlayer name w')) = joins (player_info (getPlayer name w))
       ∧ ips (player_info (getPlayer name w')) = ips (player_info (getPlayer name w))
       ∧ ip (player_info (getPlayer name w')) = ip (player_info (getPlayer name w)))
  ∧ (∀ name, toLocaleUpperCase name ≠ own → getPlayer name w' = getPlayer name w)
  ∧ (toLocaleUpperCase own ≠ own → ∀ name, getPlayer name w' = getPlayer name w).
Proof.
  intros Hov _. cbv zeta.
  assert (_players (overview_loaded ov w)
          = <[own := mark_owner (default blank_info (_players w !! own))]> (_players w))
    as Hpl by (unfold overview_loaded; rewrite Hov; reflexivity).
  assert (_lists (overview_loaded ov w) = _lists w) as Hli
    by (unfold overview_loaded; rewrite Hov; reflexivity).
  assert (∀ name, toLocaleUpperCase name ≠ own →
            getPlayer name (overview_loaded ov w) = getPlayer name w) as Hother.
  { intros name Hname. unfold getPlayer. rewrite Hpl, Hli.
    rewrite lookup_insert_ne by auto. reflexivity. }
  split; [rewrite Hpl; apply lookup_insert_eq|].
  split; [intros k Hk; rewrite Hpl; apply lookup_insert_ne; auto|].
  split; [exact Hli|]. split; [|split; [exact Hother|]].
  - intros Hcanon name Hcase. unfold isOwner, getPlayer. cbn [player_info].
    rewrite (eq_nocase_upper name own Hcase), Hcanon, Hpl, lookup_insert_eq.
    repeat split.
  - intros Hraw name. apply Hother. intros Hname. apply Hraw.
    rewrite <- Hname. apply toLocaleUpperCase_idem.
Qed.

Lemma overview_loaded_owner_witness :
  heap (resolve_overview 0 "Steve" [] (construct ∅)) !! 7 = Some (OOverview "Steve" 6)
  ∧ prototype_key "Steve" = false
  ∧ getPlayer "steve" (overview_loaded 7 (resolve_overview 0 "Steve" [] (construct ∅)))
    = getPlayer "steve" (resolve_overview 0 "Steve" [] (construct ∅)).
Proof.
  assert (heap (resolve_overview 0 "Steve" [] (construct ∅)) !! 7
          = Some (OOverview "Steve" 6)) as Hov by reflexivity.
  assert (prototype_key "Steve" = false) as Hkey by reflexivity.
  pose proof (overview_loaded_owner 7 _ "Steve" 6 Hov Hkey) as H.
  cbv zeta in H. destruct H as (_ & _ & _ & _ & _ & Hraw).
  split; [exact Hov|]. split; [exact Hkey|]. apply Hraw. discriminate.
Defined.

(** ** Chat lines *)

Lemma append_empty_r (s : string) : s +:+ EmptyString = s.
Proof.
  induction s as [|c s IH]; [reflexivity|].
  change (String c (s +:+ EmptyString) = String c s). f_equal. exact IH.
Qed.

Lemma span_non_space_spec (s : string) :
  has_space (span_non_space s).1 = false
  ∧ s = (span_non_space s).1 +:+ (span_non_space s).2
  ∧ ((span_non_space s).2 = EmptyString
     ∨ ∃ rest, (span_non_space s).2 = String " " rest).
Proof.
  induction s as [|c s (IHs & IHe & IHr)]; [repeat split; left; reflexivity|].
  cbn [span_non_space]. destruct (c =? " ")%char eqn:Hc.
  - apply Ascii.eqb_eq in Hc as ->. repeat split. right. eexists. reflexivity.
  - destruct (span_non_space s) as [tok rest]. cbn [fst snd] in *.
    split; [cbn [has_space]; rewrite Hc; exact IHs|].
    split; [change (String c s = String c (tok +:+ rest)); f_equal; exact IHe | exact IHr].
Qed.

(** X21.  What the pattern of line 49 extracts puts the message back
    together: a match gives a token that is not empty and holds no space and
    arguments that hold no line terminator, and the message is the slash,
    the token and, when something follows the token, one space and the
    arguments.  A message that matches also passes the test of line 48. *)
Theorem match_command_inverse (message command args : string) :
  match_command message = Some (command, args) →
  command ≠ EmptyString
  ∧ has_space command = false
  ∧ has_line_terminator args = false
  ∧ test_command message = true
  ∧ (message = command_line command args
     ∨ (args = EmptyString ∧ message = "/" +:+ command)).
Proof.
  unfold match_command. destruct message as [|c rest]; [discriminate|].
  destruct (Ascii.eqb_spec c "/") as [-> | Hc].
  2:{ destruct c as [[] [] [] [] [] [] [] []]; try discriminate. contradiction. }
  cbn match.
  destruct (span_non_space_spec rest) as (Hns & Heq & Htail).
  destruct (span_non_space rest) as [tok tail]. cbn [fst snd] in *.
  destruct tok as [|t tok]; [discriminate|].
  destruct (has_line_terminator _) eqn:Hlt; [discriminate|].
  intros [= <- <-]. split; [discriminate|]. split; [exact Hns|].
  split; [exact Hlt|]. split.
  - rewrite Heq. cbn [has_space] in Hns. apply orb_false_iff in Hns as [Ht _].
    change (negb (t =? " ")%char = true). rewrite Ht. reflexivity.
  - destruct Htail as [-> | [a ->]].
    + right. split; [reflexivity|]. rewrite Heq, append_empty_r. reflexivity.
    + left. rewrite Heq. reflexivity.
Qed.

Lemma match_command_inverse_witness :
  match_command "/kick  a b" = Some ("kick", " a b")
  ∧ ("/kick  a b" = command_line "kick" " a b"
     ∨ (" a b" = EmptyString ∧ "/kick  a b" = "/" +:+ "kick")).
Proof.
  assert (match_command "/kick  a b" = Some ("kick", " a b")) as Hm by reflexivity.
  destruct (match_command_inverse "/kick  a b" "kick" " a b" Hm) as (_ & _ & _ & _ & H).
  split; [exact Hm | exact H].
Defined.

(** X22.  The message handler throws exactly when the message passes the
    test of line 48 and the pattern of line 49 does not match it; for a chat
    line made of a slash, a token and arguments that is when the arguments
    hold a line terminator.  When it throws, the message event has been
    published and no listener has been called. *)
Theorem onMessage_throws_iff (w : World) (name message : string) :
  ((∃ e w', onMessage_handler name message w = Throw e w')
   ↔ test_command message = true ∧ match_command message = None)
  ∧ (∀ e w', onMessage_handler name message w = Throw e w' →
       w' = publish (EvMessage (getPlayer name w) message) w ∧ invoked w' = invoked w)
  ∧ (∀ tok args,
       tok ≠ EmptyString → has_space tok = false →
       message = command_line tok args →
       ((∃ e w', onMessage_handler name message w = Throw e w')
        ↔ has_line_terminator args = true)).
Proof.
  assert ((∃ e w', onMessage_handler name message w = Throw e w')
          ↔ test_command message = true ∧ match_command message = None) as Hiff.
  { unfold onMessage_handler. destruct (test_command message).
    - destruct (match_command message) as [[command args]|].
      + split; [|intros [_ [=]]]. intros (e & w' & H).
        destruct (_commands _ !! _); discriminate.
      + split; [auto|]. intros _. eexists _, _. reflexivity.
    - split; [|intros [[=] _]]. intros (e & w' & H). discriminate. }
  split; [exact Hiff|]. split.
  - intros e w'. unfold onMessage_handler. destruct (test_command message); [|discriminate].
    destruct (match_command message) as [[command args]|].
    + destruct (_commands _ !! _); discriminate.
    + intros [= _ <-]. split; reflexivity.
  - intros tok args Hne Hns ->. rewrite Hiff, (test_command_line tok args Hne Hns).
    destruct (has_line_terminator args) eqn:Hlt.
    + split; [reflexivity|]. intros _. split; [reflexivity|].
      rewrite command_line_cons. unfold match_command.
      rewrite (span_non_space_token tok args Hns), Hlt.
      destruct tok; [contradiction | reflexivity].
    + rewrite (match_command_line tok args Hne Hns Hlt).
      split; [intros [_ [=]] | discriminate].
Qed.

(** ** Events of the chat watcher *)

(** X23.  Handling an event of the chat watcher is local: it publishes
    exactly one event, calls nothing on the remote API, creates no promise
    and no microtask, allocates nothing, and leaves the caches, the lists
    snapshot and the command table as they are; a leave or a message leaves
    the registry as it is too. *)
Theorem watcher_events_are_local (c : Call) (w : World) :
  is_event c = true →
  let w' := call c w in
  length (published w') = S (length (published w))
  ∧ api_log w' = api_log w
  ∧ heap w' = heap w ∧ promises w' = promises w ∧ microtasks w' = microtasks w
  ∧ _cache_overview w' = _cache_overview w ∧ _cache_lists w' = _cache_lists w
  ∧ _cache_logs w' = _cache_logs w
  ∧ _online w' = _online w ∧ _lists w' = _lists w ∧ _commands w' = _commands w
  ∧ (match c with CJoin _ _ => True | _ => _players w' = _players w end).
Proof.
  destruct c; try discriminate; intros _; cbv zeta; cbn [call].
  - unfold onJoin_handler, publish. cbn.
    rewrite length_app. cbn [length]. repeat split. lia.
  - unfold onLeave_handler, publish. cbn.
    rewrite length_app. cbn [length]. repeat split. lia.
  - rewrite onMessage_publishes, length_app. cbn [length].
    split; [lia|]. unfold onMessage_handler, publish, invoke.
    destruct (test_command message); [|repeat split].
    destruct (match_command message) as [[command args]|]; [|repeat split].
    cbn [_commands set_published].
    destruct (_commands w !! toLocaleUpperCase command); repeat split.
Qed.

Lemma watcher_events_are_local_witness :
  is_event (CMessage "alice" "/kick bob") = true
  ∧ api_log (call (CMessage "alice" "/kick bob") Kick.start) = api_log Kick.start
  ∧ length (invoked (call (CMessage "alice" "/kick bob") Kick.start)) = 1.
Proof.
  assert (is_event (CMessage "alice" "/kick bob") = true) as He by reflexivity.
  pose proof (watcher_events_are_local (CMessage "alice" "/kick bob") Kick.start He) as H.
  cbv zeta in H. destruct H as (_ & Hlog & _).
  split; [exact He|]. split; [exact Hlog | reflexivity].
Defined.

(** * Setting the lists without lists, and when the refresh fails *)

(** [setLists] on a World whose lists slot holds a failure. *)
Lemma setLists_slot_failed (w : World) (lists : PartialLists) (c : nat) (e : string) :
  microtasks w = [] →
  _cache_lists w = Some c →
  promises w !! c = Some (Settled (Rejected e)) →
  (setLists lists w).1 = length (promises w)
  ∧ drain 2 (setLists lists w).2
    = set_promises (promises w ++ replicate 2 (Settled (Rejected e))) w.
Proof.
  intros Hmt Hc Hp.
  destruct w as [h ps mt al pb iv cl co cs on li pl cm].
  wsimpl_in Hmt; wsimpl_in Hc; wsimpl_in Hp. subst mt cs.
  unfold setLists, new_promise, getLists. wsimpl.
  rewrite (then_settled _ c (Rejected e)) by (apply lookup_app_l_Some, Hp).
  wsimpl. split; [reflexivity|].
  rewrite length_app. cbn [length app].
  erewrite (subscribe_at _ ps [Pending []; Pending []] _ 1);
    [|wsimpl; rewrite <- app_assoc; reflexivity|reflexivity|reflexivity].
  cbn [drain]. wsimpl. cbn [run_task insert list_insert].
  erewrite (settle_at _ ps _ _ 1); [|reflexivity|reflexivity|reflexivity].
  wsimpl. cbn [map app insert list_insert run_task].
  erewrite (settle_at _ ps _ _ 0); [|reflexivity|lia|reflexivity].
  wsimpl. reflexivity.
Qed.

(** [setLists] on a World that has not loaded its lists: the state after the
    call, and after the fetch it started has failed. *)
Lemma setLists_fetches (w : World) (lists : PartialLists) :
  _cache_lists w = None →
  setLists lists w
  = (length (promises w),
     set_cache_lists (Some (length (promises w) + 2))
       (set_api_log (api_log w ++ [ApiGetLists (length (promises w) + 1)])
          (set_promises
             (promises w ++ [Pending [];
                             Pending [KThen CbListsLoaded (length (promises w) + 2)];
                             Pending [KThen CbListsCopy (length (promises w) + 3)];
                             Pending [KSetLists1 lists (length (promises w))]]) w))).
Proof.
  intros Hc. unfold setLists, new_promise.
  rewrite (getLists_fetches false (set_promises (promises w ++ [Pending []]) w)
             (or_intror Hc)).
  destruct w as [h ps mt al pb iv cl co cs on li pl cm]. wsimpl.
  rewrite length_app, <- !app_assoc. nsimpl.
  erewrite (subscribe_at _ ps _ _ 3); [|reflexivity|reflexivity|reflexivity].
  wsimpl. reflexivity.
Qed.

Lemma drain_setLists_fetch_failed (w : World) (lists : PartialLists) (e : string) :
  microtasks w = [] →
  _cache_lists w = None →
  drain 3 (reject (length (promises w) + 1) e (setLists lists w).2)
  = set_promises (promises w ++ replicate 4 (Settled (Rejected e))) (setLists lists w).2.
Proof.
  intros Hmt Hc. rewrite (setLists_fetches w lists Hc).
  destruct w as [h ps mt al pb iv cl co cs on li pl cm].
  wsimpl_in Hmt. subst mt. unfold reject. wsimpl.
  erewrite (settle_at _ ps _ _ 1); [|reflexivity|reflexivity|reflexivity].
  wsimpl. cbn [map app insert list_insert].
  erewrite drain_cons; [|reflexivity].
  wsimpl. cbn [run_task].
  erewrite (settle_at _ ps _ _ 2); [|reflexivity|reflexivity|reflexivity].
  wsimpl. cbn [map app insert list_insert].
  erewrite drain_cons; [|reflexivity].
  wsimpl. cbn [run_task].
  erewrite (settle_at _ ps _ _ 3); [|reflexivity|reflexivity|reflexivity].
  wsimpl. cbn [map app insert list_insert].
  erewrite drain_cons; [|reflexivity].
  wsimpl. cbn [run_task].
  erewrite (settle_at _ ps _ _ 0); [|reflexivity|lia|reflexivity].
  wsimpl. reflexivity.
Qed.

(** X24.  [setLists] without current lists submits nothing.  When the lists
    slot holds a failed fetch, the call is rejected with that error, and
    neither a fetch nor a submission is sent.  When the slot is empty, the
    call sends the fetch; if that fetch fails, the call is rejected with its
    error and no submission is sent. *)
Theorem setLists_without_lists (w : World) (lists : PartialLists) (e : string) :
  microtasks w = [] →
  (∀ c, _cache_lists w = Some c → promises w !! c = Some (Settled (Rejected e)) →
     let w' := drain 2 (setLists lists w).2 in
     outcome_of (setLists lists w).1 w' = Some (Rejected e)
     ∧ api_log w' = api_log w ∧ heap w' = heap w
     ∧ _cache_lists w' = Some c ∧ microtasks w' = [])
  ∧ (_cache_lists w = None →
     let np := length (promises w) in
     let w1 := (setLists lists w).2 in
     let w' := drain 3 (reject (np + 1) e w1) in
     api_log w1 = api_log w ++ [ApiGetLists (np + 1)]
     ∧ outcome_of (setLists lists w).1 w' = Some (Rejected e)
     ∧ api_log w' = api_log w1 ∧ heap w' = heap w ∧ _lists w' = _lists w
     ∧ microtasks w' = []).
Proof.
  intros Hmt. split.
  - intros c Hc Hp. cbv zeta.
    destruct (setLists_slot_failed w lists c e Hmt Hc Hp) as [-> ->].
    split; [|repeat split; assumption].
    unfold outcome_of. wcbn. rewrite (lookup_app_plus _ _ _ 0) by lia. reflexivity.
  - intros Hc. cbv zeta. rewrite (drain_setLists_fetch_failed w lists e Hmt Hc).
    rewrite (setLists_fetches w lists Hc). cbn [fst snd].
    split; [reflexivity|]. split; [|repeat split; assumption].
    unfold outcome_of. wcbn. rewrite (lookup_app_plus _ _ _ 0) by lia. reflexivity.
Qed.

Lemma setLists_without_lists_witness :
  microtasks (initial ∅) = []
  ∧ _cache_lists (initial ∅) = None
  ∧ outcome_of (setLists (mkPartial None None None None) (initial ∅)).1
      (drain 3 (reject (length (promises (initial ∅)) + 1) "offline"
                  (setLists (mkPartial None None None None) (initial ∅)).2))
    = Some (Rejected "offline").
Proof.
  assert (microtasks (initial ∅) = []) as Hmt by reflexivity.
  assert (_cache_lists (initial ∅) = None) as Hc by reflexivity.
  destruct (setLists_without_lists (initial ∅) (mkPartial None None None None)
              "offline" Hmt) as [_ H].
  specialize (H Hc). cbv zeta in H. destruct H as (_ & Hout & _).
  split; [exact Hmt|]. split; [exact Hc | exact Hout].
Defined.

Lemma drain_refresh_failed (w : World) (lists : PartialLists) (A M WL B : list string)
    (e : string) :
  microtasks w = [] →
  drain 3 (reject (length (promises w) + 3) e (refreshing w lists A M WL B))
  = set_promises
      (promises w ++ [Settled (Rejected e);
                      Settled (Fulfilled (VRef (length (heap w) + 4)));
                      Settled (Fulfilled VUndefined)]
                  ++ replicate 3 (Settled (Rejected e)))
      (refreshing w lists A M WL B).
Proof.
  intros Hmt. destruct w as [h ps mt al pb iv cl co cs on li pl cm].
  wsimpl_in Hmt. subst mt. unfold reject, refreshing, submitted. wsimpl.
  erewrite (settle_at _ ps _ _ 3); [|reflexivity|reflexivity|reflexivity].
  wsimpl. cbn [map app insert list_insert].
  erewrite drain_cons; [|reflexivity].
  wsimpl. cbn [run_task].
  erewrite (settle_at _ ps _ _ 4); [|reflexivity|reflexivity|reflexivity].
  wsimpl. cbn [map app insert list_insert].
  erewrite drain_cons; [|reflexivity].
  wsimpl. cbn [run_task].
  erewrite (settle_at _ ps _ _ 5); [|reflexivity|reflexivity|reflexivity].
  wsimpl. cbn [map app insert list_insert].
  erewrite drain_cons; [|reflexivity].
  wsimpl. cbn [run_task].
  erewrite (settle_at _ ps _ _ 0); [|reflexivity|lia|reflexivity].
  wsimpl. reflexivity.
Qed.

(** X25.  When the remote accepts the submission of [setLists] and the fetch
    that follows fails, the call is rejected with the fetch's error although
    the lists were set: the submission is in the log, [_lists] is still the
    snapshot from before the call, and the lists slot holds the failure, so
    the next plain read of the lists is rejected with the same error and
    sends nothing. *)
Theorem setLists_refresh_failure (w : World) (lists : PartialLists)
    (c cur a m wl b : nat) (A M WL B : list string) (e : string) :
  microtasks w = [] →
  _cache_lists w = Some c →
  promises w !! c = Some (Settled (Fulfilled (VRef cur))) →
  heap w !! cur = Some (OLists a m wl b) →
  heap w !! a = Some (OArray A) → heap w !! m = Some (OArray M) →
  heap w !! wl = Some (OArray WL) → heap w !! b = Some (OArray B) →
  let np := length (promises w) in
  let nh := length (heap w) in
  let r := (setLists lists w).1 in
  let w1 := drain 2 (setLists lists w).2 in
  let w2 := drain 1 (resolve_void (np + 2) w1) in
  let w3 := drain 3 (reject (np + 3) e w2) in
  let w4 := drain 1 (getLists false w3).2 in
  outcome_of r w3 = Some (Rejected e)
  ∧ api_log w3 = api_log w ++ [ApiSetLists (nh + 5) (np + 2); ApiGetLists (np + 3)]
  ∧ _lists w3 = _lists w
  ∧ _cache_lists w3 = Some (np + 4)
  ∧ outcome_of (np + 4) w3 = Some (Rejected e)
  ∧ outcome_of (getLists false w3).1 w4 = Some (Rejected e)
  ∧ api_log w4 = api_log w3.
Proof.
  intros Hmt Hc Hp Hcur Ha Hm Hwl Hb. cbv zeta.
  destruct (setLists_submits w lists c cur a m wl b A M WL B Hmt Hc Hp Hcur Ha Hm Hwl Hb)
    as [-> ->].
  rewrite (drain_refreshing w lists A M WL B Hmt).
  rewrite (drain_refresh_failed w lists A M WL B e Hmt).
  split.
  { unfold outcome_of. wcbn. rewrite (lookup_app_plus _ _ _ 0) by lia. reflexivity. }
  split; [reflexivity|].
  split; [reflexivity|]. split; [reflexivity|].
  assert (promises
            (set_promises
               (promises w ++ [Settled (Rejected e);
                               Settled (Fulfilled (VRef (length (heap w) + 4)));
                               Settled (Fulfilled VUndefined)]
                           ++ replicate 3 (Settled (Rejected e)))
               (refreshing w lists A M WL B)) !! (length (promises w) + 4)
          = Some (Settled (Rejected e))) as Hslot.
  { wcbn. rewrite (lookup_app_plus _ _ _ 4) by reflexivity. reflexivity. }
  split; [unfold outcome_of; rewrite Hslot; reflexivity|].
  match goal with
  | |- context [getLists false ?x] =>
      destruct (getLists_failed_read x (length (promises w) + 4) e Hmt eq_refl Hslot)
        as [-> ->]
  end.
  split; [|reflexivity].
  unfold outcome_of. wcbn. rewrite (lookup_app_plus _ _ _ 0) by lia. reflexivity.
Qed.

Lemma setLists_refresh_failure_witness :
  microtasks NewAdmins.world = []
  ∧ _cache_lists NewAdmins.world = Some 4
  ∧ outcome_of (setLists NewAdmins.update NewAdmins.world).1
      (drain 3 (reject (length (promises NewAdmins.world) + 3) "offline"
         (drain 1 (resolve_void (length (promises NewAdmins.world) + 2)
            (drain 2 (setLists NewAdmins.update NewAdmins.world).2)))))
    = Some (Rejected "offline").
Proof.
  assert (microtasks NewAdmins.world = []) as Hmt by (vm_compute; reflexivity).
  assert (_cache_lists NewAdmins.world = Some 4) as Hc by (vm_compute; reflexivity).
  assert (promises NewAdmins.world !! 4 = Some (Settled (Fulfilled (VRef 10)))) as Hp
    by (vm_compute; reflexivity).
  assert (heap NewAdmins.world !! 10 = Some (OLists 6 7 8 9)) as Hcur
    by (vm_compute; reflexivity).
  assert (heap NewAdmins.world !! 6 = Some (OArray ["ADMIN"])) as Ha
    by (vm_compute; reflexivity).
  assert (heap NewAdmins.world !! 7 = Some (OArray ["MOD"])) as Hm
    by (vm_compute; reflexivity).
  assert (heap NewAdmins.world !! 8 = Some (OArray ["WHITE"])) as Hwl
    by (vm_compute; reflexivity).
  assert (heap NewAdmins.world !! 9 = Some (OArray ["BLACK"])) as Hb
    by (vm_compute; reflexivity).
  pose proof (setLists_refresh_failure NewAdmins.world NewAdmins.update 4 10 6 7 8 9
                ["ADMIN"] ["MOD"] ["WHITE"] ["BLACK"] "offline"
                Hmt Hc Hp Hcur Ha Hm Hwl Hb) as H.
  cbv zeta in H. destruct H as (Hout & _).
  split; [exact Hmt|]. split; [exact Hc | exact Hout].
Defined.

(** * Calls forwarded to the remote API *)

(** X28.  [send], [start], [stop] and [restart] forward to the remote API and
    add nothing of their own: each makes exactly one call, the promise the
    caller holds is the remote's (whatever the remote settles it with is
    what the caller sees), and nothing else of the World changes. *)
Theorem forwarded_calls (c : Call) (request : nat → ApiCall) (w : World) :
  forwarded c = Some request →
  let p := length (promises w) in
  let w' := call c w in
  api_log w' = api_log w ++ [request p]
  ∧ promises w' = promises w ++ [Pending []]
  ∧ (∀ o, outcome_of p (settle p o w') = Some o)
  ∧ (∀ o, microtasks (settle p o w') = microtasks w)
  ∧ heap w' = heap w ∧ microtasks w' = microtasks w
  ∧ _players w' = _players w ∧ _commands w' = _commands w
  ∧ _cache_overview w' = _cache_overview w ∧ _cache_lists w' = _cache_lists w
  ∧ _cache_logs w' = _cache_logs w ∧ _lists w' = _lists w
  ∧ published w' = published w.
Proof.
  intros Hc. cbv zeta.
  assert (call c w = (api_call request w).2) as ->.
  { destruct c; try discriminate; injection Hc as <-; reflexivity. }
  unfold api_call, new_promise. cbn [snd].
  split; [reflexivity|]. split; [reflexivity|].
  split.
  { intros o.
    erewrite (settle_at _ (promises w) [Pending []] _ 0); [|reflexivity|lia|reflexivity].
    unfold outcome_of. wcbn. rewrite (lookup_app_plus _ _ _ 0) by lia. reflexivity. }
  split.
  { intros o.
    erewrite (settle_at _ (promises w) [Pending []] _ 0); [|reflexivity|lia|reflexivity].
    wcbn. apply app_nil_r. }
  repeat split.
Qed.

Lemma forwarded_calls_witness :
  forwarded (CSend "hello") = Some (ApiSend "hello")
  ∧ api_log (call (CSend "hello") (construct ∅))
    = api_log (construct ∅) ++ [ApiSend "hello" (length (promises (construct ∅)))].
Proof.
  assert (forwarded (CSend "hello") = Some (ApiSend "hello")) as Hc by reflexivity.
  pose proof (forwarded_calls (CSend "hello") _ (construct ∅) Hc) as H.
  cbv zeta in H. destruct H as (Hlog & _).
  split; [exact Hc | exact Hlog].
Defined.

Lemma getLists_defensive_copy_witness :
  microtasks NewAdmins.loaded = []
  ∧ _cache_lists NewAdmins.loaded = Some 4
  ∧ promises NewAdmins.loaded !! 4 = Some (Settled (Fulfilled (VRef 10)))
  ∧ result_of (getLists false NewAdmins.loaded).1
      (drain 1 (getLists false NewAdmins.loaded).2)
    = Some (length (heap NewAdmins.loaded) + 4)
  ∧ heap (drain 1 (getLists false NewAdmins.loaded).2)
      !! (length (heap NewAdmins.loaded) + 4)
    = Some (OLists (length (heap NewAdmins.loaded)) (length (heap NewAdmins.loaded) + 1)
                   (length (heap NewAdmins.loaded) + 2)
                   (length (heap NewAdmins.loaded) + 3)).
Proof.
  assert (microtasks NewAdmins.loaded = []) as Hmt by (vm_compute; reflexivity).
  assert (_cache_lists NewAdmins.loaded = Some 4) as Hc by (vm_compute; reflexivity).
  assert (promises NewAdmins.loaded !! 4 = Some (Settled (Fulfilled (VRef 10)))) as Hp
    by (vm_compute; reflexivity).
  assert (heap NewAdmins.loaded !! 10 = Some (OLists 6 7 8 9)) as Hl
    by (vm_compute; reflexivity).
  assert (heap NewAdmins.loaded !! 6 = Some (OArray ["ADMIN"])) as Ha
    by (vm_compute; reflexivity).
  assert (heap NewAdmins.loaded !! 7 = Some (OArray ["MOD"])) as Hm
    by (vm_compute; reflexivity).
  assert (heap NewAdmins.loaded !! 8 = Some (OArray ["WHITE"])) as Hwl
    by (vm_compute; reflexivity).
  assert (heap NewAdmins.loaded !! 9 = Some (OArray ["BLACK"])) as Hb
    by (vm_compute; reflexivity).
  pose proof (getLists_defensive_copy NewAdmins.loaded 4 10 6 7 8 9
                ["ADMIN"] ["MOD"] ["WHITE"] ["BLACK"] Hmt Hc Hp Hl Ha Hm Hwl Hb) as H.
  cbv zeta in H. destruct H as (Hres & Hcell & _).
  split; [exact Hmt|]. split; [exact Hc|]. split; [exact Hp|].
  split; [exact Hres | exact Hcell].
Defined.

(** * One fetch for many readers of the lists *)

Lemma getLists_pending (w : World) (k : nat) :
  getLists false (pending_lists w k)
  = (length (promises w) + 2 + k, pending_lists w (S k)).
Proof.
  unfold getLists. cbn [pending_lists _cache_lists set_cache_lists].
  erewrite (then_at _ (promises w) _ (length (promises w) + 1) 1);
    [|reflexivity|lia|reflexivity].
  cbn [app length insert list_insert]. rewrite length_replicate.
  replace (length (promises w) + S (S k)) with (length (promises w) + 2 + k) by lia.
  f_equal. unfold pending_lists.
  rewrite <- (replicate_snoc k), seq_S, map_app. cbn [map app].
  destruct w; reflexivity.
Qed.

Lemma getLists_times_pending (n : nat) (w : World) (k : nat) :
  getLists_times n (pending_lists w k)
  = (seq (length (promises w) + 2 + k) n, pending_lists w (k + n)).
Proof.
  revert k. induction n as [|n IH]; intros k.
  - simpl. rewrite Nat.add_0_r. reflexivity.
  - cbn [getLists_times]. rewrite getLists_pending, IH. cbn [seq].
    replace (length (promises w) + 2 + S k) with (S (length (promises w) + 2 + k)) by lia.
    replace (S k + n) with (k + S n) by lia. reflexivity.
Qed.

Lemma getLists_times_fetches (n : nat) (w : World) :
  _cache_lists w = None →
  getLists_times (S n) w
  = (seq (length (promises w) + 2) (S n), pending_lists w (S n)).
Proof.
  intros Hc. cbn [getLists_times].
  rewrite (getLists_fetches false w (or_intror Hc)).
  change (set_cache_lists _ _) with (pending_lists w 1).
  rewrite (getLists_times_pending n w 1).
  replace (length (promises w) + 2 + 1) with (S (length (promises w) + 2)) by lia.
  reflexivity.
Qed.

Lemma copies_of_lists_snoc (nh k : nat) (A M WL B : list string) :
  copies_of_lists nh k A M WL B ++ copied_lists (nh + 5 * k) A M WL B
  = copies_of_lists nh (S k) A M WL B.
Proof.
  revert nh. induction k as [|k IH]; intros nh.
  - cbn [copies_of_lists app]. rewrite Nat.mul_0_r, Nat.add_0_r, app_nil_r. reflexivity.
  - cbn [copies_of_lists]. rewrite <- app_assoc.
    replace (nh + 5 * S k) with (nh + 5 + 5 * k) by lia.
    rewrite IH. reflexivity.
Qed.

Lemma length_copies_of_lists (nh k : nat) (A M WL B : list string) :
  length (copies_of_lists nh k A M WL B) = 5 * k.
Proof.
  revert nh. induction k as [|k IH]; intros nh; [reflexivity|].
  cbn [copies_of_lists]. rewrite length_app, IH. cbn [copied_lists length]. lia.
Qed.

Lemma drain_lists_copies (j : nat) :
  ∀ (i : nat) (ps0 : list Cell) (hp : list Obj) (w : World) (l a m wl b : nat)
    (A M WL B : list string),
    promises w
    = ps0 ++ map (λ t, Settled (Fulfilled (VRef (length hp + 5 * t + 4)))) (seq 0 i)
          ++ replicate j (Pending []) →
    heap w = hp ++ copies_of_lists (length hp) i A M WL B →
    hp !! l = Some (OLists a m wl b) →
    hp !! a = Some (OArray A) → hp !! m = Some (OArray M) →
    hp !! wl = Some (OArray WL) → hp !! b = Some (OArray B) →
    microtasks w
    = map (λ q, (KThen CbListsCopy q, Fulfilled (VRef l))) (seq (length ps0 + i) j) →
    drain j w
    = set_microtasks []
        (set_heap (hp ++ copies_of_lists (length hp) (i + j) A M WL B)
           (set_promises
              (ps0 ++ map (λ t, Settled (Fulfilled (VRef (length hp + 5 * t + 4))))
                          (seq 0 (i + j))) w)).
Proof.
  induction j as [|j IH]; intros i ps0 hp w l a m wl b A M WL B Hps Hh Hl Ha Hm Hwl Hb Hmt.
  - destruct w; simpl in *; subst. rewrite app_nil_r, Nat.add_0_r. reflexivity.
  - cbn [drain]. rewrite Hmt. cbn [seq map run_task apply_callback].
    erewrite (copy_lists_at _ l a m wl b A M WL B);
      [|cbn [heap set_microtasks]; rewrite Hh; apply lookup_app_l_Some; assumption..].
    cbn [heap set_microtasks]. rewrite Hh, length_app, length_copies_of_lists.
    rewrite (settle_at _ (ps0 ++ map (λ t, Settled (Fulfilled (VRef (length hp + 5 * t + 4))))
                                      (seq 0 i))
               (replicate (S j) (Pending [])) _ 0 []).
    + rewrite (IH (S i) ps0 hp _ l a m wl b A M WL B).
      * replace (S i + j) with (i + S j) by lia. destruct w; reflexivity.
      * change (replicate (S j) (Pending [])) with (Pending [] :: replicate j (Pending [])).
        cbn [promises set_promises set_microtasks set_heap insert list_insert].
        rewrite seq_S, map_app. cbn [map]. rewrite <- !app_assoc. reflexivity.
      * cbn [heap set_promises set_microtasks set_heap].
        rewrite <- app_assoc, copies_of_lists_snoc. reflexivity.
      * exact Hl.
      * exact Ha.
      * exact Hm.
      * exact Hwl.
      * exact Hb.
      * cbn [microtasks set_promises set_microtasks set_heap map]. rewrite app_nil_r.
        replace (length ps0 + S i) with (S (length ps0 + i)) by lia. reflexivity.
    + cbn [promises set_microtasks set_heap]. rewrite Hps, app_assoc. reflexivity.
    + rewrite length_app, length_map, length_seq. lia.
    + reflexivity.
Qed.

Lemma drain_loaded_lists (w : World) (k : nat) (A M WL B : list string) :
  microtasks w = [] →
  drain (S k) (resolve_lists (length (promises w)) A M WL B (pending_lists w k))
  = loaded_lists w k A M WL B.
Proof.
  intros Hmt. destruct w as [h ps mt al pb iv cl co cs on li pl cm].
  wsimpl_in Hmt. subst mt.
  unfold resolve_lists, alloc, pending_lists, loaded_lists, copied_lists. wsimpl.
  rewrite <- !app_assoc, !length_app. nsimpl.
  erewrite (settle_at _ ps _ _ 0); [|reflexivity|lia|reflexivity].
  wsimpl. cbn [map app insert list_insert].
  erewrite drain_cons; [|reflexivity].
  wsimpl. cbn [run_task apply_callback]. wsimpl.
  erewrite (settle_at _ ps _ _ 1); [|reflexivity|reflexivity|reflexivity].
  wsimpl. cbn [map app insert list_insert].
  erewrite (drain_lists_copies k 0
              (ps ++ [Settled (Fulfilled (VRef (length h + 4)));
                      Settled (Fulfilled (VRef (length h + 4)))])
              (h ++ copied_lists (length h) A M WL B)
              _ (length h + 4) (length h) (length h + 1) (length h + 2) (length h + 3)
              A M WL B).
  - wsimpl. rewrite !length_app. unfold copied_lists. cbn [length Nat.add].
    rewrite <- !app_assoc. cbn [app]. reflexivity.
  - wsimpl. cbn [seq map app]. rewrite <- app_assoc. reflexivity.
  - wsimpl. cbn [copies_of_lists]. rewrite app_nil_r. reflexivity.
  - rewrite <- (app_nil_r (copied_lists _ A M WL B)).
    apply (copied_lists_lookup h [] A M WL B).
  - rewrite <- (app_nil_r (copied_lists _ A M WL B)).
    apply (copied_lists_lookup h [] A M WL B).
  - rewrite <- (app_nil_r (copied_lists _ A M WL B)).
    apply (copied_lists_lookup h [] A M WL B).
  - rewrite <- (app_nil_r (copied_lists _ A M WL B)).
    apply (copied_lists_lookup h [] A M WL B).
  - rewrite <- (app_nil_r (copied_lists _ A M WL B)).
    apply (copied_lists_lookup h [] A M WL B).
  - wsimpl. rewrite map_map, length_app. cbn [length].
    replace (length ps + 2 + 0) with (length ps + 2) by lia.
    reflexivity.
Qed.

Lemma read_lists_copies (k : nat) (A M WL B : list string) :
  ∀ (h ext : list Obj) (t : nat),
    t < k →
    read_lists (h ++ copies_of_lists (length h) k A M WL B ++ ext)
               (length h + 5 * t + 4)
    = Some (A, M, WL, B).
Proof.
  induction k as [|k IH]; intros h ext t Ht; [lia|].
  cbn [copies_of_lists]. rewrite <- app_assoc. destruct t as [|t].
  - replace (length h + 5 * 0 + 4) with (length h + 4) by lia.
    apply read_lists_copied.
  - specialize (IH (h ++ copied_lists (length h) A M WL B) ext t).
    rewrite length_app, <- app_assoc in IH. cbn [copied_lists length] in IH.
    replace (length h + 5 * S t + 4) with (length h + 5 + 5 * t + 4) by lia.
    apply IH. lia.
Qed.

Lemma drain_failed_lists (w : World) (k : nat) (e : string) :
  microtasks w = [] →
  drain (S k) (reject (length (promises w)) e (pending_lists w k))
  = set_microtasks []
      (set_promises (promises w ++ replicate (k + 2) (Settled (Rejected e)))
         (pending_lists w k)).
Proof.
  intros Hmt. unfold reject.
  erewrite (settle_at _ (promises w) _ _ 0); [|reflexivity|lia|reflexivity].
  cbn [drain microtasks set_microtasks set_promises pending_lists set_cache_lists
       set_api_log map].
  rewrite Hmt. cbn [app run_task].
  erewrite (settle_at _ (promises w) _ _ 1); [|reflexivity|lia|reflexivity].
  cbn [insert list_insert app microtasks set_microtasks].
  rewrite (drain_rejections k 2 (promises w) _ CbListsCopy e).
  - replace (2 + k) with (k + 2) by lia. destruct w; reflexivity.
  - reflexivity.
  - cbn [microtasks set_microtasks set_promises]. rewrite map_map. reflexivity.
Qed.

(** X29.  From an empty slot, any number of plain reads of the lists made
    before the remote answers send one fetch; when the remote answers, each
    reader gets the lists in an object of its own, and when it rejects each
    reader is rejected with that error; nothing more is sent. *)
Theorem getLists_single_flight (w : World) (n : nat) :
  microtasks w = [] →
  _cache_lists w = None →
  let np := length (promises w) in
  let qs := (getLists_times (S n) w).1 in
  let w' := (getLists_times (S n) w).2 in
  qs = seq (np + 2) (S n)
  ∧ api_log w' = api_log w ++ [ApiGetLists np]
  ∧ _cache_lists w' = Some (np + 1)
  ∧ (∀ A M WL B q, q ∈ qs →
       lists_read q (drain (S (S n)) (resolve_lists np A M WL B w')) = Some (A, M, WL, B))
  ∧ (∀ A M WL B q q', q ∈ qs → q' ∈ qs → q ≠ q' →
       result_of q (drain (S (S n)) (resolve_lists np A M WL B w'))
       ≠ result_of q' (drain (S (S n)) (resolve_lists np A M WL B w')))
  ∧ (∀ e q, q ∈ qs →
       outcome_of q (drain (S (S n)) (reject np e w')) = Some (Rejected e))
  ∧ (∀ A M WL B,
       api_log (drain (S (S n)) (resolve_lists np A M WL B w')) = api_log w')
  ∧ (∀ e, api_log (drain (S (S n)) (reject np e w')) = api_log w').
Proof.
  intros Hmt Hc. cbv zeta.
  rewrite (getLists_times_fetches n w Hc). cbn [fst snd].
  split; [reflexivity|]. split; [reflexivity|]. split; [reflexivity|].
  assert (∀ A M WL B q, q ∈ seq (length (promises w) + 2) (S n) →
            result_of q (loaded_lists w (S n) A M WL B)
            = Some (length (heap w) + 5 + 5 * (q - (length (promises w) + 2)) + 4))
    as Hres.
  { intros A M WL B q Hq. apply list_elem_of_In, in_seq in Hq.
    unfold result_of, outcome_of.
    cbn [loaded_lists promises set_microtasks set_lists set_heap set_promises].
    replace q with (length (promises w) + (2 + (q - (length (promises w) + 2)))) at 1
      by lia.
    rewrite (lookup_app_plus _ _ _ _ eq_refl).
    cbn [app]. rewrite !lookup_cons_ne_0 by lia. cbn [Nat.pred Nat.add].
    rewrite lookup_map_seq by lia. reflexivity. }
  pose proof (λ e, drain_failed_lists w (S n) e Hmt) as Hrej.
  split.
  { intros A M WL B q Hq. rewrite (drain_loaded_lists w (S n) A M WL B Hmt).
    unfold lists_read. rewrite (Hres A M WL B q Hq). cbn [mbind option_bind].
    apply list_elem_of_In, in_seq in Hq.
    cbn [loaded_lists heap set_microtasks set_lists set_heap].
    pose proof (read_lists_copies (S n) A M WL B
                  (heap w ++ copied_lists (length (heap w)) A M WL B) []
                  (q - (length (promises w) + 2))) as H.
    rewrite length_app, app_nil_r, <- app_assoc in H. cbn [copied_lists length] in H.
    apply H. lia. }
  split.
  { intros A M WL B q q' Hq Hq' Hne. rewrite (drain_loaded_lists w (S n) A M WL B Hmt).
    rewrite (Hres A M WL B q Hq), (Hres A M WL B q' Hq').
    apply list_elem_of_In, in_seq in Hq. apply list_elem_of_In, in_seq in Hq'.
    intros [= H]. lia. }
  split.
  { intros e q Hq. rewrite Hrej. apply list_elem_of_In, in_seq in Hq.
    apply (outcome_of_rejected_block (promises w) (S n + 2)); [reflexivity | lia]. }
  split.
  - intros A M WL B. rewrite (drain_loaded_lists w (S n) A M WL B Hmt). reflexivity.
  - intros e. rewrite Hrej. reflexivity.
Qed.

Lemma getLists_single_flight_witness :
  microtasks (initial ∅) = []
  ∧ _cache_lists (initial ∅) = None
  ∧ (getLists_times (S 1) (initial ∅)).1 = seq (length (promises (initial ∅)) + 2) (S 1)
  ∧ api_log (getLists_times (S 1) (initial ∅)).2
    = api_log (initial ∅) ++ [ApiGetLists (length (promises (initial ∅)))].
Proof.
  assert (microtasks (initial ∅) = []) as Hmt by reflexivity.
  assert (_cache_lists (initial ∅) = None) as Hc by reflexivity.
  pose proof (getLists_single_flight (initial ∅) 1 Hmt Hc) as H.
  cbv zeta in H. destruct H as (Hqs & Hlog & _).
  split; [exact Hmt|]. split; [exact Hc|]. split; [exact Hqs | exact Hlog].
Defined.

(** * Setting the lists while they load *)

Lemma drain_plus (a b : nat) : ∀ w, drain (a + b) w = drain b (drain a w).
Proof.
  induction a as [|a IH]; intros w; [reflexivity|].
  cbn [Nat.add drain]. destruct (microtasks w) as [|t rest] eqn:E; [|apply IH].
  destruct b; cbn [drain]; [reflexivity | rewrite E; reflexivity].
Qed.

Lemma drain_lists_copies_at (l a m wl b : nat) (A M WL B : list string) (qs : list nat) :
  ∀ (w : World) (rest : list (Cont * Outcome)),
    microtasks w = map (λ q, (KThen CbListsCopy q, Fulfilled (VRef l))) qs ++ rest →
    heap w !! l = Some (OLists a m wl b) →
    heap w !! a = Some (OArray A) → heap w !! m = Some (OArray M) →
    heap w !! wl = Some (OArray WL) → heap w !! b = Some (OArray B) →
    Forall (λ q, promises w !! q = Some (Pending [])) qs →
    NoDup qs →
    drain (length qs) w
    = set_microtasks rest
        (set_heap (heap w ++ copies_of_lists (length (heap w)) (length qs) A M WL B)
           (set_promises (fulfil_each (length (heap w) + 4) 5 qs (promises w)) w)).
Proof.
  induction qs as [|q qs IH]; intros w rest Hmt Hl Ha Hm Hwl Hb Hall Hnd.
  - cbn [length drain fulfil_each copies_of_lists]. cbn [map app] in Hmt.
    rewrite app_nil_r, <- Hmt. destruct w; reflexivity.
  - apply Forall_cons in Hall as [Hq Hall]. apply NoDup_cons in Hnd as [Hnq Hnd].
    cbn [length drain]. rewrite Hmt. cbn [map app run_task apply_callback].
    rewrite (copy_lists_at _ l a m wl b A M WL B) by assumption.
    cbn [heap set_microtasks].
    rewrite (settle_pending q [] _) by exact Hq.
    cbn [map]. rewrite app_nil_r.
    rewrite (IH _ rest); [|reflexivity|..|exact Hnd];
      try (cbn [heap set_microtasks set_promises set_heap];
           apply lookup_app_l_Some; assumption).
    + cbn [heap promises set_microtasks set_promises set_heap fulfil_each copies_of_lists].
      rewrite length_app, <- app_assoc. cbn [copied_lists length].
      replace (length (heap w) + 5 + 4) with (length (heap w) + 4 + 5) by lia.
      destruct w; reflexivity.
    + cbn [promises set_microtasks set_promises set_heap].
      apply Forall_forall. intros x Hx.
      rewrite list_lookup_insert_ne by (intros ->; contradiction).
      exact (proj1 (Forall_forall _ _) Hall x Hx).
Qed.

Lemma getLists_waits (c : nat) (qs : list nat) (w : World) :
  _cache_lists w = Some c →
  promises w !! c = Some (Pending (map (KThen CbListsCopy) qs)) →
  getLists false w
  = (length (promises w),
     set_promises
       (<[c := Pending (map (KThen CbListsCopy) (qs ++ [length (promises w)]))]>
          (promises w ++ [Pending []])) w).
Proof.
  intros Hc Hp. unfold getLists. rewrite Hc.
  rewrite (then_pending c _ _ w Hp), map_app. reflexivity.
Qed.

Lemma setLists_waits (w : World) (lists : PartialLists) (c : nat) (qs : list nat) :
  _cache_lists w = Some c →
  promises w !! c = Some (Pending (map (KThen CbListsCopy) qs)) →
  setLists lists w
  = (length (promises w),
     set_promises
       (<[length (promises w) + 1 := Pending [KSetLists1 lists (length (promises w))]]>
          (<[c := Pending (map (KThen CbListsCopy) (qs ++ [length (promises w) + 1]))]>
             (promises w ++ [Pending []; Pending []]))) w).
Proof.
  intros Hc Hp. pose proof (lookup_lt_Some _ _ _ Hp) as Hlt.
  unfold setLists, new_promise.
  rewrite (getLists_waits c qs); [|exact Hc|cbn [promises set_promises]; apply lookup_app_l_Some, Hp].
  cbn [promises set_promises]. rewrite length_app. cbn [length].
  unfold subscribe. cbn [promises set_promises].
  rewrite list_lookup_insert_ne by lia.
  rewrite <- app_assoc. cbn [app].
  rewrite (lookup_app_plus _ _ _ 1) by reflexivity. cbn [lookup list_lookup app].
  destruct w; reflexivity.
Qed.

Lemma resolve_lists_at (p : nat) (ks : list Cont) (A M WL B : list string) (w : World) :
  promises w !! p = Some (Pending ks) →
  resolve_lists p A M WL B w
  = set_microtasks
      (microtasks w ++ map (λ k, (k, Fulfilled (VRef (length (heap w) + 4)))) ks)
      (set_promises (<[p := Settled (Fulfilled (VRef (length (heap w) + 4)))]> (promises w))
         (set_heap (heap w ++ copied_lists (length (heap w)) A M WL B) w)).
Proof.
  intros Hp. unfold resolve_lists, alloc. cbn [heap set_heap fst snd].
  rewrite (settle_pending p ks) by exact Hp.
  rewrite !length_app. cbn [length]. rewrite <- !app_assoc. cbn [app].
  unfold copied_lists. rewrite <- !Nat.add_assoc. cbn [Nat.add].
  destruct w; reflexivity.
Qed.

Lemma drain_one (t : Cont * Outcome) h ps al pb iv cl co cs on li pl cm :
  drain 1 (mkWorld h ps [t] al pb iv cl co cs on li pl cm)
  = run_task t (mkWorld h ps [] al pb iv cl co cs on li pl cm).
Proof. reflexivity. Qed.

Lemma drain_setLists_loaded (w : World) (lists : PartialLists) (p c : nat)
    (qs : list nat) (A M WL B : list string) :
  microtasks w = [] →
  _cache_lists w = Some c →
  fetch_outstanding CbListsLoaded CbListsCopy p c qs w →
  let np := length (promises w) in
  let nh := length (heap w) in
  let nh2 := nh + 5 + 5 * length qs in
  let w2 := drain (length qs + 3) (resolve_lists p A M WL B (setLists lists w).2) in
  heap w2
  = heap w ++ copied_lists nh A M WL B ++ copies_of_lists (nh + 5) (length qs) A M WL B
    ++ copied_lists nh2 A M WL B
    ++ [OLists (default nh2 (p_adminlist lists)) (default (nh2 + 1) (p_modlist lists))
               (default (nh2 + 2) (p_whitelist lists))
               (default (nh2 + 3) (p_blacklist lists))]
  ∧ api_log w2 = api_log w ++ [ApiSetLists (nh2 + 5) (np + 2)]
  ∧ _lists w2 = nh + 4
  ∧ microtasks w2 = []
  ∧ _cache_lists w2 = Some c
  ∧ promises w2 !! np = Some (Pending [])
  ∧ promises w2 !! (np + 2) = Some (Pending [KSetLists2 np])
  ∧ promises w2 !! c = Some (Settled (Fulfilled (VRef (nh + 4))))
  ∧ (∀ i q, qs !! i = Some q →
       promises w2 !! q = Some (Settled (Fulfilled (VRef (nh + 9 + i * 5))))).
Proof.
  cbv zeta.
  intros Hmt Hc Hout.
  destruct (fetch_outstanding_distinct _ _ _ _ _ _ Hout)
    as (Hpc & Hpq & Hcq & Hpl & Hcl & Hql).
  destruct Hout as (Hp & Hcs & Hall & Hnd).
  rewrite (setLists_waits w lists c qs Hc Hcs). cbn [fst snd].
  rewrite (resolve_lists_at p [KThen CbListsLoaded c]).
  2:{ cbn [promises set_promises]. rewrite !list_lookup_insert_ne by lia.
      apply lookup_app_l_Some, Hp. }
  destruct w as [h ps mt al pb iv cl co cs on li pl cm].
  wsimpl_in Hmt; wsimpl_in Hc; wsimpl_in Hp; wsimpl_in Hcs; wsimpl_in Hall;
    wsimpl_in Hpl; wsimpl_in Hcl; wsimpl_in Hql. subst mt cs.
  wsimpl. cbn [map app].
  replace (length qs + 3) with (1 + (length qs + (1 + 1))) by lia.
  rewrite !drain_plus.
  rewrite drain_one. cbn [run_task apply_callback]. wsimpl.
  rewrite (settle_pending c (map (KThen CbListsCopy) (qs ++ [length ps + 1]))).
  2:{ wsimpl.
      rewrite list_lookup_insert_ne by exact Hpc.
      rewrite list_lookup_insert_ne by lia.
      apply list_lookup_insert_eq. rewrite length_app. lia. }
  wsimpl. cbn [app].
  rewrite map_map.
  rewrite (drain_lists_copies_at (length h + 4) (length h)
             (length h + 1) (length h + 2) (length h + 3)
             A M WL B qs _ [(KThen CbListsCopy (length ps + 1),
                             Fulfilled (VRef (length h + 4)))]).
  2:{ wsimpl. rewrite map_app. reflexivity. }
  2,3,4,5,6: wsimpl;
    rewrite <- (app_nil_r (copied_lists _ A M WL B));
    apply (copied_lists_lookup h [] A M WL B).
  2:{ wsimpl.
      apply Forall_forall. intros x Hx. pose proof (Hql x Hx).
      rewrite !list_lookup_insert_ne by (try lia; intros ->; contradiction).
      apply lookup_app_l_Some. exact (proj1 (Forall_forall _ _) Hall x Hx). }
  2:{ exact Hnd. }
  wsimpl. rewrite length_app. cbn [copied_lists length].
  rewrite drain_one. cbn [run_task apply_callback].
  erewrite (copy_lists_at _ _ _ _ _ _ A M WL B).
  2,3,4,5,6: wsimpl; rewrite <- app_assoc;
    apply (copied_lists_lookup h _ A M WL B).
  wsimpl. rewrite !length_app, length_copies_of_lists. cbn [copied_lists length].
  rewrite (settle_pending (length ps + 1) [KSetLists1 lists (length ps)]).
  2:{ wsimpl. rewrite fulfil_each_notin
        by (intros Hin; specialize (Hql _ Hin); lia).
      rewrite !list_lookup_insert_ne by lia.
      apply list_lookup_insert_eq. rewrite length_insert, length_app. cbn [length]. lia. }
  wsimpl. cbn [map app].
  rewrite drain_one. cbn [run_task]. wsimpl.
  rewrite (lookup_app_plus _ _ (length h + 5 + 5 * length qs + 4) 4)
    by (rewrite !length_app, length_copies_of_lists; cbn [copied_lists length]; lia).
  cbn [copied_lists lookup list_lookup].
  unfold alloc, api_call, new_promise, merge_lists, subscribe. wsimpl.
  rewrite (list_lookup_middle _ [] _ _ eq_refl).
  rewrite !length_app, length_copies_of_lists, !length_insert, fulfil_each_length,
    !length_insert, length_app.
  cbn [length].
  cbn [app].
  split; [rewrite <- !app_assoc; reflexivity|].
  split; [cbn [copied_lists length]; do 3 f_equal; lia|].
  split; [reflexivity|]. split; [reflexivity|]. split; [reflexivity|].
  assert (length (fulfil_each (length h + 5 + 4) 5 qs
            (<[c:=Settled (Fulfilled (VRef (length h + 4)))]>
               (<[p:=Settled (Fulfilled (VRef (length h + 4)))]>
                  (<[length ps + 1:=Pending [KSetLists1 lists (length ps)]]>
                     (<[c:=Pending (map (KThen CbListsCopy) (qs ++ [length ps + 1]))]>
                        (ps ++ [Pending []; Pending []]))))))
          = length ps + 2) as Hlen
    by (rewrite fulfil_each_length, !length_insert, length_app; reflexivity).
  split.
  { rewrite list_lookup_insert_ne by lia.
    rewrite lookup_app_l by (rewrite length_insert, Hlen; lia).
    rewrite list_lookup_insert_ne by lia.
    rewrite fulfil_each_notin by (intros Hin; specialize (Hql _ Hin); lia).
    rewrite !list_lookup_insert_ne by lia.
    rewrite (lookup_app_plus _ _ _ 0) by lia. reflexivity. }
  split.
  { apply list_lookup_insert_eq. rewrite length_app, length_insert, Hlen.
    cbn [length]. lia. }
  split.
  { rewrite list_lookup_insert_ne by lia.
    rewrite lookup_app_l by (rewrite length_insert, Hlen; lia).
    rewrite list_lookup_insert_ne by lia.
    rewrite fulfil_each_notin by exact Hcq.
    apply list_lookup_insert_eq. rewrite !length_insert, length_app. lia. }
  intros i q Hi.
  assert (q ∈ qs) as Hq by (apply list_elem_of_lookup; eauto).
  pose proof (Hql q Hq) as Hlt.
  rewrite list_lookup_insert_ne by lia.
  rewrite lookup_app_l by (rewrite length_insert, Hlen; lia).
  rewrite list_lookup_insert_ne by lia.
  rewrite (fulfil_each_lookup 5 qs _ _ i q Hnd Hi)
    by (rewrite !length_insert, length_app; lia).
  do 4 f_equal. lia.
Qed.

Lemma pick_read_in (h rest : list Obj) (given : option nat) (l : nat)
    (cached : list string) :
  (∀ x, given = Some x → x < length h) →
  (h ++ rest) !! l = Some (OArray cached) →
  read_array (h ++ rest) (default l given) = pick h given cached.
Proof.
  intros Hg Hl. destruct given as [x|]; cbn [default pick].
  - apply read_array_app_l, Hg. reflexivity.
  - unfold read_array. rewrite Hl. reflexivity.
Qed.

(** X26.  [setLists] on a World that is still loading its lists, as every
    World is from its construction until the remote answers: the call sends
    nothing and leaves the slot alone; it waits, behind the readers before
    it, on the promise the slot holds.  Once the remote answers that fetch,
    the readers get their copies and the call submits, in one call on the
    remote API, the lists it was given together with the fetched ones for
    the lists it was not given, and waits for the answer; the fetched lists
    have become the [_lists] snapshot. *)
Theorem setLists_first_load (w : World) (lists : PartialLists) (p c : nat)
    (qs : list nat) (A M WL B : list string) :
  microtasks w = [] →
  _cache_lists w = Some c →
  fetch_outstanding CbListsLoaded CbListsCopy p c qs w →
  partial_allocated lists (heap w) →
  let np := length (promises w) in
  let merged := length (heap w) + 5 * length qs + 10 in
  let w1 := (setLists lists w).2 in
  let w2 := drain (length qs + 3) (resolve_lists p A M WL B w1) in
  (setLists lists w).1 = np
  ∧ api_log w1 = api_log w
  ∧ _cache_lists w1 = Some c
  ∧ outcome_of np w1 = None
  ∧ api_log w2 = api_log w ++ [ApiSetLists merged (np + 2)]
  ∧ read_lists (heap w2) merged
    = Some (pick (heap w) (p_adminlist lists) A, pick (heap w) (p_modlist lists) M,
            pick (heap w) (p_whitelist lists) WL, pick (heap w) (p_blacklist lists) B)
  ∧ read_lists (heap w2) (_lists w2) = Some (A, M, WL, B)
  ∧ (∀ q, q ∈ qs → lists_read q w2 = Some (A, M, WL, B))
  ∧ outcome_of np w2 = None
  ∧ outcome_of (np + 2) w2 = None
  ∧ microtasks w2 = [].
Proof.
  intros Hmt Hc Hout Hgiven. cbv zeta.
  destruct (drain_setLists_loaded w lists p c qs A M WL B Hmt Hc Hout)
    as (Hheap & Hlog & Hli & Hmt2 & _ & Hr & Hsub & _ & Hqs).
  pose proof Hout as (_ & Hcs & _ & Hnd).
  pose proof (lookup_lt_Some _ _ _ Hcs) as Hcl.
  rewrite (setLists_waits w lists c qs Hc Hcs) in *. cbn [fst snd] in *.
  split; [reflexivity|]. split; [reflexivity|]. split; [exact Hc|].
  split.
  { unfold outcome_of. cbn [promises set_promises].
    rewrite !list_lookup_insert_ne by lia.
    rewrite (lookup_app_plus _ _ _ 0) by lia. reflexivity. }
  split; [rewrite Hlog; do 3 f_equal; lia|].
  split.
  { rewrite Hheap. unfold read_lists.
    pose proof (copied_lists_lookup
                  (heap w ++ copied_lists (length (heap w)) A M WL B
                   ++ copies_of_lists (length (heap w) + 5) (length qs) A M WL B)
                  [OLists
                     (default (length (heap w) + 5 + 5 * length qs) (p_adminlist lists))
                     (default (length (heap w) + 5 + 5 * length qs + 1) (p_modlist lists))
                     (default (length (heap w) + 5 + 5 * length qs + 2) (p_whitelist lists))
                     (default (length (heap w) + 5 + 5 * length qs + 3) (p_blacklist lists))]
                  A M WL B) as (_ & Ha & Hm & Hwl & Hb).
    rewrite !length_app, length_copies_of_lists in Ha, Hm, Hwl, Hb.
    cbn [copied_lists length] in Ha, Hm, Hwl, Hb.
    rewrite <- !app_assoc in Ha, Hm, Hwl, Hb.
    rewrite !Nat.add_assoc in Ha, Hm, Hwl, Hb.
    replace (length (heap w) + 5 * length qs + 10)
      with (length (heap w) + (5 + (5 * length qs + 5))) by lia.
    rewrite (lookup_app_plus _ _ _ (5 + (5 * length qs + 5)) eq_refl).
    rewrite (lookup_app_plus (copied_lists _ A M WL B) _ _ (5 * length qs + 5))
      by reflexivity.
    rewrite (lookup_app_plus (copies_of_lists _ _ A M WL B) _ _ 5)
      by (rewrite length_copies_of_lists; reflexivity).
    cbn [copied_lists app lookup list_lookup].
    cbn [copied_lists app] in Ha, Hm, Hwl, Hb.
    rewrite (pick_read_in _ _ _ _ A) by
      (try exact Ha; intros l Hl; apply Hgiven; rewrite <- Hl; set_solver).
    rewrite (pick_read_in _ _ _ _ M) by
      (try exact Hm; intros l Hl; apply Hgiven; rewrite <- Hl; set_solver).
    rewrite (pick_read_in _ _ _ _ WL) by
      (try exact Hwl; intros l Hl; apply Hgiven; rewrite <- Hl; set_solver).
    rewrite (pick_read_in _ _ _ _ B) by
      (try exact Hb; intros l Hl; apply Hgiven; rewrite <- Hl; set_solver).
    reflexivity. }
  split; [rewrite Hheap, Hli; apply read_lists_copied|].
  split.
  { intros q Hq. apply list_elem_of_lookup in Hq as [i Hi].
    pose proof (lookup_lt_Some _ _ _ Hi) as Hlt.
    unfold lists_read, result_of, outcome_of. rewrite (Hqs i q Hi).
    cbn [mbind option_bind]. rewrite Hheap.
    pose proof (read_lists_copies (length qs) A M WL B
                  (heap w ++ copied_lists (length (heap w)) A M WL B)
                  (copied_lists (length (heap w) + 5 + 5 * length qs) A M WL B
                   ++ [OLists
                         (default (length (heap w) + 5 + 5 * length qs) (p_adminlist lists))
                         (default (length (heap w) + 5 + 5 * length qs + 1) (p_modlist lists))
                         (default (length (heap w) + 5 + 5 * length qs + 2)
                            (p_whitelist lists))
                         (default (length (heap w) + 5 + 5 * length qs + 3)
                            (p_blacklist lists))])
                  i Hlt) as Hread.
    rewrite length_app, <- !app_assoc in Hread. cbn [copied_lists length] in Hread.
    replace (length (heap w) + 9 + i * 5) with (length (heap w) + 5 + 5 * i + 4) by lia.
    exact Hread. }
  split; [unfold outcome_of; rewrite Hr; reflexivity|].
  split; [unfold outcome_of; rewrite Hsub; reflexivity | exact Hmt2].
Qed.

Lemma Loading_outstanding :
  fetch_outstanding CbListsLoaded CbListsCopy 3 4 [5] Loading.world.
Proof.
  split; [reflexivity|]. split; [reflexivity|].
  split; [repeat constructor | apply NoDup_singleton].
Defined.

Lemma Loading_allocated : partial_allocated Loading.update (heap Loading.world).
Proof.
  intros l Hl. change (length (heap Loading.world)) with 7.
  repeat (apply elem_of_cons in Hl as [Hl | Hl]; [inversion Hl; lia|]).
  inversion Hl.
Defined.

Lemma setLists_first_load_witness :
  microtasks Loading.world = []
  ∧ _cache_lists Loading.world = Some 4
  ∧ fetch_outstanding CbListsLoaded CbListsCopy 3 4 [5] Loading.world
  ∧ partial_allocated Loading.update (heap Loading.world)
  ∧ api_log (setLists Loading.update Loading.world).2 = api_log Loading.world
  ∧ read_lists
      (heap (drain (length [5] + 3)
               (resolve_lists 3 ["ADMIN"] ["MOD"] [] []
                  (setLists Loading.update Loading.world).2)))
      (length (heap Loading.world) + 5 * length [5] + 10)
    = Some (pick (heap Loading.world) (p_adminlist Loading.update) ["ADMIN"],
            pick (heap Loading.world) (p_modlist Loading.update) ["MOD"],
            pick (heap Loading.world) (p_whitelist Loading.update) [],
            pick (heap Loading.world) (p_blacklist Loading.update) []).
Proof.
  assert (microtasks Loading.world = []) as Hmt by reflexivity.
  assert (_cache_lists Loading.world = Some 4) as Hc by reflexivity.
  pose proof (setLists_first_load Loading.world Loading.update 3 4 [5]
                ["ADMIN"] ["MOD"] [] [] Hmt Hc Loading_outstanding Loading_allocated) as H.
  cbv zeta in H. destruct H as (_ & Hlog & _ & _ & _ & Hread & _).
  split; [exact Hmt|]. split; [exact Hc|]. split; [exact Loading_outstanding|].
  split; [exact Loading_allocated|]. split; [exact Hlog | exact Hread].
Defined.

(** * A fetch under way, whatever else happens *)

Section Chain.
Variable chain : list pid.
Variable p : pid.

Lemma und_refl (w : World) : guarded chain p w → undisturbed chain p w w.
Proof. intros G. split; [exact G|]. repeat split; auto. Qed.

Lemma und_trans (w w1 w2 : World) :
  undisturbed chain p w w1 → undisturbed chain p w1 w2 → undisturbed chain p w w2.
Proof.
  intros (_ & H1 & H2 & H3 & H4) (G & H1' & H2' & H3' & H4').
  split; [exact G|]. split; [intros x Hx; rewrite (H1' x Hx); apply H1, Hx|].
  split; [congruence|]. split; [congruence | lia].
Qed.

Lemma und_fields (w w' : World) :
  guarded chain p w →
  promises w' = promises w → microtasks w' = microtasks w →
  _cache_lists w' = _cache_lists w → _cache_logs w' = _cache_logs w →
  _cache_overview w' = _cache_overview w → api_log w' = api_log w →
  undisturbed chain p w w'.
Proof.
  intros [G1 G2 G3 G4 G5 G6 G7 G8] Hps Hmt Hli Hlo Hov Hapi.
  split; [|unfold overview_fetches; rewrite Hps, Hov, Hapi; auto].
  constructor; rewrite ?Hps, ?Hmt, ?Hli, ?Hlo, ?Hapi; assumption.
Qed.

Lemma und_new_promise (w : World) :
  guarded chain p w → undisturbed chain p w (new_promise w).2.
Proof.
  intros [G1 G2 G3 G4 G5 G6 G7 G8]. unfold new_promise. cbn [snd].
  assert (∀ x c, (promises w ++ [Pending []]) !! x = Some c →
            promises w !! x = Some c ∨ c = Pending []) as Hcell.
  { intros x c Hx. apply lookup_app_Some in Hx as [Hx | [_ Hx]]; [left; exact Hx|].
    right. apply list_lookup_singleton_Some in Hx as [_ <-]. reflexivity. }
  split.
  { constructor; cbn [promises microtasks _cache_lists _cache_logs api_log set_promises];
      rewrite ?length_app; cbn [length].
    - intros x ks k Hx Hc Hk. destruct (Hcell _ _ Hc) as [Hc' | [= ->]];
        [eapply G1; eauto | inversion Hk].
    - intros x ks k Hc Hk. destruct (Hcell _ _ Hc) as [Hc' | [= ->]];
        [pose proof (G2 _ _ _ Hc' Hk); lia | inversion Hk].
    - intros t Ht. destruct (G3 t Ht). split; [assumption | lia].
    - intros s Hs. destruct (G4 s Hs). split; [assumption | lia].
    - intros s Hs. destruct (G5 s Hs). split; [assumption | lia].
    - intros x Hx. pose proof (G6 x Hx). lia.
    - exact G7.
    - intros call Hcall. pose proof (G8 call Hcall). lia. }
  cbn [promises _cache_overview set_promises]. rewrite length_app.
  split; [|split; [reflexivity|split; [reflexivity | lia]]].
  intros x Hx. apply lookup_app_l, G6, Hx.
Qed.

Lemma und_subscribe (x : nat) (k : Cont) (w : World) :
  guarded chain p w → x ∉ chain →
  cont_target k ∉ chain → cont_target k < length (promises w) →
  undisturbed chain p w (subscribe x k w).
Proof.
  intros G Hx Hk Hlt. pose proof G as [G1 G2 G3 G4 G5 G6 G7 G8]. unfold subscribe.
  destruct (promises w !! x) as [[ks|o]|] eqn:Hcell; [| |apply und_refl, G].
  - split.
    { constructor; cbn [promises microtasks _cache_lists _cache_logs api_log set_promises];
        rewrite ?length_insert; try assumption.
      - intros y ks' k' Hy Hc Hk'. destruct (decide (y = x)) as [-> | Hne].
        + rewrite list_lookup_insert_eq in Hc by (eapply lookup_lt_Some, Hcell).
          injection Hc as <-. apply elem_of_app in Hk' as [Hk' | Hk'];
            [eapply G1; eauto|]. apply list_elem_of_singleton in Hk' as ->. exact Hk.
        + rewrite list_lookup_insert_ne in Hc by auto. eapply G1; eauto.
      - intros y ks' k' Hc Hk'. destruct (decide (y = x)) as [-> | Hne].
        + rewrite list_lookup_insert_eq in Hc by (eapply lookup_lt_Some, Hcell).
          injection Hc as <-. apply elem_of_app in Hk' as [Hk' | Hk'];
            [eapply G2; eauto|]. apply list_elem_of_singleton in Hk' as ->. exact Hlt.
        + rewrite list_lookup_insert_ne in Hc by auto. eapply G2; eauto. }
    cbn [promises _cache_overview set_promises]. rewrite length_insert.
    split; [|split; [reflexivity|split; [reflexivity | lia]]].
    intros y Hy. apply list_lookup_insert_ne. intros ->. contradiction.
  - split.
    { constructor;
        cbn [promises microtasks _cache_lists _cache_logs api_log set_microtasks];
        try assumption.
      intros t Ht. apply elem_of_app in Ht as [Ht | Ht]; [apply G3, Ht|].
      apply list_elem_of_singleton in Ht as ->. split; assumption. }
    repeat split; auto.
Qed.

Lemma und_settle (x : nat) (o : Outcome) (w : World) :
  guarded chain p w → x ∉ chain → undisturbed chain p w (settle x o w).
Proof.
  intros G Hx. pose proof G as [G1 G2 G3 G4 G5 G6 G7 G8]. unfold settle.
  destruct (promises w !! x) as [[ks|o']|] eqn:Hcell; try (apply und_refl, G).
  split.
  { constructor;
      cbn [promises microtasks _cache_lists _cache_logs api_log set_promises
           set_microtasks];
      rewrite ?length_insert; try assumption.
    - intros y ks' k' Hy Hc Hk'. destruct (decide (y = x)) as [-> | Hne].
      + rewrite list_lookup_insert_eq in Hc by (eapply lookup_lt_Some, Hcell).
        discriminate.
      + rewrite list_lookup_insert_ne in Hc by auto. eapply G1; eauto.
    - intros y ks' k' Hc Hk'. destruct (decide (y = x)) as [-> | Hne].
      + rewrite list_lookup_insert_eq in Hc by (eapply lookup_lt_Some, Hcell).
        discriminate.
      + rewrite list_lookup_insert_ne in Hc by auto. eapply G2; eauto.
    - intros t Ht. apply elem_of_app in Ht as [Ht | Ht]; [apply G3, Ht|].
      apply list_elem_of_fmap in Ht as (k & -> & Hk). cbn [fst].
      split; [eapply G1; eauto | eapply G2; eauto]. }
  cbn [promises _cache_overview set_promises set_microtasks]. rewrite length_insert.
  split; [|split; [reflexivity|split; [reflexivity | lia]]].
  intros y Hy. apply list_lookup_insert_ne. intros ->. contradiction.
Qed.

Lemma und_api_log (call : ApiCall) (w : World) :
  guarded chain p w →
  api_promise call ∉ chain → api_promise call < length (promises w) →
  is_overview_fetch call = false →
  undisturbed chain p w (set_api_log (api_log w ++ [call]) w).
Proof.
  intros [G1 G2 G3 G4 G5 G6 G7 G8] Hc Hlt Hov. split.
  { constructor; cbn [promises microtasks _cache_lists _cache_logs api_log set_api_log];
      try assumption.
    - intros c' Hc' Hin. apply elem_of_app in Hc' as [Hc' | Hc']; [apply G7; assumption|].
      apply list_elem_of_singleton in Hc' as ->. contradiction.
    - intros c' Hc'. apply elem_of_app in Hc' as [Hc' | Hc']; [apply G8; assumption|].
      apply list_elem_of_singleton in Hc' as ->. exact Hlt. }
  split; [reflexivity|]. split; [reflexivity|]. split; [|reflexivity].
  unfold overview_fetches. cbn [api_log set_api_log].
  rewrite filter_app, length_app, filter_cons_False, filter_nil by (rewrite Hov; discriminate).
  cbn [length]. lia.
Qed.

Lemma und_cache_lists (s : nat) (w : World) :
  guarded chain p w → s ∉ chain → s < length (promises w) →
  undisturbed chain p w (set_cache_lists (Some s) w).
Proof.
  intros [G1 G2 G3 G4 G5 G6 G7 G8] Hs Hlt. split; [|repeat split; auto].
  constructor; cbn [promises microtasks _cache_lists _cache_logs api_log set_cache_lists];
    try assumption.
  intros s' [= <-]. split; assumption.
Qed.

Lemma und_cache_logs (s : nat) (w : World) :
  guarded chain p w → s ∉ chain → s < length (promises w) →
  undisturbed chain p w (set_cache_logs (Some s) w).
Proof.
  intros [G1 G2 G3 G4 G5 G6 G7 G8] Hs Hlt. split; [|repeat split; auto].
  constructor; cbn [promises microtasks _cache_lists _cache_logs api_log set_cache_logs];
    try assumption.
  intros s' [= <-]. split; assumption.
Qed.

Lemma und_pop (t : Cont * Outcome) (rest : list (Cont * Outcome)) (w : World) :
  guarded chain p w → microtasks w = t :: rest →
  undisturbed chain p w (set_microtasks rest w).
Proof.
  intros [G1 G2 G3 G4 G5 G6 G7 G8] Hmt. split; [|repeat split; auto].
  constructor; cbn [promises microtasks _cache_lists _cache_logs api_log set_microtasks];
    try assumption.
  intros t' Ht'. apply G3. rewrite Hmt. right. exact Ht'.
Qed.

Lemma fresh_not_in_chain (w : World) :
  guarded chain p w → length (promises w) ∉ chain.
Proof. intros G Hin. pose proof (g_chain _ _ _ G _ Hin). lia. Qed.

Lemma und_fresh_new_promise (w : World) :
  guarded chain p w → und_fresh chain p w (new_promise w).
Proof.
  intros G. split; [apply und_new_promise, G|].
  split; [apply fresh_not_in_chain, G|].
  cbn [new_promise fst snd promises set_promises]. rewrite length_app. cbn [length]. lia.
Qed.

Lemma und_fresh_then (x : nat) (f : Callback) (w : World) :
  guarded chain p w → x ∉ chain → und_fresh chain p w (then_ x f w).
Proof.
  intros G Hx. destruct (und_fresh_new_promise w G) as (U & Hq & Hlt).
  unfold then_. change (new_promise w) with ((new_promise w).1, (new_promise w).2) in *.
  cbn [fst snd] in *. split; [|split].
  - eapply und_trans; [exact U|].
    apply und_subscribe; [apply U | exact Hx | exact Hq | exact Hlt].
  - exact Hq.
  - destruct (und_subscribe x (KThen f (new_promise w).1) (new_promise w).2
                (proj1 U) Hx Hq Hlt) as (_ & _ & _ & _ & Hle).
    cbn [new_promise fst snd] in *. lia.
Qed.

Lemma und_fresh_api_call (c : nat → ApiCall) (w : World) :
  guarded chain p w →
  (∀ q, api_promise (c q) = q) → (∀ q, is_overview_fetch (c q) = false) →
  und_fresh chain p w (api_call c w).
Proof.
  intros G Hc Hov. destruct (und_fresh_new_promise w G) as (U & Hq & Hlt).
  unfold api_call. change (new_promise w) with ((new_promise w).1, (new_promise w).2) in *.
  cbn [fst snd] in *. split; [|split; [exact Hq | exact Hlt]].
  eapply und_trans; [exact U|].
  apply (und_api_log (c (new_promise w).1) (new_promise w).2 (proj1 U));
    rewrite ?Hc; auto.
Qed.

Lemma und_fresh_fetch_lists (w : World) :
  guarded chain p w → und_fresh chain p w (fetch_lists w).
Proof.
  intros G. unfold fetch_lists.
  pose proof (und_fresh_api_call ApiGetLists w G (λ _, eq_refl) (λ _, eq_refl)) as H1.
  destruct (api_call ApiGetLists w) as [q1 w1]. destruct H1 as (U1 & Hq1 & Hlt1).
  cbn [fst snd] in *.
  pose proof (und_fresh_then q1 CbListsLoaded w1 (proj1 U1) Hq1) as H2.
  destruct (then_ q1 CbListsLoaded w1) as [c1 w2]. destruct H2 as (U2 & Hc1 & Hlt2).
  cbn [fst snd] in *. split; [|split; [exact Hc1 | exact Hlt2]].
  eapply und_trans; [exact U1|]. eapply und_trans; [exact U2|].
  apply und_cache_lists; [apply U2 | exact Hc1 | exact Hlt2].
Qed.

Lemma und_fresh_fetch_logs (w : World) :
  guarded chain p w → und_fresh chain p w (fetch_logs w).
Proof.
  intros G. unfold fetch_logs.
  pose proof (und_fresh_api_call ApiGetLogs w G (λ _, eq_refl) (λ _, eq_refl)) as H1.
  destruct (api_call ApiGetLogs w) as [q1 w1]. destruct H1 as (U1 & Hq1 & Hlt1).
  cbn [fst snd] in *. split; [|split; [exact Hq1 | exact Hlt1]].
  eapply und_trans; [exact U1|].
  apply und_cache_logs; [apply U1 | exact Hq1 | exact Hlt1].
Qed.

Lemma und_fresh_getLists (refresh : bool) (w : World) :
  guarded chain p w → und_fresh chain p w (getLists refresh w).
Proof.
  intros G. unfold getLists.
  assert (und_fresh chain p w
            match _cache_lists w with
            | Some c => if refresh then fetch_lists w else (c, w)
            | None => fetch_lists w
            end) as H.
  { destruct (_cache_lists w) as [c|] eqn:Hc; [destruct refresh|];
      try (apply und_fresh_fetch_lists, G).
    destruct (g_lists _ _ _ G c Hc) as [Hn Hlt].
    split; [apply und_refl, G | split; assumption]. }
  destruct (match _cache_lists w with Some c => _ | None => _ end) as [c w1].
  destruct H as (U & Hc & Hlt). cbn [fst snd] in *.
  destruct (und_fresh_then c CbListsCopy w1 (proj1 U) Hc) as (U' & Hq & Hlt').
  split; [eapply und_trans; eassumption | split; assumption].
Qed.

Lemma und_fresh_getLogs (refresh : bool) (w : World) :
  guarded chain p w → und_fresh chain p w (getLogs refresh w).
Proof.
  intros G. unfold getLogs.
  assert (und_fresh chain p w
            match _cache_logs w with
            | Some c => if refresh then fetch_logs w else (c, w)
            | None => fetch_logs w
            end) as H.
  { destruct (_cache_logs w) as [c|] eqn:Hc; [destruct refresh|];
      try (apply und_fresh_fetch_logs, G).
    destruct (g_logs _ _ _ G c Hc) as [Hn Hlt].
    split; [apply und_refl, G | split; assumption]. }
  destruct (match _cache_logs w with Some c => _ | None => _ end) as [c w1].
  destruct H as (U & Hc & Hlt). cbn [fst snd] in *.
  destruct (und_fresh_then c CbLogsCopy w1 (proj1 U) Hc) as (U' & Hq & Hlt').
  split; [eapply und_trans; eassumption | split; assumption].
Qed.

Lemma und_setLists (lists : PartialLists) (w : World) :
  guarded chain p w → undisturbed chain p w (setLists lists w).2.
Proof.
  intros G. unfold setLists.
  destruct (und_fresh_new_promise w G) as (U & Hr & Hlt).
  destruct (new_promise w) as [r w1]. cbn [fst snd] in *.
  destruct (und_fresh_getLists false w1 (proj1 U)) as (U' & Hq & Hlt').
  destruct (getLists false w1) as [q w2]. cbn [fst snd] in *.
  eapply und_trans; [exact U|]. eapply und_trans; [exact U'|].
  destruct U' as (G2 & _ & _ & _ & Hle).
  apply und_subscribe; [exact G2 | exact Hq | exact Hr | cbn [cont_target]; lia].
Qed.

Lemma copy_entries_fields (entries : list nat) :
  ∀ w, promises (copy_entries entries w).2 = promises w
       ∧ microtasks (copy_entries entries w).2 = microtasks w
       ∧ _cache_lists (copy_entries entries w).2 = _cache_lists w
       ∧ _cache_logs (copy_entries entries w).2 = _cache_logs w
       ∧ _cache_overview (copy_entries entries w).2 = _cache_overview w
       ∧ api_log (copy_entries entries w).2 = api_log w.
Proof.
  induction entries as [|e rest IH]; intros w; [repeat split|].
  cbn [copy_entries].
  destruct (heap w !! e) as [[]|]; unfold alloc;
    match goal with
    | |- context [copy_entries rest ?x] =>
        specialize (IH x); destruct (copy_entries rest x)
    end; exact IH.
Qed.

Lemma apply_callback_fields (f : Callback) (v : Value) (w : World) :
  promises (apply_callback f v w).2 = promises w
  ∧ microtasks (apply_callback f v w).2 = microtasks w
  ∧ _cache_lists (apply_callback f v w).2 = _cache_lists w
  ∧ _cache_logs (apply_callback f v w).2 = _cache_logs w
  ∧ _cache_overview (apply_callback f v w).2 = _cache_overview w
  ∧ api_log (apply_callback f v w).2 = api_log w.
Proof.
  destruct v as [|l]; [repeat split|].
  destruct f; cbn [apply_callback snd];
    unfold overview_loaded, copy_overview, copy_lists, copy_logs, alloc;
    destruct (heap w !! l) as [[]|]; try (repeat split; fail).
  match goal with
  | |- context [copy_entries ?es ?x] =>
      pose proof (copy_entries_fields es x) as H; destruct (copy_entries es x)
  end.
  exact H.
Qed.

Lemma und_apply_callback (f : Callback) (v : Value) (w : World) :
  guarded chain p w → undisturbed chain p w (apply_callback f v w).2.
Proof.
  intros G. destruct (apply_callback_fields f v w) as (H1 & H2 & H3 & H4 & H5 & H6).
  apply und_fields; assumption.
Qed.

Lemma und_alloc (o : Obj) (w : World) :
  guarded chain p w → undisturbed chain p w (alloc o w).2.
Proof. intros G. apply und_fields; auto. Qed.

Lemma und_run_task (t : Cont * Outcome) (w : World) :
  guarded chain p w → cont_target t.1 ∉ chain → cont_target t.1 < length (promises w) →
  undisturbed chain p w (run_task t w).
Proof.
  intros G Ht Hlt. destruct t as [[f q | lists r | r | r] [v | e]];
    cbn [run_task fst cont_target] in *;
    try (apply und_settle; assumption).
  - pose proof (und_apply_callback f v w G) as U.
    destruct (apply_callback f v w) as [v' w1]. cbn [snd] in U.
    eapply und_trans; [exact U|]. apply und_settle; [apply U | exact Ht].
  - destruct v as [|current]; [apply und_refl, G|].
    destruct (heap w !! current) as [o|]; [|apply und_refl, G].
    pose proof (und_alloc (merge_lists o lists) w G) as U1.
    destruct (alloc (merge_lists o lists) w) as [merged w1]. cbn [snd] in U1.
    pose proof (und_fresh_api_call (ApiSetLists merged) w1 (proj1 U1)
                  (λ _, eq_refl) (λ _, eq_refl)) as (U2 & Hq & Hlt2).
    destruct (api_call (ApiSetLists merged) w1) as [q w2]. cbn [fst snd] in *.
    eapply und_trans; [exact U1|]. eapply und_trans; [exact U2|].
    destruct U1 as (_ & _ & _ & _ & Hle1). destruct U2 as (G2 & _ & _ & _ & Hle2).
    apply und_subscribe; [exact G2 | exact Hq | exact Ht | cbn [cont_target]; lia].
  - destruct (und_fresh_getLists true w G) as (U & Hq & Hlt').
    destruct (getLists true w) as [q w1]. cbn [fst snd] in *.
    eapply und_trans; [exact U|]. destruct U as (G1 & _ & _ & _ & Hle).
    apply und_subscribe; [exact G1 | exact Hq | exact Ht | cbn [cont_target]; lia].
Qed.

Lemma und_drain_1 (w : World) :
  guarded chain p w → undisturbed chain p w (drain 1 w).
Proof.
  intros G. cbn [drain]. destruct (microtasks w) as [|t rest] eqn:Hmt; [apply und_refl, G|].
  pose proof (und_pop t rest w G Hmt) as U.
  destruct (g_tasks _ _ _ G t) as [Ht Hlt]; [rewrite Hmt; left|].
  eapply und_trans; [exact U|]. destruct U as (G1 & _ & _ & _ & Hle).
  apply und_run_task; [exact G1 | exact Ht | lia].
Qed.

Lemma alloc_entries_fields (entries : list (list (string * string))) :
  ∀ w, promises (alloc_entries entries w).2 = promises w
       ∧ microtasks (alloc_entries entries w).2 = microtasks w
       ∧ _cache_lists (alloc_entries entries w).2 = _cache_lists w
       ∧ _cache_logs (alloc_entries entries w).2 = _cache_logs w
       ∧ _cache_overview (alloc_entries entries w).2 = _cache_overview w
       ∧ api_log (alloc_entries entries w).2 = api_log w.
Proof.
  induction entries as [|e rest IH]; intros w; [repeat split|].
  cbn [alloc_entries]. unfold alloc.
  match goal with
  | |- context [alloc_entries rest ?x] =>
      specialize (IH x); destruct (alloc_entries rest x)
  end.
  exact IH.
Qed.

Lemma und_remote (r : Remote) (w : World) :
  guarded chain p w → remote_target r ∉ chain → undisturbed chain p w (remote r w).
Proof.
  intros G Ht. destruct r as [q own names | q a m wl b | q entries | q | q e];
    cbn [remote remote_target] in *.
  - unfold resolve_overview, alloc. cbn [fst snd].
    eapply und_trans; [|apply und_settle; [|exact Ht]].
    + apply und_fields; auto.
    + apply (und_fields w); auto.
  - unfold resolve_lists, alloc. cbn [fst snd].
    eapply und_trans; [|apply und_settle; [|exact Ht]].
    + apply und_fields; auto.
    + apply (und_fields w); auto.
  - unfold resolve_logs.
    destruct (alloc_entries_fields entries w) as (H1 & H2 & H3 & H4 & H5 & H6).
    destruct (alloc_entries entries w) as [es w1]. cbn [snd] in *. unfold alloc.
    eapply und_trans; [|apply und_settle; [|exact Ht]].
    + apply und_fields; auto.
    + apply (und_fields w); auto.
  - apply und_settle; assumption.
  - apply und_settle; assumption.
Qed.

Lemma und_call (c : Call) (w : World) :
  guarded chain p w →
  (∀ refresh, c ≠ CGetOverview refresh) →
  undisturbed chain p w (call c w).
Proof.
  intros G Hc. destruct c; cbn [call].
  - apply und_fields; auto.
  - apply und_fields; auto.
  - unfold onMessage_handler. destruct (test_command message); [|apply und_fields; auto].
    destruct (match_command message) as [[command args]|]; [|apply und_fields; auto].
    destruct (_commands _ !! _); apply und_fields; auto.
  - exfalso. apply (Hc refresh). reflexivity.
  - apply und_fresh_getLists, G.
  - apply und_fresh_getLogs, G.
  - apply und_setLists, G.
  - apply (und_fresh_api_call (ApiSend message) w G (λ _, eq_refl) (λ _, eq_refl)).
  - apply (und_fresh_api_call ApiStart w G (λ _, eq_refl) (λ _, eq_refl)).
  - apply (und_fresh_api_call ApiStop w G (λ _, eq_refl) (λ _, eq_refl)).
  - apply (und_fresh_api_call ApiRestart w G (λ _, eq_refl) (λ _, eq_refl)).
  - unfold addCommand. destruct (_commands w !! _); [apply und_refl, G|].
    apply und_fields; auto.
  - apply und_fields; auto.
  - apply und_fields; auto.
Qed.

End Chain.

Lemma und_step (chain : list nat) (p : nat) (s : Step) (w : World) :
  guarded chain p w → beside_fetch p w s → undisturbed chain p w (step s w).
Proof.
  intros G Hs. destruct s as [c | r |]; cbn [step beside_fetch] in *.
  - apply und_call; [exact G|]. intros refresh ->. exact Hs.
  - destruct Hs as (Hne & call & Hcall & Heq). apply und_remote; [exact G|].
    intros Hin. apply Hne. rewrite <- Heq in *. apply (g_api _ _ _ G call Hcall Hin).
  - apply und_drain_1, G.
Qed.

Lemma fetch_guarded_kept (p c : nat) (qs : list nat) (w w' : World) :
  fetch_guarded p c qs w → undisturbed (p :: c :: qs) p w w' →
  fetch_guarded p c qs w'.
Proof.
  intros (Hc & (Hp & Hcs & Hall & Hnd) & _) (G' & Hsame & Hslot & _).
  split; [congruence|]. split; [|exact G'].
  split; [rewrite Hsame by (left); exact Hp|].
  split; [rewrite Hsame by (right; left); exact Hcs|].
  split; [|exact Hnd].
  apply Forall_forall. intros x Hx.
  rewrite Hsame by (do 2 right; exact Hx).
  exact (proj1 (Forall_forall _ _) Hall x Hx).
Qed.

Lemma fetch_guarded_read (p c : nat) (qs : list nat) (w : World) :
  fetch_guarded p c qs w →
  fetch_guarded p c (qs ++ [length (promises w)]) (getOverview false w).2
  ∧ overview_fetches (getOverview false w).2 = overview_fetches w.
Proof.
  intros (Hc & Hout & G).
  pose proof Hout as (Hp & Hcs & Hall & Hnd).
  destruct (fetch_outstanding_distinct _ _ _ _ _ _ Hout) as (Hpc & Hpq & Hcq & Hpl & Hcl & Hql).
  rewrite (getOverview_waits c qs w Hc Hcs). cbn [snd].
  split; [|reflexivity]. split; [exact Hc|]. split.
  { apply (fetch_outstanding_reads _ _ p c qs 1 w _ Hout). reflexivity. }
  destruct G as [G1 G2 G3 G4 G5 G6 G7 G8].
  assert (∀ x, x ∈ p :: c :: qs ++ [length (promises w)] →
               x ∈ p :: c :: qs ∨ x = length (promises w)) as Hsplit.
  { intros x Hx. rewrite !elem_of_cons, elem_of_app, list_elem_of_singleton in Hx.
    rewrite !elem_of_cons. tauto. }
  assert (∀ x, x ∈ p :: c :: qs → x ∈ p :: c :: qs ++ [length (promises w)]) as Hincl.
  { intros x Hx. rewrite !elem_of_cons, elem_of_app. rewrite !elem_of_cons in Hx. tauto. }
  assert (c ∈ p :: c :: qs ++ [length (promises w)]) as Hcin by (right; left).
  constructor; cbn [promises microtasks _cache_lists _cache_logs api_log set_promises];
    rewrite ?length_insert, ?length_app; cbn [length].
  - intros x ks k Hx Hcell Hk.
    assert (x ≠ c) as Hxc by (intros ->; contradiction).
    rewrite list_lookup_insert_ne in Hcell by auto.
    apply lookup_app_Some in Hcell as [Hcell | [_ Hcell]].
    + intros Hin. apply Hsplit in Hin as [Hin | Heq].
      * revert Hin. apply (G1 x ks k); [intros Hin; apply Hx, Hincl, Hin | exact Hcell | exact Hk].
      * pose proof (G2 x ks k Hcell Hk). lia.
    + apply list_lookup_singleton_Some in Hcell as [_ [= <-]]. inversion Hk.
  - intros x ks k Hcell Hk. destruct (decide (x = c)) as [-> | Hxc].
    + rewrite list_lookup_insert_eq in Hcell by (rewrite length_app; lia).
      injection Hcell as <-. apply list_elem_of_fmap in Hk as (q & -> & Hq).
      cbn [cont_target]. apply elem_of_app in Hq as [Hq | Hq].
      * specialize (Hql q Hq). lia.
      * apply list_elem_of_singleton in Hq as ->. lia.
    + rewrite list_lookup_insert_ne in Hcell by auto.
      apply lookup_app_Some in Hcell as [Hcell | [_ Hcell]].
      * pose proof (G2 x ks k Hcell Hk). lia.
      * apply list_lookup_singleton_Some in Hcell as [_ [= <-]]. inversion Hk.
  - intros t Ht. destruct (G3 t Ht) as [Hn Hlt]. split; [|lia].
    intros Hin. apply Hsplit in Hin as [Hin | Heq]; [contradiction | lia].
  - intros s Hs. destruct (G4 s Hs) as [Hn Hlt]. split; [|lia].
    intros Hin. apply Hsplit in Hin as [Hin | Heq]; [contradiction | lia].
  - intros s Hs. destruct (G5 s Hs) as [Hn Hlt]. split; [|lia].
    intros Hin. apply Hsplit in Hin as [Hin | Heq]; [contradiction | lia].
  - intros x Hx. apply Hsplit in Hx as [Hx | ->]; [specialize (G6 x Hx)|]; lia.
  - intros call Hcall Hin. apply Hsplit in Hin as [Hin | Heq]; [apply G7; assumption|].
    pose proof (G8 call Hcall). lia.
  - intros call Hcall. pose proof (G8 call Hcall). lia.
Qed.

Lemma run_undisturbed (steps : list Step) :
  ∀ (w : World) (p c : nat) (qs : list nat),
    fetch_guarded p c qs w →
    runs_while_pending p steps w →
    fetch_guarded p c (qs ++ overview_readers steps w) (run steps w)
    ∧ overview_fetches (run steps w) = overview_fetches w.
Proof.
  induction steps as [|s steps IH]; intros w p c qs Hg Hrun.
  - cbn [overview_readers run foldl]. rewrite app_nil_r. split; [exact Hg | reflexivity].
  - destruct Hrun as [Hs Hrun]. change (run (s :: steps) w) with (run steps (step s w)).
    assert (s = SCall (CGetOverview false)
            ∨ (beside_fetch p w s
               ∧ overview_readers (s :: steps) w = overview_readers steps (step s w)))
      as [-> | [Hb Hsame]].
    { destruct s as [[| | |refresh| | | | | | | | | |] | |];
        try (right; split; [exact Hs | reflexivity]).
      left. cbn [while_pending] in Hs. subst refresh. reflexivity. }
    + cbn [overview_readers].
      change (step (SCall (CGetOverview false)) w) with (getOverview false w).2 in *.
      destruct (fetch_guarded_read p c qs w Hg) as [Hg' Hn].
      destruct (IH _ p c _ Hg' Hrun) as [Hg'' Hn'].
      rewrite <- app_assoc in Hg''. split; [exact Hg''|].
      rewrite Hn'. exact Hn.
    + pose proof (und_step (p :: c :: qs) p s w (proj2 (proj2 Hg)) Hb) as U.
      pose proof (fetch_guarded_kept p c qs w _ Hg U) as Hg'.
      destruct (IH _ p c qs Hg' Hrun) as [Hg'' Hn'].
      rewrite Hsame. split; [exact Hg''|]. rewrite Hn'. apply U.
Qed.

Lemma guarded_fields (chain : list nat) (p : nat) (w w' : World) :
  guarded chain p w →
  promises w' = promises w → microtasks w' = microtasks w →
  _cache_lists w' = _cache_lists w → _cache_logs w' = _cache_logs w →
  api_log w' = api_log w →
  guarded chain p w'.
Proof.
  intros [G1 G2 G3 G4 G5 G6 G7 G8] Hps Hmt Hli Hlo Hapi.
  constructor; rewrite ?Hps, ?Hmt, ?Hli, ?Hlo, ?Hapi; assumption.
Qed.

Lemma allocated_api_call (c : nat → ApiCall) (w : World) :
  allocated w → (∀ q, api_promise (c q) = q) →
  allocated (api_call c w).2 ∧ (api_call c w).1 < length (promises (api_call c w).2).
Proof.
  intros G Hc. destruct (und_fresh_new_promise [] 0 w G) as (U & _ & Hlt).
  unfold api_call. cbn [new_promise fst snd] in *. split; [|exact Hlt].
  destruct U as ([G1 G2 G3 G4 G5 G6 G7 G8] & _).
  constructor; cbn [promises microtasks _cache_lists _cache_logs api_log set_api_log] in *;
    try assumption.
  - intros call _ Hin. inversion Hin.
  - intros call Hcall. apply elem_of_app in Hcall as [Hcall | Hcall]; [apply G8, Hcall|].
    apply list_elem_of_singleton in Hcall as ->. rewrite Hc. exact Hlt.
Qed.

Lemma allocated_getOverview (refresh : bool) (w : World) :
  allocated w →
  allocated (getOverview refresh w).2
  ∧ (getOverview refresh w).1 < length (promises (getOverview refresh w).2).
Proof.
  intros G. unfold getOverview.
  assert (allocated
            (match _cache_overview w with
             | Some c => if refresh then fetch_overview w else (c, w)
             | None => fetch_overview w
             end).2) as H.
  { assert (allocated (fetch_overview w).2) as Hf.
    { unfold fetch_overview.
      destruct (allocated_api_call ApiGetOverview w G (λ _, eq_refl)) as [G1 Hlt1].
      destruct (api_call ApiGetOverview w) as [q1 w1]. cbn [fst snd] in *.
      destruct (und_fresh_then [] 0 q1 CbOverviewLoaded w1 G1) as (U & _); [set_solver|].
      destruct (then_ q1 CbOverviewLoaded w1) as [c1 w2]. cbn [fst snd] in *.
      apply (guarded_fields [] 0 w2); auto. apply U. }
    destruct (_cache_overview w); [destruct refresh|]; auto. }
  destruct (match _cache_overview w with Some c => _ | None => _ end) as [c w1].
  cbn [snd] in H.
  destruct (und_fresh_then [] 0 c CbOverviewCopy w1 H) as (U & _ & Hlt); [set_solver|].
  split; [apply U | exact Hlt].
Qed.

Lemma allocated_step (s : Step) (w : World) : allocated w → allocated (step s w).
Proof.
  intros G. destruct s as [c | r |]; cbn [step].
  - assert ((∃ refresh, c = CGetOverview refresh) ∨ ∀ refresh, c ≠ CGetOverview refresh)
      as [[refresh ->] | Hne]
      by (destruct c; try (right; discriminate); left; eauto).
    + apply allocated_getOverview, G.
    + apply (und_call [] 0 c w G Hne).
  - apply (und_remote [] 0 r w G). set_solver.
  - apply (und_drain_1 [] 0 w G).
Qed.

Lemma allocated_run (steps : list Step) : ∀ w, allocated w → allocated (run steps w).
Proof.
  induction steps as [|s steps IH]; intros w G; [exact G|].
  apply (IH (step s w)), allocated_step, G.
Qed.

Lemma allocated_initial (stored : gmap string PlayerInfo) : allocated (initial stored).
Proof.
  constructor; cbn [initial promises microtasks _cache_lists _cache_logs api_log];
    try (intros; discriminate); try (intros ? H; inversion H).
Qed.

(** A read that starts a fetch leaves its chain guarded: the three promises
    are new. *)
Lemma fetch_starts_guarded (refresh : bool) (w : World) :
  allocated w →
  refresh = true ∨ _cache_overview w = None →
  fetch_guarded (length (promises w)) (length (promises w) + 1)
    [length (promises w) + 2] (getOverview refresh w).2.
Proof.
  intros [_ G2 G3 G4 G5 _ _ G8] Hwhy.
  rewrite (getOverview_fetches refresh w Hwhy). cbn [snd].
  split; [reflexivity|]. split; [apply pending_overview_outstanding|].
  set (np := length (promises w)).
  assert (∀ x, x ∈ [np; np + 1; np + 2] → (np ≤ x)%nat) as Hnew.
  { intros x Hx. rewrite !elem_of_cons in Hx.
    destruct Hx as [-> | [-> | [-> | Hx]]]; [lia..|inversion Hx]. }
  assert (∀ x c, (promises w ++ [Pending [KThen CbOverviewLoaded (np + 1)];
                                 Pending [KThen CbOverviewCopy (np + 2)]; Pending []])
                   !! x = Some c →
            promises w !! x = Some c
            ∨ (x = np ∧ c = Pending [KThen CbOverviewLoaded (np + 1)])
            ∨ (x = np + 1 ∧ c = Pending [KThen CbOverviewCopy (np + 2)])
            ∨ (x = np + 2 ∧ c = Pending [])) as Hcell.
  { intros x c Hx. apply lookup_app_Some in Hx as [Hx | [Hge Hx]]; [left; exact Hx|].
    right. fold np in Hge, Hx.
    destruct (x - np) as [|[|[|n]]] eqn:E; cbn in Hx; [| | |discriminate];
      injection Hx as <-; [left | right; left | right; right]; split; try reflexivity; lia. }
  constructor;
    cbn [pending_overview promises microtasks _cache_lists _cache_logs api_log
         set_cache_overview set_api_log set_promises seq map replicate app];
    rewrite ?length_app; cbn [length]; fold np.
  - intros x ks k Hx Hc Hk Hin. apply Hnew in Hin.
    destruct (Hcell _ _ Hc) as [Hc' | [[-> _] | [[-> _] | [-> _]]]].
    + pose proof (G2 x ks k Hc' Hk). fold np in H. lia.
    + apply Hx. left.
    + apply Hx. right; left.
    + apply Hx. do 2 right; left.
  - intros x ks k Hc Hk.
    destruct (Hcell _ _ Hc) as [Hc' | [[-> [= ->]] | [[-> [= ->]] | [-> [= ->]]]]].
    + pose proof (G2 x ks k Hc' Hk). fold np in H. lia.
    + apply list_elem_of_singleton in Hk as ->. cbn [cont_target]. lia.
    + apply list_elem_of_singleton in Hk as ->. cbn [cont_target]. lia.
    + inversion Hk.
  - intros t Ht. destruct (G3 t Ht) as [_ Hlt]. fold np in Hlt. split; [|lia].
    intros Hin. apply Hnew in Hin. lia.
  - intros s Hs. destruct (G4 s Hs) as [_ Hlt]. fold np in Hlt. split; [|lia].
    intros Hin. apply Hnew in Hin. lia.
  - intros s Hs. destruct (G5 s Hs) as [_ Hlt]. fold np in Hlt. split; [|lia].
    intros Hin. apply Hnew in Hin. lia.
  - intros x Hx. rewrite !elem_of_cons in Hx.
    destruct Hx as [-> | [-> | [-> | Hx]]]; [lia..|inversion Hx].
  - intros call Hcall Hin. apply Hnew in Hin.
    apply elem_of_app in Hcall as [Hcall | Hcall].
    + pose proof (G8 call Hcall). fold np in H. lia.
    + apply list_elem_of_singleton in Hcall as ->. reflexivity.
  - intros call Hcall. apply elem_of_app in Hcall as [Hcall | Hcall].
    + pose proof (G8 call Hcall). fold np in H. lia.
    + apply list_elem_of_singleton in Hcall as ->. cbn [api_promise]. lia.
Qed.

(** A World as constructed: the fetch of line 55 is under way, guarded. *)
Lemma construct_guarded (stored : gmap string PlayerInfo) :
  fetch_guarded 0 1 [2] (construct stored) ∧ allocated (construct stored).
Proof.
  pose proof (fetch_starts_guarded false (initial stored) (allocated_initial stored)
                (or_intror eq_refl)) as Hg.
  pose proof (allocated_getOverview false (initial stored) (allocated_initial stored))
    as [Ha _].
  unfold construct.
  destruct (getOverview false (initial stored)) as [q w1] eqn:E. cbn [snd] in *.
  change (length (promises (initial stored))) with 0 in Hg. cbn [Nat.add] in Hg.
  pose proof (und_fresh_getLists [0; 1; 2] 0 false w1 (proj2 (proj2 Hg))) as (U & _).
  pose proof (und_fresh_getLists [] 0 false w1 Ha) as (U' & _).
  destruct (getLists false w1) as [q' w2]. cbn [snd] in *.
  split; [exact (fetch_guarded_kept 0 1 [2] w1 w2 Hg U) | apply U'].
Qed.

Lemma allocated_construct (stored : gmap string PlayerInfo) : allocated (construct stored).
Proof. apply construct_guarded. Qed.

(** X30.  While the remote has not answered an overview fetch and no caller
    asks for a refresh, whatever happens (events of the chat watcher, calls
    of any other method, plain reads of the overview, answers of the remote
    to its other promises, microtasks) keeps that fetch under way in the
    slot: the slot holds the same promise, still pending on the fetch; the
    readers waiting on it are the earlier ones followed by the plain reads
    made since, each with a pending promise of its own; no overview fetch is
    sent.  A World is in such a state from its construction, and in any
    state a World reaches, a read that starts a fetch leads to one. *)
Theorem run_keeps_fetch_under_way (steps : list Step) (w : World) (p c : nat)
    (qs : list nat) :
  fetch_guarded p c qs w →
  runs_while_pending p steps w →
  let w' := run steps w in
  let waiting := qs ++ overview_readers steps w in
  _cache_overview w' = Some c
  ∧ fetch_outstanding CbOverviewLoaded CbOverviewCopy p c waiting w'
  ∧ overview_fetches w' = overview_fetches w
  ∧ fetch_guarded p c waiting w'
  ∧ (∀ stored, fetch_guarded 0 1 [2] (construct stored))
  ∧ (∀ stored before refresh,
       let w0 := run before (construct stored) in
       refresh = true ∨ _cache_overview w0 = None →
       fetch_guarded (length (promises w0)) (length (promises w0) + 1)
         [length (promises w0) + 2] (getOverview refresh w0).2).
Proof.
  intros Hg Hrun. cbv zeta.
  destruct (run_undisturbed steps w p c qs Hg Hrun) as [Hg' Hn].
  split; [apply Hg'|]. split; [apply Hg'|]. split; [exact Hn|]. split; [exact Hg'|].
  split; [intros stored; apply construct_guarded|].
  intros stored before refresh Hwhy. apply fetch_starts_guarded; [|exact Hwhy].
  apply allocated_run, allocated_construct.
Qed.

Lemma Meanwhile_runs : runs_while_pending 0 Meanwhile.steps (construct ∅).
Proof.
  cbn [runs_while_pending Meanwhile.steps while_pending beside_fetch remote_target].
  repeat split; try discriminate.
  exists (ApiGetLists 3). split; [|reflexivity].
  apply list_elem_of_In. vm_compute. tauto.
Defined.

Lemma run_keeps_fetch_under_way_witness :
  fetch_guarded 0 1 [2] (construct ∅)
  ∧ runs_while_pending 0 Meanwhile.steps (construct ∅)
  ∧ overview_readers Meanwhile.steps (construct ∅) = [6; 10]
  ∧ fetch_outstanding CbOverviewLoaded CbOverviewCopy 0 1
      ([2] ++ overview_readers Meanwhile.steps (construct ∅))
      (run Meanwhile.steps (construct ∅))
  ∧ overview_fetches (run Meanwhile.steps (construct ∅)) = overview_fetches (construct ∅).
Proof.
  pose proof (proj1 (construct_guarded ∅)) as Hg.
  pose proof (run_keeps_fetch_under_way Meanwhile.steps (construct ∅) 0 1 [2]
                Hg Meanwhile_runs) as H.
  cbv zeta in H. destruct H as (_ & Hout & Hn & _).
  split; [exact Hg|]. split; [exact Meanwhile_runs|].
  split; [vm_compute; reflexivity|]. split; [exact Hout | exact Hn].
Defined.
